(** * Downloader-to-Telegram server: job lifecycle and queue engine

    A shallow embedding of the two versions of the server kept in the
    repository: the multi-engine one (classifier, four engine adapters,
    single-file and multi-file delivery) and the earlier single-engine
    [server.js].

    JavaScript is single threaded and runs every callback to completion, so
    the program is modelled as a transition function over the events the
    Node event loop delivers: an HTTP request, a [setImmediate] callback, the
    settlement of an awaited notifier call, a chunk of subprocess output, a
    subprocess closing, a timer firing.  Each transition is one synchronous
    segment of the source, from the resumption point up to the next [await].

    Strings are sequences of 8-bit characters standing for the code units of
    the JavaScript strings: a character is the code unit of the same number,
    so the strings of the model are those whose code units are all below
    256.  Numbers read from the configuration are taken to be integers. *)

From Stdlib Require Import ZArith Ascii String List Bool Lia.
From Stdlib Require Import Sorting.Sorted Sorting.Permutation.
From stdpp Require Import base decidable option list gmap fin_maps fin_sets strings pretty sorting.

Local Open Scope Z_scope.

(** ** String primitives of the JavaScript runtime *)

Module Js.

(** [s.length] *)
Definition length (s : string) : nat := String.length s.

(** [s.slice(n)] for [0 <= n] *)
Fixpoint drop (n : nat) (s : string) : string :=
  match n, s with
  | O, _ => s
  | S n', String _ s' => drop n' s'
  | S _, EmptyString => EmptyString
  end.

(** [s.slice(-n)] : the last [n] characters, the whole string when shorter *)
Definition slice_last (n : nat) (s : string) : string :=
  drop (String.length s - n) s.

(** [s.startsWith(p)] *)
Fixpoint startsWith (p s : string) : bool :=
  match p, s with
  | EmptyString, _ => true
  | String a p', String b s' => if Ascii.eqb a b then startsWith p' s' else false
  | String _ _, EmptyString => false
  end.

(** [s.includes(p)] *)
Fixpoint includes (p s : string) : bool :=
  startsWith p s ||
  match s with
  | EmptyString => false
  | String _ s' => includes p s'
  end.

(** [s.endsWith(p)] : the characters from [s.length - p.length] on are [p] *)
Definition endsWith (p s : string) : bool :=
  (String.length p <=? String.length s)%nat &&
  String.eqb (drop (String.length s - String.length p) s) p.

Definition lower_char (c : ascii) : ascii :=
  let n := nat_of_ascii c in
  if ((65 <=? n) && (n <=? 90))%nat then ascii_of_nat (n + 32) else c.

(** [s.toLowerCase()] *)
Fixpoint toLowerCase (s : string) : string :=
  match s with
  | EmptyString => EmptyString
  | String c s' => String (lower_char c) (toLowerCase s')
  end.

(** the white space and line terminators of ECMAScript among the code units
    below 256: TAB, LF, VT, FF, CR, SP and the no-break space U+00A0 *)
Definition is_white (c : ascii) : bool :=
  match nat_of_ascii c with
  | 9%nat | 10%nat | 11%nat | 12%nat | 13%nat | 32%nat | 160%nat => true
  | _ => false
  end.

Fixpoint trimStart (s : string) : string :=
  match s with
  | EmptyString => EmptyString
  | String c s' => if is_white c then trimStart s' else s
  end.

(** [s.trim()] *)
Definition trim (s : string) : string :=
  String.rev (trimStart (String.rev (trimStart s))).

Fixpoint split_go (sep : ascii) (cur : string) (s : string) : list string :=
  match s with
  | EmptyString => [String.rev cur]
  | String c s' =>
      if Ascii.eqb c sep then String.rev cur :: split_go sep EmptyString s'
      else split_go sep (String c cur) s'
  end.

(** [s.split(sep)] for a one-character separator *)
Definition split (sep : ascii) (s : string) : list string :=
  split_go sep EmptyString s.

(** a value used as a condition: the empty string is falsy *)
Definition truthy (s : string) : bool := negb (String.eqb s EmptyString).

(** template interpolation of an integer *)
Definition of_Z (z : Z) : string := pretty z.

(** template interpolation of [n] for a length or a counter *)
Definition of_nat (n : nat) : string := pretty n.

(** [a || b] on strings *)
Definition or_else (a b : string) : string := if truthy a then a else b.

End Js.

(** regular expressions, as far as the classifier uses them *)
Module Regex.

Inductive t :=
| Chr (c : ascii)
| Seq (r1 r2 : t)
| Alt (r1 r2 : t)
| Never
| Empty
| EndOfInput.

Definition same_char (ignore_case : bool) (a b : ascii) : bool :=
  if ignore_case then Ascii.eqb (Js.lower_char a) (Js.lower_char b)
  else Ascii.eqb a b.

(** backtracking matcher with a continuation for the rest of the pattern *)
Fixpoint matches (ic : bool) (r : t) (s : string) (k : string -> bool) : bool :=
  match r with
  | Chr c =>
      match s with
      | String a s' => if same_char ic a c then k s' else false
      | EmptyString => false
      end
  | Seq r1 r2 => matches ic r1 s (fun s' => matches ic r2 s' k)
  | Alt r1 r2 => matches ic r1 s k || matches ic r2 s k
  | Never => false
  | Empty => k s
  | EndOfInput => match s with EmptyString => k s | _ => false end
  end.

(** [re.test(s)] : a match starting at some position of [s] *)
Fixpoint test (ic : bool) (r : t) (s : string) : bool :=
  matches ic r s (fun _ => true) ||
  match s with
  | EmptyString => false
  | String _ s' => test ic r s'
  end.

Fixpoint word (w : string) : t :=
  match w with
  | EmptyString => Empty
  | String c w' => Seq (Chr c) (word w')
  end.

Definition one_of (ws : list string) : t :=
  fold_right (fun w r => Alt (word w) r) Never ws.

End Regex.

(** ** Data model *)

(** the [status] strings of a job record *)
Inductive Status := Queued | Downloading | Uploading | Done | Failed.

Definition status_string (s : Status) : string :=
  match s with
  | Queued => "queued"
  | Downloading => "downloading"
  | Uploading => "uploading"
  | Done => "done"
  | Failed => "error"
  end.

Global Instance Status_eq_dec : EqDecision Status.
Proof. solve_decision. Defined.

(** a record of the [jobs] map; [None] is JavaScript's [null] *)
Record Job := mkJob {
  job_id : string;
  url : string;
  status : Status;
  created_at : string;
  updated_at : string;
  file_path : option string;
  file_name : option string;
  error : option string;
  log : string
}.

(** the object literal given to [setJob]: the fields it mentions *)
Record Patch := mkPatch {
  p_status : option Status;
  p_file_path : option (option string);
  p_file_name : option (option string);
  p_error : option (option string)
}.

Definition no_patch : Patch := mkPatch None None None None.
Definition patch_status (s : Status) : Patch := mkPatch (Some s) None None None.
Definition patch_files (fp fn : option string) : Patch :=
  mkPatch None (Some fp) (Some fn) None.
Definition patch_failure (msg : string) : Patch :=
  mkPatch (Some Failed) None None (Some (Some msg)).

(** [{ ...cur, ...patch, updated_at: nowISO() }] *)
Definition spread (cur : Job) (p : Patch) (now : string) : Job :=
  {| job_id := job_id cur;
     url := url cur;
     status := default (status cur) (p_status p);
     created_at := created_at cur;
     updated_at := now;
     file_path := default (file_path cur) (p_file_path p);
     file_name := default (file_name cur) (p_file_name p);
     error := default (error cur) (p_error p);
     log := log cur |}.

(** an exception value: [e.name] and [e.message] *)
Record JsError := mkError { err_name : string; err_message : string }.

(** [new Error(msg)] *)
Definition Error (msg : string) : JsError := mkError "Error" msg.

(** [String(e?.message || e)] *)
Definition describe (e : JsError) : string :=
  if Js.truthy (err_message e) then err_message e else err_name e.

(** what [new URL(u)] exposes to the program *)
Record URL := mkURL { protocol : string; hostname : string; pathname : string }.

(** *** Paths, as [path] handles them on POSIX *)

(** the segments of a path: what stands between its separators *)
Definition segments (p : string) : list string := Js.split "/" p.

(** the segments joined by separators *)
Fixpoint unsegments (segs : list string) : string :=
  match segs with
  | [] => ""
  | [seg] => seg
  | seg :: rest => seg +:+ "/" +:+ unsegments rest
  end.

(** what [normalizeString] does with one segment, given the segments it has
    kept so far (the last one first): an empty segment and [.] are dropped,
    [..] removes the segment before it -- or is kept, above the start of a
    relative path --, any other segment is kept *)
Definition keep (allowAboveRoot : bool) (kept : list string) (seg : string)
  : list string :=
  if String.eqb seg "" || String.eqb seg "." then kept
  else if String.eqb seg ".." then
    match kept with
    | top :: below =>
        if String.eqb top ".." then (if allowAboveRoot then seg :: kept else kept)
        else below
    | [] => if allowAboveRoot then [seg] else []
    end
  else seg :: kept.

Definition normalizeString (allowAboveRoot : bool) (p : string) : string :=
  unsegments (rev (fold_left (keep allowAboveRoot) (segments p) [])).

(** [path.normalize(p)] *)
Definition normalize (p : string) : string :=
  if String.eqb p "" then "."
  else
    let isAbsolute := Js.startsWith "/" p in
    let trailingSeparator := Js.endsWith "/" p in
    let r := normalizeString (negb isAbsolute) p in
    if String.eqb r "" then
      if isAbsolute then "/" else if trailingSeparator then "./" else "."
    else
      (if isAbsolute then "/" else "") +:+ r +:+ (if trailingSeparator then "/" else "").

(** [path.join(a, b)] : the non-empty arguments joined by a separator, then
    normalised *)
Definition path_join (a b : string) : string :=
  if String.eqb a "" then (if String.eqb b "" then "." else normalize b)
  else if String.eqb b "" then normalize a
  else normalize (a +:+ "/" +:+ b).

(** [path.basename(p)] : the last segment that is not empty, trailing
    separators being ignored *)
Definition basename (p : string) : string :=
  default "" (last (filter (fun seg => Js.truthy seg) (segments p))).

(** *** The file system *)

(** the file system as the server meets it.  [files]: the regular files, in
    the order a directory listing returns them; [directories]: the
    directories; [locked]: the regular files the process may not remove;
    [unreadable]: the regular files [fs.readFileSync] fails on (no
    permission, 2 GiB or more), each with the exception it throws *)
Record Disk := mkDisk {
  files : list string;
  directories : list string;
  locked : list string;
  unreadable : list (string * JsError)
}.

Definition in_list (x : string) (l : list string) : bool :=
  existsb (String.eqb x) l.

(** [fs.statSync(p).isDirectory()] *)
Definition isDirectory (d : Disk) (p : string) : bool := in_list p (directories d).

(** [fs.statSync(p).isFile()] *)
Definition isFile (d : Disk) (p : string) : bool :=
  in_list p (files d) && negb (isDirectory d p).

(** [fs.existsSync(p)] : true of a directory as of a regular file *)
Definition existsSync (d : Disk) (p : string) : bool :=
  in_list p (files d) || isDirectory d p.

(** the paths [fs.unlinkSync] fails on although they exist: directories, and
    what the process may not remove *)
Definition undeletable (d : Disk) : list string := directories d ++ locked d.

(** [fs.unlinkSync(p)] : the disk afterwards, and whether the call returned
    ([true]) or threw ([false]) *)
Definition unlinkSync (d : Disk) (p : string) : Disk * bool :=
  if existsSync d p && negb (in_list p (undeletable d))
  then (mkDisk (filter (fun q => negb (String.eqb q p)) (files d))
          (directories d) (locked d) (unreadable d), true)
  else (d, false).

(** [try { fs.unlinkSync(p); } catch {}] *)
Definition try_unlink (d : Disk) (p : string) : Disk := fst (unlinkSync d p).

(** the exceptions [fs.readFileSync] throws for a missing file and for a
    directory *)
Definition ENOENT (p : string) : JsError :=
  Error ("ENOENT: no such file or directory, open '" +:+ p +:+ "'").

Definition EISDIR : JsError :=
  Error "EISDIR: illegal operation on a directory, read".

(** [fs.readFileSync(p)] : [None] when it returns the contents, the
    exception when it throws *)
Definition readFileSync (d : Disk) (p : string) : option JsError :=
  if negb (existsSync d p) then Some (ENOENT p)
  else if isDirectory d p then Some EISDIR
  else snd <$> List.find (fun x => String.eqb (fst x) p) (unreadable d).

(** the name of a directory entry: not empty, neither [.] nor [..] *)
Definition entry_name (f : string) : bool :=
  Js.truthy f && negb (String.eqb f ".") && negb (String.eqb f "..").

(** is [p] the path [path.join(dir, f)] of an entry [f] of [dir]? *)
Definition entry_of (dir p : string) : bool :=
  entry_name (basename p) && String.eqb (path_join dir (basename p)) p.

(** [fs.readdirSync(dir).map(f => path.join(dir, f)).filter(fp => fs.statSync(fp).isFile())] *)
Definition regular_files (d : Disk) (dir : string) : list string :=
  filter (fun p => entry_of dir p && isFile d p) (files d).

(** the environment variables the server reads at start-up *)
Record Config := mkConfig {
  TG_BOT_TOKEN : string;
  TG_CHAT_ID : string;
  YTDLP : string;
  SPOTDL : string;
  ARIA2C : string;
  FFMPEG : string;
  MAX_CONCURRENT : Z;
  AUTO_CLEANUP_MINUTES : Z;
  OUT_DIR : string
}.

Definition nl : string := String (ascii_of_nat 10) EmptyString.

(** ** URL classifier and router *)

Inductive Engine := YtDlp | Aria2 | FfmpegM3u8 | Spotdl.

Global Instance Engine_eq_dec : EqDecision Engine.
Proof. solve_decision. Defined.

(** the object [classify] returns *)
Record Class := mkClass {
  isDirect : bool;
  isM3u8 : bool;
  isSpotify : bool;
  host : string
}.

Definition direct_extensions : list string :=
  ["mp4"; "mkv"; "webm"; "mov"; "mp3"; "m4a"; "wav"; "flac"; "ogg"; "zip";
   "rar"; "7z"; "pdf"; "jpg"; "jpeg"; "png"; "webp"].

(** [/\.(mp4|mkv|...|webp)$/i] *)
Definition direct_pattern : Regex.t :=
  Regex.Seq (Regex.Chr ".")
    (Regex.Seq (Regex.one_of direct_extensions) Regex.EndOfInput).

(** the branches of [runDownload], in its order *)
Definition route (c : Class) : Engine :=
  if isDirect c then Aria2
  else if isM3u8 c then FfmpegM3u8
  else if isSpotify c then Spotdl
  else YtDlp.

(** ** Notifier *)

(** how a [fetch] ends: a response with its status and body text, or a
    rejection *)
Inductive Reply :=
| Responded (status_code : Z) (body : string)
| Rejected (e : JsError).

(** [r.ok] *)
Definition reply_ok (status_code : Z) : bool :=
  (200 <=? status_code) && (status_code <=? 299).

(** the promise of a notifier call: a request is on its way, or the call
    returned or threw before making one *)
Inductive Pending :=
| Requested
| Settled (thrown : option JsError).

(** the calls the server makes on its collaborators, in order *)
Inductive Effect :=
| SendMessage (text : string)
| SendFile (path caption : string)
| Spawn (binary : string) (args : list string)
| Unlink (path : string).

(** ** Engine adapters *)

(** the local variables of a running adapter *)
Record Proc := mkProc {
  engine : Engine;
  finalPath : string;
  stderr : string
}.

(** what an adapter's promise resolves to *)
Inductive Result :=
| SingleFile (path : string)
| FileList (paths : list string).

(** [`${code}`] : the exit code, [null] after a signal *)
Definition code_string (code : option Z) : string :=
  match code with
  | Some c => Js.of_Z c
  | None => "null"
  end.

Definition is_zero (code : option Z) : bool :=
  match code with
  | Some c => c =? 0
  | None => false
  end.

(** ** Pipeline of one job *)

(** the [await] a [processQueue] invocation is suspended at *)
Inductive Phase :=
| AwaitStart (p : Pending)
| AwaitEngine (pr : Proc)
| AwaitCount (p : Pending) (all : list string)
| AwaitItem (p : Pending) (all : list string) (sent : nat) (fp : string)
    (rest : list string)
| AwaitPlaylistDone (p : Pending) (all : list string)
| AwaitUpload (p : Pending) (filePath : string)
| AwaitDone (p : Pending) (filePath : string)
| AwaitFailure (p : Pending).

(** a suspended invocation: its [id], the [url] of the record it fetched
    when it started, and where it waits *)
Record Task := mkTask { t_id : string; t_url : string; phase : Phase }.

(** what the event loop delivers to a suspended invocation *)
Inductive TaskEvent :=
| Settles (r : Reply)
| StdoutData (s : string)
| StderrData (s : string)
| ProcError (e : JsError)
| ProcClose (code : option Z).

(** the part of the server state a pipeline works on *)
Record Store := mkStore {
  jobs : gmap string Job;
  disk : Disk;
  timers : list (Z * string);
  trace : list Effect
}.

Definition with_jobs (f : gmap string Job -> gmap string Job) (st : Store) : Store :=
  mkStore (f (jobs st)) (disk st) (timers st) (trace st).

Definition with_disk (d : Disk) (st : Store) : Store :=
  mkStore (jobs st) d (timers st) (trace st).

Definition emit (e : Effect) (st : Store) : Store :=
  mkStore (jobs st) (disk st) (timers st) (trace st ++ [e]).

(** [setTimeout(cleanup, ms)] for job [id] *)
Definition setTimeout (ms : Z) (id : string) (st : Store) : Store :=
  mkStore (jobs st) (disk st) (timers st ++ [(ms, id)]) (trace st).

Definition setJob (id : string) (p : Patch) (now : string) (st : Store) : Store :=
  match jobs st !! id with
  | None => st
  | Some cur => with_jobs (insert id (spread cur p now)) st
  end.

Definition pushLog (id : string) (s : string) (now : string) (st : Store) : Store :=
  match jobs st !! id with
  | None => st
  | Some cur =>
      with_jobs (insert id
        {| job_id := job_id cur; url := url cur; status := status cur;
           created_at := created_at cur; updated_at := now;
           file_path := file_path cur; file_name := file_name cur;
           error := error cur;
           log := Js.or_else (log cur) "" +:+ s |}) st
  end.

Section Server.

(** [new URL(u)] of the runtime: [None] when it throws *)
Context (new_URL : string -> option URL).
Context (cfg : Config).

Definition isValidUrl (u : string) : bool :=
  match new_URL u with
  | Some parsed => in_list (protocol parsed) ["http:"; "https:"]
  | None => false
  end.

(** [None] when [new URL(rawUrl)] throws *)
Definition classify (rawUrl : string) : option Class :=
  match new_URL rawUrl with
  | None => None
  | Some u =>
      let host := Js.toLowerCase (hostname u) in
      let pathname := Js.toLowerCase (pathname u) in
      Some {| isDirect := Regex.test true direct_pattern pathname;
              isM3u8 := Js.endsWith ".m3u8" pathname;
              isSpotify := Js.includes "spotify.com" host;
              host := host |}
  end.

(** [!TG_BOT_TOKEN || !TG_CHAT_ID] is false *)
Definition tg_configured : bool :=
  Js.truthy (TG_BOT_TOKEN cfg) && Js.truthy (TG_CHAT_ID cfg).

Definition tgSendMessage (text : string) : Pending :=
  if tg_configured then Requested else Settled None.

(** [tgSendFileChecked] up to its [fetch]: the file is read first, and an
    exception of [fs.readFileSync] rejects the promise before any request;
    the endpoint chosen by the extension ([sendAudio], [sendVideo],
    [sendDocument]) does not change how the call can end *)
Definition tgSendFileChecked (d : Disk) (filePath caption : string) : Pending :=
  if tg_configured then
    match readFileSync d filePath with
    | None => Requested
    | Some e => Settled (Some e)
    end
  else Settled None.

(** how the promise of a notifier call settles: [None] when it is
    fulfilled, the exception when it is rejected *)
Definition settle (what : string) (p : Pending) (r : Reply) : option JsError :=
  match p with
  | Settled thrown => thrown
  | Requested =>
      match r with
      | Rejected e => Some e
      | Responded st body =>
          if reply_ok st then None
          else Some (Error (what +:+ " failed: " +:+ Js.of_Z st +:+ " " +:+ body))
      end
  end.

Definition settle_message : Pending -> Reply -> option JsError := settle "TG sendMessage".
Definition settle_upload : Pending -> Reply -> option JsError := settle "TG upload".

Definition job_dir (id : string) : string := path_join (OUT_DIR cfg) ("job_" +:+ id).

Definition binary (e : Engine) : string :=
  match e with
  | YtDlp => YTDLP cfg
  | Aria2 => ARIA2C cfg
  | FfmpegM3u8 => FFMPEG cfg
  | Spotdl => SPOTDL cfg
  end.

Definition ffmpeg_out (id : string) : string :=
  path_join (OUT_DIR cfg) ("job_" +:+ id +:+ ".mp4").

Definition spawn_args (e : Engine) (id u : string) : list string :=
  match e with
  | YtDlp =>
      ["--no-playlist"; "-f"; "bv*+ba/best"; "--merge-output-format"; "mp4";
       "--restrict-filenames"; "-o";
       path_join (OUT_DIR cfg) ("job_" +:+ id +:+ ".%(ext)s");
       "--print"; "after_move:filepath"; u]
  | Aria2 =>
      ["--allow-overwrite=true"; "--auto-file-renaming=false"; "--continue=true";
       "--max-connection-per-server=8"; "--split=8"; "--dir"; job_dir id; u]
  | FfmpegM3u8 => ["-y"; "-i"; u; "-c"; "copy"; ffmpeg_out id]
  | Spotdl => ["download"; u; "--output"; job_dir id]
  end.

(** the [stdout] listener of [runYtDlpSingle]: the last line naming the
    output directory becomes [finalPath] *)
Definition scan_final_path (finalPath s : string) : string :=
  fold_left
    (fun acc line => if Js.includes (OUT_DIR cfg) line then line else acc)
    (filter (fun x => Js.truthy x) (map Js.trim (Js.split (ascii_of_nat 10) s)))
    finalPath.

Definition on_stdout (pr : Proc) (s : string) : Proc :=
  match engine pr with
  | YtDlp => mkProc YtDlp (scan_final_path (finalPath pr) s) (stderr pr)
  | _ => pr
  end.

(** [stderr += s] in the adapters that keep it *)
Definition on_stderr (pr : Proc) (s : string) : Proc :=
  match engine pr with
  | FfmpegM3u8 => pr
  | e => mkProc e (finalPath pr) (stderr pr +:+ s)
  end.

(** the [close] listener of [runYtDlpSingle] *)
Definition runYtDlpSingle_close (d : Disk) (pr : Proc) (code : option Z)
  : Result + JsError :=
  if is_zero code && Js.truthy (finalPath pr) && existsSync d (finalPath pr)
  then inl (SingleFile (finalPath pr))
  else inr (Error ("yt-dlp exit code " +:+ code_string code +:+ ". "
                   +:+ Js.slice_last 400 (stderr pr))).

(** the [close] listener of [runAria2Single] *)
Definition runAria2Single_close (d : Disk) (id : string) (pr : Proc)
    (code : option Z) : Result + JsError :=
  if negb (is_zero code)
  then inr (Error ("aria2c exit code " +:+ code_string code +:+ ". "
                   +:+ Js.slice_last 400 (stderr pr)))
  else match regular_files d (job_dir id) with
       | [] => inr (Error "aria2c selesai tapi file tidak ditemukan.")
       | f :: _ => inl (SingleFile f)
       end.

(** the [close] listener of [runFfmpegM3u8Single] *)
Definition runFfmpegM3u8Single_close (d : Disk) (id : string) (code : option Z)
  : Result + JsError :=
  if is_zero code && existsSync d (ffmpeg_out id)
  then inl (SingleFile (ffmpeg_out id))
  else inr (Error ("ffmpeg exit code " +:+ code_string code)).

(** the [close] listener of [runSpotdlMulti] *)
Definition runSpotdlMulti_close (d : Disk) (id : string) (pr : Proc)
    (code : option Z) : Result + JsError :=
  if negb (is_zero code)
  then inr (Error ("spotdl exit code " +:+ code_string code +:+ ". "
                   +:+ Js.slice_last 400 (stderr pr)))
  else match regular_files d (job_dir id) with
       | [] => inr (Error "spotdl selesai tapi file tidak ditemukan.")
       | fs => inl (FileList fs)
       end.

(** what the promise of the running adapter settles to when its subprocess
    closes *)
Definition on_close (d : Disk) (id : string) (pr : Proc) (code : option Z)
  : Result + JsError :=
  match engine pr with
  | YtDlp => runYtDlpSingle_close d pr code
  | Aria2 => runAria2Single_close d id pr code
  | FfmpegM3u8 => runFfmpegM3u8Single_close d id code
  | Spotdl => runSpotdlMulti_close d id pr code
  end.

(** [result.sort()] : ascending by code units *)
Definition sort (l : list string) : list string := merge_sort String.le l.

(** the [catch] block up to its [await] *)
Definition catch (now id : string) (e : JsError) (st : Store) : Store * option Phase :=
  let msg := describe e in
  let st := setJob id (patch_failure msg) now st in
  let text := "Job gagal." +:+ nl +:+ "Job: " +:+ id +:+ nl +:+ "Error: " +:+ msg in
  (emit (SendMessage text) st, Some (AwaitFailure (tgSendMessage text))).

(** [runDownload(id, job.url)] up to the spawn of the chosen engine *)
Definition runDownload (now id u : string) (st : Store) : Store * option Phase :=
  match classify u with
  | None => catch now id (mkError "TypeError" "Invalid URL") st
  | Some c =>
      let e := route c in
      (emit (Spawn (binary e) (spawn_args e id u)) st,
       Some (AwaitEngine (mkProc e "" "")))
  end.

(** one turn of [for (const fp of files)], or the code after the loop *)
Definition deliver (now id : string) (all : list string) (sent : nat)
    (rest : list string) (st : Store) : Store * option Phase :=
  let total := Js.of_nat (List.length all) in
  match rest with
  | fp :: rest' =>
      let sent := S sent in
      let caption := "(" +:+ Js.of_nat sent +:+ "/" +:+ total +:+ ")" +:+ nl
                     +:+ "Job: " +:+ id +:+ nl +:+ "File: " +:+ basename fp in
      (emit (SendFile fp caption) st,
       Some (AwaitItem (tgSendFileChecked (disk st) fp caption) all sent fp rest'))
  | [] =>
      let st := setJob id (patch_status Done) now st in
      let text := "Selesai upload playlist." +:+ nl +:+ "Job: " +:+ id +:+ nl
                  +:+ "Total: " +:+ total +:+ " files" in
      (emit (SendMessage text) st, Some (AwaitPlaylistDone (tgSendMessage text) all))
  end.

(** the code after [await runDownload(...)] up to the next [await] *)
Definition on_result (now id u : string) (r : Result) (st : Store)
  : Store * option Phase :=
  let st := setJob id (patch_status Uploading) now st in
  match r with
  | FileList result =>
      let all := sort result in
      let total := Js.of_nat (List.length all) in
      let st := setJob id (patch_files None (Some (total +:+ " files"))) now st in
      let text := "Playlist/multi-item." +:+ nl +:+ "Job: " +:+ id +:+ nl
                  +:+ "Items: " +:+ total +:+ nl +:+ "Mulai upload satu-satu..." in
      (emit (SendMessage text) st, Some (AwaitCount (tgSendMessage text) all))
  | SingleFile filePath =>
      let fileName := basename filePath in
      let st := setJob id (patch_files (Some filePath) (Some fileName)) now st in
      let caption := "Selesai download." +:+ nl +:+ "Job: " +:+ id +:+ nl
                     +:+ "File: " +:+ fileName +:+ nl +:+ "Source: " +:+ u in
      (emit (SendFile filePath caption) st,
       Some (AwaitUpload (tgSendFileChecked (disk st) filePath caption) filePath))
  end.

(** the delay given to [setTimeout] *)
Definition cleanup_delay : Z := Z.max 1 (AUTO_CLEANUP_MINUTES cfg) * 60 * 1000.

(** resumption of a suspended [processQueue] invocation: the store
    afterwards and the next suspension, [None] when the [try] or [catch]
    block has run to its end and [finally] is due.  An event that is not the
    one the invocation waits for leaves it where it is; so do the events of a
    subprocess whose promise has settled. *)
Definition task_step (now : string) (st : Store) (t : Task) (ev : TaskEvent)
  : Store * option Phase :=
  let id := t_id t in
  match phase t, ev with
  | AwaitStart p, Settles r =>
      match settle_message p r with
      | Some e => catch now id e st
      | None => runDownload now id (t_url t) st
      end
  | AwaitEngine pr, StdoutData s =>
      (pushLog id s now st, Some (AwaitEngine (on_stdout pr s)))
  | AwaitEngine pr, StderrData s =>
      (pushLog id s now st, Some (AwaitEngine (on_stderr pr s)))
  | AwaitEngine pr, ProcError e => catch now id e st
  | AwaitEngine pr, ProcClose code =>
      match on_close (disk st) id pr code with
      | inr e => catch now id e st
      | inl r => on_result now id (t_url t) r st
      end
  | AwaitCount p all, Settles r =>
      match settle_message p r with
      | Some e => catch now id e st
      | None => deliver now id all 0 all st
      end
  | AwaitItem p all sent fp rest, Settles r =>
      match settle_upload p r with
      | Some e => catch now id e st
      | None =>
          let st := with_disk (try_unlink (disk st) fp) (emit (Unlink fp) st) in
          deliver now id all sent rest st
      end
  | AwaitPlaylistDone p all, Settles r =>
      match settle_message p r with
      | Some e => catch now id e st
      | None => (st, None)
      end
  | AwaitUpload p filePath, Settles r =>
      match settle_upload p r with
      | Some e => catch now id e st
      | None =>
          let st := setJob id (patch_status Done) now st in
          let text := "Upload beres." +:+ nl +:+ "Job: " +:+ id in
          (emit (SendMessage text) st, Some (AwaitDone (tgSendMessage text) filePath))
      end
  | AwaitDone p filePath, Settles r =>
      match settle_message p r with
      | Some e => catch now id e st
      | None => (setTimeout cleanup_delay id st, None)
      end
  | AwaitFailure p, Settles r => (st, None)
  | ph, _ => (st, Some ph)
  end.

(** the callback given to [setTimeout] *)
Definition cleanup (id : string) (st : Store) : Store :=
  match jobs st !! id with
  | Some cur =>
      match file_path cur with
      | Some fp =>
          if Js.truthy fp && existsSync (disk st) fp
          then with_disk (try_unlink (disk st) fp) (emit (Unlink fp) st)
          else st
      | None => st
      end
  | None => st
  end.

(** ** Scheduler *)

Record State := mkState {
  store : Store;
  running : Z;
  queue : list string;
  immediates : nat;
  tasks : gmap nat Task;
  next_task : nat
}.

Definition with_store (st : Store) (s : State) : State :=
  mkState st (running s) (queue s) (immediates s) (tasks s) (next_task s).

(** [processQueue()] from its entry to its first [await] *)
Definition processQueue (now : string) (s : State) : State :=
  if running s >=? MAX_CONCURRENT cfg then s
  else
    match queue s with
    | [] => s
    | id :: q =>
        match jobs (store s) !! id with
        | None => mkState (store s) (running s + 1 - 1) q (immediates s) (tasks s) (next_task s)
        | Some job =>
            let st := setJob id (patch_status Downloading) now (store s) in
            let text := "Mulai download." +:+ nl +:+ "Job: " +:+ id +:+ nl
                        +:+ "URL: " +:+ url job in
            mkState (emit (SendMessage text) st) (running s + 1) q (immediates s)
              (<[next_task s := mkTask id (url job) (AwaitStart (tgSendMessage text))]> (tasks s))
              (S (next_task s))
        end
    end.

(** the [finally] block of the invocation [tid] *)
Definition finally (tid : nat) (s : State) : State :=
  mkState (store s) (running s - 1) (queue s) (S (immediates s))
    (delete tid (tasks s)) (next_task s).

(** an event reaches the suspended invocation [tid] *)
Definition resume (now : string) (tid : nat) (ev : TaskEvent) (s : State) : State :=
  match tasks s !! tid with
  | None => s
  | Some t =>
      match task_step now (store s) t ev with
      | (st, Some ph) =>
          mkState st (running s) (queue s) (immediates s)
            (<[tid := mkTask (t_id t) (t_url t) ph]> (tasks s)) (next_task s)
      | (st, None) => finally tid (with_store st s)
      end
  end.

(** ** HTTP routes *)

Inductive Response :=
| BadRequest (error_text : string)
| NotFound (error_text : string)
| Created (id : string) (status_text : string)
| JobJson (j : Job).

(** [String(req.body?.url || "").trim()] for a body whose [url] is absent
    or a string *)
Definition body_url (b : option string) : string :=
  Js.trim (Js.or_else (default "" b) "").

(** [app.post("/api/jobs", ...)] with the id [nanoid(10)] returns *)
Definition post_job (now : string) (b : option string) (id : string) (s : State)
  : State * Response :=
  let u := body_url b in
  if negb (Js.truthy u) || negb (isValidUrl u)
  then (s, BadRequest "URL tidak valid.")
  else
    let record := {| job_id := id; url := u; status := Queued;
                     created_at := now; updated_at := now;
                     file_path := None; file_name := None; error := None;
                     log := "" |} in
    (mkState (with_jobs (insert id record) (store s)) (running s)
       (queue s ++ [id]) (S (immediates s)) (tasks s) (next_task s),
     Created id "queued").

(** [app.get("/api/jobs/:id", ...)] *)
Definition get_job (id : string) (s : State) : State * Response :=
  match jobs (store s) !! id with
  | None => (s, NotFound "Job tidak ditemukan.")
  | Some job =>
      (s, JobJson {| job_id := job_id job; url := url job; status := status job;
                     created_at := created_at job; updated_at := updated_at job;
                     file_path := file_path job; file_name := file_name job;
                     error := error job;
                     log := Js.slice_last (Z.to_nat 8000) (Js.or_else (log job) "") |})
  end.

(** ** The event loop *)

Inductive Event :=
| HttpPost (body : option string) (fresh_id : string)
| HttpGet (id : string)
| Immediate
| Resume (tid : nat) (ev : TaskEvent)
| TimerFires (n : nat)
| FileWritten (path : string).

(** a subprocess creates the file [p], when nothing is there yet *)
Definition write_file (p : string) (d : Disk) : Disk :=
  if existsSync d p then d
  else mkDisk (files d ++ [p]) (directories d) (locked d) (unreadable d).

(** one turn of the event loop; [now] is what [nowISO()] returns during
    it *)
Definition step (now : string) (s : State) (ev : Event) : State :=
  match ev with
  | HttpPost b id => fst (post_job now b id s)
  | HttpGet id => fst (get_job id s)
  | Immediate =>
      match immediates s with
      | O => s
      | S n =>
          processQueue now
            (mkState (store s) (running s) (queue s) n (tasks s) (next_task s))
      end
  | Resume tid ev => resume now tid ev s
  | TimerFires n =>
      match timers (store s) !! n with
      | None => s
      | Some (_, id) =>
          let st := store s in
          with_store
            (cleanup id (mkStore (jobs st) (disk st) (delete n (timers st)) (trace st))) s
      end
  | FileWritten p => with_store (with_disk (write_file p (disk (store s))) (store s)) s
  end.

(** the server after a sequence of events, each with the clock reading at
    which it is handled *)
Definition run (s : State) (evs : list (string * Event)) : State :=
  fold_left (fun s e => step (fst e) s (snd e)) evs s.

End Server.

(** the state when [app.listen] is called, for a given output directory *)
Definition initial (d : Disk) : State :=
  mkState (mkStore ∅ d [] []) 0 [] 0 ∅ 0.

(** ** The earlier single-engine version, [server.js]

    Its store helpers, scheduler and routes are those above; its pipeline
    knows one engine and one kind of result. *)

Module ServerJs.

(** the end of a synchronous segment: the pipeline goes on, or an
    exception nobody catches ends the process *)
Inductive Outcome :=
| Next (st : Store) (ph : option Phase)
| Uncaught (e : JsError).

Section Pipeline.

Context (cfg : Config).

(** [tgSendDocument] up to its [fetch] *)
Definition tgSendDocument (d : Disk) (filePath caption : string) : Pending :=
  tgSendFileChecked cfg d filePath caption.

Definition settle_document : Pending -> Reply -> option JsError :=
  settle "TG sendDocument".

(** the [close] listener of [runYtDlp] *)
Definition runYtDlp_close (d : Disk) (pr : Proc) (code : option Z) : string + JsError :=
  if is_zero code && Js.truthy (finalPath pr) && existsSync d (finalPath pr)
  then inl (finalPath pr)
  else inr (Error ("yt-dlp exit code " +:+ code_string code +:+ ". finalPath="
                   +:+ Js.or_else (finalPath pr) "(none)")).

Definition lift (r : Store * option Phase) : Outcome := Next (fst r) (snd r).

Definition task_step (now : string) (st : Store) (t : Task) (ev : TaskEvent)
  : Outcome :=
  let id := t_id t in
  match phase t, ev with
  | AwaitStart p, Settles r =>
      match settle_message p r with
      | Some e => lift (catch cfg now id e st)
      | None =>
          Next (emit (Spawn "yt-dlp" (spawn_args cfg YtDlp id (t_url t))) st)
               (Some (AwaitEngine (mkProc YtDlp "" "")))
      end
  | AwaitEngine pr, StdoutData s =>
      Next (pushLog id s now st)
           (Some (AwaitEngine (mkProc YtDlp (scan_final_path cfg (finalPath pr) s) "")))
  | AwaitEngine pr, StderrData s => Next (pushLog id s now st) (Some (AwaitEngine pr))
  | AwaitEngine pr, ProcError e => Uncaught e
  | AwaitEngine pr, ProcClose code =>
      match runYtDlp_close (disk st) pr code with
      | inr e => lift (catch cfg now id e st)
      | inl filePath =>
          let fileName := basename filePath in
          let st := setJob id (mkPatch (Some Uploading) (Some (Some filePath))
                                 (Some (Some fileName)) None) now st in
          let caption := "Selesai download." +:+ nl +:+ "Job: " +:+ id +:+ nl
                         +:+ "File: " +:+ fileName +:+ nl +:+ "Source: " +:+ t_url t in
          Next (emit (SendFile filePath caption) st)
               (Some (AwaitUpload (tgSendDocument (disk st) filePath caption) filePath))
      end
  | AwaitUpload p filePath, Settles r =>
      match settle_document p r with
      | Some e => lift (catch cfg now id e st)
      | None =>
          let st := setJob id (patch_status Done) now st in
          let text := "Upload ke Telegram beres." +:+ nl +:+ "Job: " +:+ id in
          Next (emit (SendMessage text) st)
               (Some (AwaitDone (tgSendMessage cfg text) filePath))
      end
  | AwaitDone p filePath, Settles r =>
      match settle_message p r with
      | Some e => lift (catch cfg now id e st)
      | None => Next (setTimeout (cleanup_delay cfg) id st) None
      end
  | AwaitFailure p, Settles r => Next st None
  | ph, _ => Next st (Some ph)
  end.

End Pipeline.

End ServerJs.

(** ** The registry as the runtime holds it

    The [jobs] map stores references to record objects.  No statement of the
    source assigns to a field of a record: every write allocates a new
    object and stores its reference, which is why the state above keeps the
    records by value.  The status route is modelled here on the references
    themselves. *)

Module Refs.

(** the objects allocated so far, and the reference each id maps to *)
Record Registry := mkRegistry {
  heap : list Job;
  refs : gmap string nat
}.

(** the record an id stands for *)
Definition view (r : Registry) (id : string) : option Job :=
  match refs r !! id with
  | Some l => heap r !! l
  | None => None
  end.

(** an object literal: a new object at the next free address *)
Definition alloc (o : Job) (r : Registry) : Registry * nat :=
  (mkRegistry (heap r ++ [o]) (refs r), List.length (heap r)).

(** [app.get("/api/jobs/:id", ...)] : the registry afterwards and the object
    handed to [res.json] *)
Definition get_job (id : string) (r : Registry) : Registry * Response :=
  match refs r !! id with
  | None => (r, NotFound "Job tidak ditemukan.")
  | Some l =>
      match heap r !! l with
      | None => (r, NotFound "Job tidak ditemukan.")
      | Some job =>
          let (r', trimmed) :=
            alloc {| job_id := job_id job; url := url job; status := status job;
                     created_at := created_at job; updated_at := updated_at job;
                     file_path := file_path job; file_name := file_name job;
                     error := error job;
                     log := Js.slice_last (Z.to_nat 8000) (Js.or_else (log job) "") |} r in
          (r', match heap r' !! trimmed with
               | Some o => JobJson o
               | None => NotFound "Job tidak ditemukan."
               end)
      end
  end.

(** any number of status requests, one after the other *)
Definition reads (ids : list string) (r : Registry) : Registry :=
  fold_left (fun r id => fst (get_job id r)) ids r.

End Refs.

(** ** Executions *)

(** [nanoid(10)] returns an id no record has yet *)
Definition admissible (s : State) (ev : Event) : Prop :=
  match ev with
  | HttpPost _ id => jobs (store s) !! id = None
  | _ => True
  end.

Inductive reachable (new_URL : string -> option URL) (cfg : Config) (d : Disk)
  : State -> Prop :=
| reachable_initial : reachable new_URL cfg d (initial d)
| reachable_step s now ev :
    reachable new_URL cfg d s -> admissible s ev ->
    reachable new_URL cfg d (step new_URL cfg now s ev).

(** one invocation followed through the events it receives, up to the end
    of its [try] or [catch] block *)
Fixpoint run_task (new_URL : string -> option URL) (cfg : Config)
    (st : Store) (t : Task) (evs : list (string * TaskEvent))
  : Store * option Phase :=
  match evs with
  | [] => (st, Some (phase t))
  | (now, ev) :: evs' =>
      match task_step new_URL cfg now st t ev with
      | (st', Some ph) => run_task new_URL cfg st' (mkTask (t_id t) (t_url t) ph) evs'
      | (st', None) => (st', None)
      end
  end.

(** the invocation of job [id] goes on from the end of a segment *)
Definition continue (new_URL : string -> option URL) (cfg : Config)
    (id u : string) (x : Store * option Phase) (evs : list (string * TaskEvent))
  : Store * option Phase :=
  match x with
  | (st, Some ph) => run_task new_URL cfg st (mkTask id u ph) evs
  | (st, None) => (st, None)
  end.

(** ** Vocabulary of the properties *)

Definition in_flight (j : Job) : bool :=
  match status j with
  | Downloading | Uploading => true
  | _ => false
  end.

(** the number of records whose status is [downloading] or [uploading] *)
Definition in_flight_count (s : State) : nat :=
  size (filter (fun kv => in_flight kv.2 = true) (jobs (store s))).

Definition terminal (st : Status) : Prop := st = Done \/ st = Failed.

(** [file_name] is an item-count summary and [file_path] is null *)
Definition multi_summary (j : Job) : Prop :=
  file_path j = None /\ exists n : nat, file_name j = Some (Js.of_nat n +:+ " files").

Definition single_file (j : Job) : Prop := is_Some (file_path j).

Definition failure (j : Job) : Prop := is_Some (error j).

Definition exactly_one (A B C : Prop) : Prop :=
  (A /\ ~ B /\ ~ C) \/ (~ A /\ B /\ ~ C) \/ (~ A /\ ~ B /\ C).

(** the status a record has while an invocation waits in a phase *)
Definition phase_status (ph : Phase) : Status :=
  match ph with
  | AwaitStart _ | AwaitEngine _ => Downloading
  | AwaitCount _ _ | AwaitItem _ _ _ _ _ | AwaitUpload _ _ => Uploading
  | AwaitPlaylistDone _ _ | AwaitDone _ _ => Done
  | AwaitFailure _ => Failed
  end.

(** the phases in which the invocation has not yet written a terminal
    status *)
Definition live (ph : Phase) : bool :=
  match ph with
  | AwaitStart _ | AwaitEngine _ | AwaitCount _ _ | AwaitItem _ _ _ _ _
  | AwaitUpload _ _ => true
  | AwaitPlaylistDone _ _ | AwaitDone _ _ | AwaitFailure _ => false
  end.

(** a segment that leaves the status and the result fields of a record as
    they are *)
Definition keeps (j j' : Job) : Prop :=
  status j' = status j /\ file_path j' = file_path j /\
  file_name j' = file_name j /\ error j' = error j /\
  job_id j' = job_id j /\ url j' = url j.

(** a segment that writes the status of the phase it suspends in *)
Definition writes (ph : Phase) (j j' : Job) : Prop :=
  status j' = phase_status ph /\ job_id j' = job_id j /\ url j' = url j /\
  match ph with
  | AwaitCount _ all =>
      file_path j' = None /\
      file_name j' = Some (Js.of_nat (List.length all) +:+ " files") /\
      error j' = error j
  | AwaitUpload _ fp =>
      file_path j' = Some fp /\ file_name j' = Some (basename fp) /\
      error j' = error j
  | AwaitPlaylistDone _ _ | AwaitDone _ _ =>
      file_path j' = file_path j /\ file_name j' = file_name j /\
      error j' = error j
  | AwaitFailure _ =>
      file_path j' = file_path j /\ file_name j' = file_name j /\
      is_Some (error j')
  | AwaitStart _ | AwaitEngine _ | AwaitItem _ _ _ _ _ => False
  end.

(** the status a record must have had for a write to lead to a phase *)
Definition follows (from to : Phase) : Prop :=
  match to with
  | AwaitCount _ _ | AwaitUpload _ _ => phase_status from = Downloading
  | AwaitPlaylistDone _ _ | AwaitDone _ _ => phase_status from = Uploading
  | _ => True
  end.

(** what one resumption of the invocation [t] does to the records *)
Definition record_step (st : Store) (t : Task) (st' : Store) (next : option Phase)
  : Prop :=
  (forall id, id <> t_id t -> jobs st' !! id = jobs st !! id) /\
  (jobs st !! t_id t = None -> jobs st' !! t_id t = None) /\
  (forall j, jobs st !! t_id t = Some j ->
     exists j', jobs st' !! t_id t = Some j' /\
       ((keeps j j' /\
         match next with
         | Some ph => phase_status ph = phase_status (phase t) /\ live ph = live (phase t)
         | None => live (phase t) = false
         end) \/
        (exists ph, next = Some ph /\ writes ph j j' /\ follows (phase t) ph))).

(** the fields of a record agree with its status *)
Definition job_ok (j : Job) : Prop :=
  match status j with
  | Queued | Downloading => file_path j = None /\ file_name j = None /\ error j = None
  | Uploading | Done => error j = None /\ (single_file j \/ multi_summary j)
  | Failed => failure j
  end.

(** the concurrency gate *)
Record gate_inv (cfg : Config) (s : State) : Prop := {
  gate_running : running s = Z.of_nat (size (tasks s));
  gate_ceiling : running s <= MAX_CONCURRENT cfg;
  gate_fresh : forall tid t, tasks s !! tid = Some t -> (tid < next_task s)%nat;
  gate_live : forall id j,
    jobs (store s) !! id = Some j -> in_flight j = true ->
    exists tid t, tasks s !! tid = Some t /\ t_id t = id /\ live (phase t) = true
}.

(** the life cycle of the records *)
Record life_inv (s : State) : Prop := {
  life_ok : forall id j, jobs (store s) !! id = Some j -> job_ok j /\ job_id j = id;
  life_task : forall tid t,
    tasks s !! tid = Some t ->
    exists j, jobs (store s) !! t_id t = Some j /\ status j = phase_status (phase t)
              /\ url j = t_url t;
  life_unique : forall tid1 tid2 t1 t2,
    tasks s !! tid1 = Some t1 -> tasks s !! tid2 = Some t2 ->
    t_id t1 = t_id t2 -> tid1 = tid2;
  life_queue_nodup : NoDup (queue s);
  life_queued : forall id,
    id ∈ queue s -> exists j, jobs (store s) !! id = Some j /\ status j = Queued
}.

Definition is_spawn (e : Effect) : bool :=
  match e with
  | Spawn _ _ => true
  | _ => false
  end.

(** the engines started so far *)
Definition spawned (st : Store) : list Effect := List.filter is_spawn (trace st).

(** what the pipeline does with the files of a result: the call of
    [tgSendFileChecked] on a file, the call of [fs.unlinkSync] on it *)
Inductive FileEvent :=
| Upload (path : string)
| UnlinkCall (path : string).

Definition file_event (e : Effect) : option FileEvent :=
  match e with
  | SendFile p _ => Some (Upload p)
  | Unlink p => Some (UnlinkCall p)
  | _ => None
  end.

(** the uploads and deletions among the calls made so far, in order *)
Definition file_events (tr : list Effect) : list FileEvent := omap file_event tr.

(** a reply with a status between 200 and 299 *)
Definition accepted (r : Reply) : Prop :=
  match r with
  | Responded c _ => reply_ok c = true
  | Rejected _ => False
  end.

(** the settlements of the notifier calls of one invocation, as events *)
Definition replies (rs : list (string * Reply)) : list (string * TaskEvent) :=
  (fun x => (x.1, Settles x.2)) <$> rs.

(** the phases of the delivery of a multi-file result, and the failure
    they may end in *)
Definition multi_phase (ph : Phase) : bool :=
  match ph with
  | AwaitCount _ _ | AwaitItem _ _ _ _ _ | AwaitPlaylistDone _ _ | AwaitFailure _ => true
  | _ => false
  end.

(** a string [toLowerCase] leaves as it is *)
Definition lowered (s : string) : Prop := Js.toLowerCase s = s.

(** the sentences of the specification on routing and on the submitted
    URL, word for word *)
Module Spec.

(** the code units below 256 that count as white space: the tab, the line
    feed, the vertical tab, the form feed, the carriage return, the space
    and the no-break space *)
Definition white_space : list nat := [9; 10; 11; 12; 13; 32; 160]%nat.

Definition white (c : ascii) : bool :=
  existsb (Nat.eqb (nat_of_ascii c)) white_space.

(** the string consists of white space only *)
Fixpoint blank (s : string) : bool :=
  match s with
  | EmptyString => true
  | String c s' => white c && blank s'
  end.

Definition first_char (s : string) : option ascii :=
  match s with
  | EmptyString => None
  | String c _ => Some c
  end.

Fixpoint last_char (s : string) : option ascii :=
  match s with
  | EmptyString => None
  | String c EmptyString => Some c
  | String _ s' => last_char s'
  end.

(** [u] is [raw] without the white space around it: white space stands
    before and after it in [raw], and [u] neither starts nor ends with
    white space *)
Definition trimmed (raw u : string) : Prop :=
  (exists l r, raw = l +:+ u +:+ r /\ blank l = true /\ blank r = true) /\
  (forall c, first_char u = Some c -> white c = false) /\
  (forall c, last_char u = Some c -> white c = false).

Inductive Tag := Direct | StreamManifest | MusicService | Generic.

(** the path ends in a known direct-download extension *)
Definition ends_in_extension (path : string) : bool :=
  existsb (fun e => Js.endsWith ("." +:+ e) path) direct_extensions.

(** the host belongs to the domain: it is the domain or one of its
    subdomains *)
Definition in_domain (domain h : string) : bool :=
  String.eqb h domain || Js.endsWith ("." +:+ domain) h.

Definition tag (u : URL) : Tag :=
  let path := Js.toLowerCase (pathname u) in
  if ends_in_extension path then Direct
  else if Js.endsWith ".m3u8" path then StreamManifest
  else if in_domain "spotify.com" (Js.toLowerCase (hostname u)) then MusicService
  else Generic.

Definition adapter (t : Tag) : Engine :=
  match t with
  | Direct => Aria2
  | StreamManifest => FfmpegM3u8
  | MusicService => Spotdl
  | Generic => YtDlp
  end.

End Spec.

(** ** Vocabulary of the further properties *)

(** the edges of the status graph the pipeline can take in one step *)
Definition transition (a b : Status) : Prop :=
  a = b \/
  match a, b with
  | Queued, Downloading
  | Downloading, Uploading | Downloading, Failed
  | Uploading, Done | Uploading, Failed
  | Done, Failed => True
  | _, _ => False
  end.

(** a later version of a record: the same id, URL and creation time, and a
    log that starts with the earlier one *)
Definition extends (j j' : Job) : Prop :=
  job_id j' = job_id j /\ url j' = url j /\ created_at j' = created_at j /\
  exists more, log j' = log j +:+ more.

(** every record of [st] has a later version in [st'] *)
Definition grows (st st' : Store) : Prop :=
  forall id j, jobs st !! id = Some j ->
    exists j', jobs st' !! id = Some j' /\ extends j j'.

(** a sequence of events in which [nanoid] always returns an unused id *)
Fixpoint admissible_run (new_URL : string -> option URL) (cfg : Config)
    (s : State) (evs : list (string * Event)) : Prop :=
  match evs with
  | [] => True
  | (now, ev) :: evs' =>
      admissible s ev /\ admissible_run new_URL cfg (step new_URL cfg now s ev) evs'
  end.

(** the create route accepts the body *)
Definition accepts (new_URL : string -> option URL) (b : option string) : bool :=
  Js.truthy (body_url b) && isValidUrl new_URL (body_url b).

(** the ids of the accepted submissions among the events, in order *)
Definition submitted (new_URL : string -> option URL)
    (evs : list (string * Event)) : list string :=
  omap (fun e => match e.2 with
                 | HttpPost b id => if accepts new_URL b then Some id else None
                 | _ => None
                 end) evs.

(** what the scheduler keeps whatever ids [nanoid] returns *)
Record sched_inv (new_URL : string -> option URL) (cfg : Config) (s : State)
  : Prop := {
  sched_queued : forall id, id ∈ queue s -> is_Some (jobs (store s) !! id);
  sched_task : forall tid t,
    tasks s !! tid = Some t ->
    is_Some (jobs (store s) !! t_id t) /\ isValidUrl new_URL (t_url t) = true;
  sched_valid : forall id j,
    jobs (store s) !! id = Some j -> isValidUrl new_URL (url j) = true;
  sched_wake :
    Z.min (Z.of_nat (List.length (queue s))) (MAX_CONCURRENT cfg - running s)
    <= Z.of_nat (immediates s)
}.

(** [s.split("\n").map(x => x.trim()).filter(Boolean)] *)
Definition lines_of (s : string) : list string :=
  filter (fun x => Js.truthy x) (map Js.trim (Js.split (ascii_of_nat 10) s)).

(** the settlements that still end an invocation whose engine has closed,
    whatever they are *)
Definition patience (ph : Phase) : nat :=
  match ph with
  | AwaitStart _ | AwaitEngine _ => 0
  | AwaitCount _ all => List.length all + 3
  | AwaitItem _ _ _ _ rest => List.length rest + 3
  | AwaitUpload _ _ => 3
  | AwaitPlaylistDone _ _ | AwaitDone _ _ => 2
  | AwaitFailure _ => 1
  end.

(** the invocation is past its engine *)
Definition engine_done (ph : Phase) : bool :=
  match ph with
  | AwaitStart _ | AwaitEngine _ => false
  | _ => true
  end.

Definition is_settlement (e : string * TaskEvent) : Prop :=
  match e.2 with
  | Settles _ => True
  | _ => False
  end.

(** the invocation has not yet passed its starting notification *)
Definition before_start (ph : Phase) : bool :=
  match ph with
  | AwaitStart _ => true
  | _ => false
  end.

(** [{ ...p1, ...p2 }] *)
Definition merge_patch (p1 p2 : Patch) : Patch :=
  {| p_status := match p_status p2 with Some x => Some x | None => p_status p1 end;
     p_file_path := match p_file_path p2 with Some x => Some x | None => p_file_path p1 end;
     p_file_name := match p_file_name p2 with Some x => Some x | None => p_file_name p1 end;
     p_error := match p_error p2 with Some x => Some x | None => p_error p1 end |}.

(** every record of [st'] is a record of [st] or was written at [now] *)
Definition stamps (now : string) (st st' : Store) : Prop :=
  forall id j', jobs st' !! id = Some j' ->
    jobs st !! id = Some j' \/ updated_at j' = now.

(** the chunks of output, in the order they arrived, as one string *)
Definition joined (chunks : list string) : string :=
  fold_right String.append "" chunks.

(** the string has a separator in it *)
Fixpoint has_slash (s : string) : bool :=
  match s with
  | EmptyString => false
  | String c s' => Ascii.eqb c "/" || has_slash s'
  end.

(** a name a directory entry can have *)
Definition plain (f : string) : Prop :=
  entry_name f = true /\ Js.includes "/" f = false.

(** the segments, each followed by a separator *)
Fixpoint directory_prefix (segs : list string) : string :=
  match segs with
  | [] => ""
  | seg :: rest => seg +:+ "/" +:+ directory_prefix rest
  end.

(** what stands before the name in [path.join(a, name)]: the root of an
    absolute [a], and the segments normalisation keeps of [a] *)
Definition normal_prefix (a : string) : string :=
  (if Js.startsWith "/" a then "/" else "")
  +:+ directory_prefix
        (rev (fold_left (keep (negb (Js.startsWith "/" a))) (segments a) [])).

(** the segments normalisation keeps, the last one first: names, above
    which -- in a relative path only -- stand the [..] that lead out of it *)
Fixpoint canonical (allowAboveRoot : bool) (kept : list string) : Prop :=
  match kept with
  | [] => True
  | top :: below =>
      has_slash top = false /\
      ((top = ".." /\ allowAboveRoot = true /\ Forall (fun s => s = "..") below) \/
       (entry_name top = true /\ canonical allowAboveRoot below))
  end.

(** ** A runtime and a configuration for the examples *)

Module Sample.

Fixpoint until_colon (acc s : string) : option (string * string) :=
  match s with
  | String ":" (String "/" (String "/" rest)) => Some (String.rev acc, rest)
  | String c s' => until_colon (String c acc) s'
  | EmptyString => None
  end.

Fixpoint until_slash (acc s : string) : string * string :=
  match s with
  | String "/" _ => (String.rev acc, s)
  | String c s' => until_slash (String c acc) s'
  | EmptyString => (String.rev acc, "/")
  end.

(** a parser for URLs of the shape [scheme://host/path] *)
Definition new_URL (u : string) : option URL :=
  match until_colon "" u with
  | Some (scheme, rest) =>
      if Js.truthy scheme && negb (Js.includes " " u) then
        let (h, p) := until_slash "" rest in
        Some (mkURL (scheme +:+ ":") (Js.toLowerCase h) p)
      else None
  | None => None
  end.

Definition cfg : Config :=
  {| TG_BOT_TOKEN := "123:abc"; TG_CHAT_ID := "42";
     YTDLP := "yt-dlp"; SPOTDL := "spotdl"; ARIA2C := "aria2c"; FFMPEG := "ffmpeg";
     MAX_CONCURRENT := 1; AUTO_CLEANUP_MINUTES := 60;
     OUT_DIR := "/srv/downloads" |}.

Definition empty_disk : Disk := mkDisk [] [] [] [].

Definition ok : Reply := Responded 200 "{}".
Definition refused : Reply := Responded 500 "boom".

Definition job_of (s : State) (id : string) : option Job := jobs (store s) !! id.

Definition exec (d : Disk) (evs : list (string * Event)) : State :=
  run new_URL cfg (initial d) evs.

(** a job for a direct file has been admitted and waits for the reply to
    its starting notification *)
Definition admitted (u : string) : State :=
  exec empty_disk [("t0", HttpPost (Some u) "j1"); ("t1", Immediate)].

(** ... its engine runs *)
Definition downloading (u : string) : State :=
  step new_URL cfg "t2" (admitted u) (Resume 0 (Settles ok)).

(** the output directory holds the two tracks of a playlist job *)
Definition track_a : string := "/srv/downloads/job_j1/a.mp3".
Definition track_b : string := "/srv/downloads/job_j1/b.mp3".
Definition playlist_url : string := "https://open.spotify.com/playlist/abc".

(** ... and the music-service engine of the job runs; the listed tracks may
    not be removed *)
Definition playlist (locked : list string) : State :=
  exec (mkDisk [track_b; track_a] [] locked [])
    [("t0", HttpPost (Some playlist_url) "j1"); ("t1", Immediate);
     ("t2", Resume 0 (Settles ok))].

(** ... the engine has written its file and closed with code 0: the file is
    being uploaded *)
Definition uploading (u : string) : State :=
  run new_URL cfg (downloading u)
    [("t3", FileWritten "/srv/downloads/job_j1/a.mp4");
     ("t4", Resume 0 (ProcClose (Some 0)))].

(** ... the file has been uploaded and the job is [done]: the completion
    notification is on its way *)
Definition delivered (u : string) : State :=
  step new_URL cfg "t5" (uploading u) (Resume 0 (Settles ok)).

(** the configuration without the notifier's credentials *)
Definition cfg_off : Config :=
  {| TG_BOT_TOKEN := ""; TG_CHAT_ID := "42";
     YTDLP := "yt-dlp"; SPOTDL := "spotdl"; ARIA2C := "aria2c"; FFMPEG := "ffmpeg";
     MAX_CONCURRENT := 1; AUTO_CLEANUP_MINUTES := 60;
     OUT_DIR := "/srv/downloads" |}.

(** the output directory after a direct download *)
Definition one_file : Disk := mkDisk ["/srv/downloads/job_j1/a.mp4"] [] [] [].

End Sample.

(** * Properties *)

(** ** Strings *)

Section StringFacts.

Local Open Scope nat_scope.

Lemma app_cons (a : ascii) (p r : string) : String a p +:+ r = String a (p +:+ r).
Proof. reflexivity. Qed.

Lemma app_nil (r : string) : "" +:+ r = r.
Proof. reflexivity. Qed.

Lemma startsWith_app (p s : string) : Js.startsWith p (p +:+ s) = true.
Proof.
  induction p as [|a p IH]; [done|].
  rewrite app_cons. simpl. by rewrite Ascii.eqb_refl.
Qed.

Lemma startsWith_spec (p s : string) :
  Js.startsWith p s = true <-> exists r, s = p +:+ r.
Proof.
  revert s; induction p as [|a p IH]; intros s; simpl.
  - split; [intros _; by exists s | done].
  - destruct s as [|b s]; [split; [done | intros [r Hr]; discriminate]|].
    destruct (Ascii.eqb_spec a b) as [->|Hne].
    + rewrite IH. split; intros [r Hr]; exists r; rewrite app_cons in *; congruence.
    + split; [done|]. intros [r Hr]. rewrite app_cons in Hr. congruence.
Qed.

Lemma includes_here (p s : string) : Js.startsWith p s = true -> Js.includes p s = true.
Proof. intros H. destruct s; simpl in *; rewrite H; done. Qed.

Lemma includes_app (a p b : string) : Js.includes p (a +:+ p +:+ b) = true.
Proof.
  induction a as [|c a IH].
  - rewrite app_nil. apply includes_here, startsWith_app.
  - rewrite app_cons. simpl. rewrite IH. apply orb_true_r.
Qed.

Lemma length_drop (n : nat) (s : string) :
  String.length (Js.drop n s) = String.length s - n.
Proof.
  revert s; induction n as [|n IH]; intros s; simpl; [lia|].
  destruct s; simpl; [done | apply IH].
Qed.

Lemma drop_all (n : nat) (s : string) : String.length s <= n -> Js.drop n s = "".
Proof.
  revert s; induction n as [|n IH]; intros [|c s]; simpl; try done; try lia.
  intros ?. apply IH. lia.
Qed.

Lemma endsWith_spec (p s : string) :
  Js.endsWith p s = true <-> exists i, Js.drop i s = p.
Proof.
  unfold Js.endsWith. rewrite andb_true_iff, Nat.leb_le, String.eqb_eq. split.
  - intros [_ H]. eauto.
  - intros [i Hi].
    assert (Hlen : String.length p = String.length s - i) by (rewrite <- Hi; apply length_drop).
    split; [lia|].
    destruct (decide (i <= String.length s)) as [Hle|Hgt].
    + replace (String.length s - String.length p) with i by lia. done.
    + rewrite drop_all in Hi by lia. subst p. simpl.
      rewrite Nat.sub_0_r. apply drop_all. lia.
Qed.

Lemma test_spec (ic : bool) (r : Regex.t) (s : string) :
  Regex.test ic r s = true <->
  exists i, Regex.matches ic r (Js.drop i s) (fun _ => true) = true.
Proof.
  induction s as [|c s IH]; simpl.
  - rewrite orb_false_r. split; [intros H; by exists 0|].
    intros [i Hi]. by destruct i.
  - rewrite orb_true_iff, IH. split.
    + intros [H|[i Hi]]; [by exists 0 | by exists (S i)].
    + intros [[|i] Hi]; [by left | right; by exists i].
Qed.

Lemma lower_char_idem (c : ascii) : Js.lower_char (Js.lower_char c) = Js.lower_char c.
Proof. by destruct c as [[] [] [] [] [] [] [] []]. Qed.

Lemma lowered_toLowerCase (s : string) : lowered (Js.toLowerCase s).
Proof.
  unfold lowered. induction s as [|c s IH]; simpl; [done|].
  by rewrite lower_char_idem, IH.
Qed.

Lemma lowered_drop (i : nat) (s : string) : lowered s -> lowered (Js.drop i s).
Proof.
  unfold lowered. revert s; induction i as [|i IH]; intros s; simpl; [done|].
  destruct s as [|c s]; simpl; [done|]. intros H. apply IH. congruence.
Qed.

Lemma matches_word (w s : string) (k : string -> bool) :
  lowered w -> lowered s ->
  Regex.matches true (Regex.word w) s k = true <->
  exists r, s = w +:+ r /\ k r = true.
Proof.
  unfold lowered. revert s; induction w as [|a w IH]; intros s Hw Hs; simpl.
  - split; [intros H; by exists s | by intros [r [-> H]]].
  - simpl in Hw. injection Hw as Ha Hw.
    destruct s as [|b s]; [split; [done | by intros [r [? _]]]|].
    simpl in Hs. injection Hs as Hb Hs.
    unfold Regex.same_char. rewrite Ha, Hb.
    destruct (Ascii.eqb_spec b a) as [->|Hne].
    + rewrite IH by done. split; intros [r [Hr Hk]]; exists r; split; try done.
      * by rewrite app_cons, Hr.
      * rewrite app_cons in Hr. by injection Hr.
    + split; [done|]. intros [r [Hr _]]. rewrite app_cons in Hr.
      injection Hr as ? ?. congruence.
Qed.

Lemma matches_one_of (ws : list string) (s : string) (k : string -> bool) :
  Forall lowered ws -> lowered s ->
  Regex.matches true (Regex.one_of ws) s k = true <->
  exists w r, In w ws /\ s = w +:+ r /\ k r = true.
Proof.
  intros Hws Hs. induction Hws as [|w ws Hw Hws IH]; simpl.
  - split; [done | by intros (? & ? & [] & _)].
  - rewrite orb_true_iff, matches_word, IH by done. split.
    + intros [(r & ? & ?)|(w' & r & ? & ? & ?)]; [exists w, r | exists w', r]; auto.
    + intros (w' & r & [<-|Hin] & ? & ?); [left; eauto | right; eauto].
Qed.

End StringFacts.

(** ** Classifier and router *)

Lemma app_empty_r (s : string) : s +:+ "" = s.
Proof. induction s as [|c s IH]; [done|]. by rewrite app_cons, IH. Qed.

Lemma string_app_assoc (a b c : string) : (a +:+ b) +:+ c = a +:+ b +:+ c.
Proof. induction a as [|x a IH]; [done|]. by rewrite !app_cons, IH. Qed.

Lemma direct_extensions_lowered : Forall lowered direct_extensions.
Proof. repeat constructor. Qed.

Lemma matches_direct_pattern (t : string) :
  lowered t ->
  Regex.matches true direct_pattern t (fun _ => true) = true <->
  exists w, In w direct_extensions /\ t = "." +:+ w.
Proof.
  intros Ht. unfold direct_pattern. cbn [Regex.matches].
  destruct t as [|a t].
  { split; [done | by intros (w & _ & ?)]. }
  assert (Ha : Js.lower_char a = a) by (unfold lowered in Ht; simpl in Ht; congruence).
  assert (Ht' : lowered t) by (unfold lowered in *; simpl in Ht; congruence).
  unfold Regex.same_char. rewrite Ha. change (Js.lower_char ".") with "."%char.
  destruct (Ascii.eqb_spec a ".") as [->|Hne].
  - rewrite matches_one_of by auto using direct_extensions_lowered. split.
    + intros (w & r & Hin & -> & Hr). exists w. split; [done|].
      destruct r; [|done]. by rewrite app_empty_r.
    + intros (w & Hin & Hw). exists w, "". split; [done|].
      rewrite app_empty_r. split; [|done].
      change ("." +:+ w) with (String "." w) in Hw. congruence.
  - split; [done|]. intros (w & _ & Hw).
    change ("." +:+ w) with (String "." w) in Hw. congruence.
Qed.

Lemma direct_pattern_spec (s : string) :
  lowered s -> Regex.test true direct_pattern s = Spec.ends_in_extension s.
Proof.
  intros Hs. apply eq_true_iff_eq.
  rewrite test_spec. unfold Spec.ends_in_extension. rewrite existsb_exists. split.
  - intros [i Hi]. apply matches_direct_pattern in Hi; [|by apply lowered_drop].
    destruct Hi as (w & Hin & Hw). exists w. split; [done|].
    apply endsWith_spec. eauto.
  - intros (w & Hin & Hw). apply endsWith_spec in Hw as [i Hi]. exists i.
    apply matches_direct_pattern; [by apply lowered_drop | eauto].
Qed.

Lemma includes_drop (p s : string) (i : nat) :
  Js.includes p (Js.drop i s) = true -> Js.includes p s = true.
Proof.
  revert s; induction i as [|i IH]; intros s; [done|].
  destruct s as [|c s]; [done|]. intros H. apply IH in H.
  simpl. rewrite H. apply orb_true_r.
Qed.

Lemma in_domain_includes (h : string) :
  Spec.in_domain "spotify.com" h = true -> Js.includes "spotify.com" h = true.
Proof.
  unfold Spec.in_domain. rewrite orb_true_iff, String.eqb_eq.
  intros [->|H]; [done|].
  apply endsWith_spec in H as [i Hi].
  apply (includes_drop _ _ i). by rewrite Hi.
Qed.

(** C4, as the code has it: the router chooses by the first test that
    holds of the lower-cased path and host name -- the path ends in one of
    the direct-download extensions, the path ends in [.m3u8], the host name
    contains [spotify.com] -- and otherwise takes the generic engine; every
    host inside the domain is among those containing it; the choice depends
    on the URL through its path and host name only. *)
Theorem route_precedence (new_URL : string -> option URL) (cfg : Config)
    (raw : string) (u : URL) :
  new_URL raw = Some u ->
  let path := Js.toLowerCase (pathname u) in
  let h := Js.toLowerCase (hostname u) in
  exists c,
    classify new_URL raw = Some c /\
    route c =
      (if Spec.ends_in_extension path then Aria2
       else if Js.endsWith ".m3u8" path then FfmpegM3u8
       else if Js.includes "spotify.com" h then Spotdl
       else YtDlp) /\
    (Spec.in_domain "spotify.com" h = true ->
     route c = Spec.adapter (Spec.tag u)) /\
    (forall now id st,
       runDownload new_URL cfg now id raw st =
       (emit (Spawn (binary cfg (route c)) (spawn_args cfg (route c) id raw)) st,
        Some (AwaitEngine (mkProc (route c) "" "")))) /\
    (forall raw' u',
       new_URL raw' = Some u' -> pathname u' = pathname u ->
       hostname u' = hostname u ->
       route <$> classify new_URL raw' = Some (route c)).
Proof.
  intros Hu path h. unfold classify. rewrite Hu. eexists. split; [done|].
  unfold route; cbn [isDirect isM3u8 isSpotify].
  rewrite direct_pattern_spec by apply lowered_toLowerCase.
  fold path h. split; [done|]. split; [|split].
  - intros Hd. unfold Spec.tag. fold path h. rewrite Hd.
    rewrite (in_domain_includes _ Hd).
    destruct (Spec.ends_in_extension path); [done|].
    by destruct (Js.endsWith ".m3u8" path).
  - intros now id st. unfold runDownload, classify. rewrite Hu.
    unfold route; cbn [isDirect isM3u8 isSpotify].
    rewrite direct_pattern_spec by apply lowered_toLowerCase. done.
  - intros raw' u' Hu' Hp Hh. rewrite Hu'. simpl.
    unfold route; cbn [isDirect isM3u8 isSpotify].
    rewrite direct_pattern_spec by apply lowered_toLowerCase.
    by rewrite Hp, Hh.
Qed.

Lemma route_precedence_witness :
  exists c,
    classify Sample.new_URL "https://example.com/Video.MP4" = Some c /\
    route c = Aria2.
Proof.
  destruct (route_precedence Sample.new_URL Sample.cfg
              "https://example.com/Video.MP4"
              (mkURL "https:" "example.com" "/Video.MP4") eq_refl)
    as (c & Hc & Hr & _).
  exists c. split; [exact Hc | exact Hr].
Defined.

(** C4 at a host outside the domain whose name contains it: the code takes
    the music-service engine where the stated precedence gives the generic
    one. *)
Lemma route_substring_host :
  route <$> classify Sample.new_URL "https://notspotify.com/watch" = Some Spotdl /\
  Spec.adapter (Spec.tag (mkURL "https:" "notspotify.com" "/watch")) = YtDlp /\
  Sample.new_URL "https://notspotify.com/watch"
    = Some (mkURL "https:" "notspotify.com" "/watch").
Proof. by vm_compute. Qed.

(** ** Job store *)

Section StoreFacts.

Context (new_URL : string -> option URL) (cfg : Config).

Lemma jobs_setJob id p now st id' :
  jobs (setJob id p now st) !! id' =
  if decide (id' = id) then (fun c => spread c p now) <$> jobs st !! id'
  else jobs st !! id'.
Proof.
  unfold setJob. case_decide as Hid; [subst id'|].
  - destruct (jobs st !! id) eqn:E; simpl; [by rewrite lookup_insert_eq | by rewrite E].
  - destruct (jobs st !! id) eqn:E; simpl; [by rewrite lookup_insert_ne | done].
Qed.

Lemma jobs_pushLog id s now st id' :
  jobs (pushLog id s now st) !! id' =
  if decide (id' = id)
  then (fun c => mkJob (job_id c) (url c) (status c) (created_at c) now
                   (file_path c) (file_name c) (error c)
                   (Js.or_else (log c) "" +:+ s)) <$> jobs st !! id'
  else jobs st !! id'.
Proof.
  unfold pushLog. case_decide as Hid; [subst id'|].
  - destruct (jobs st !! id) eqn:E; simpl; [by rewrite lookup_insert_eq | by rewrite E].
  - destruct (jobs st !! id) eqn:E; simpl; [by rewrite lookup_insert_ne | done].
Qed.

Lemma jobs_emit e st : jobs (emit e st) = jobs st.
Proof. done. Qed.

Lemma jobs_with_disk d st : jobs (with_disk d st) = jobs st.
Proof. done. Qed.

Lemma jobs_setTimeout ms id st : jobs (setTimeout ms id st) = jobs st.
Proof. done. Qed.

Lemma setJob_rest id p now st :
  disk (setJob id p now st) = disk st /\ timers (setJob id p now st) = timers st /\
  trace (setJob id p now st) = trace st.
Proof. unfold setJob. by destruct (jobs st !! id). Qed.

Lemma pushLog_rest id s now st :
  disk (pushLog id s now st) = disk st /\ timers (pushLog id s now st) = timers st /\
  trace (pushLog id s now st) = trace st.
Proof. unfold pushLog. by destruct (jobs st !! id). Qed.

Lemma record_step_jobs st1 st2 t st' next :
  jobs st1 = jobs st2 -> record_step st2 t st' next -> record_step st1 t st' next.
Proof. unfold record_step. by intros ->. Qed.

Lemma record_step_jobs' st t st1' st2' next :
  jobs st1' = jobs st2' -> record_step st t st2' next -> record_step st t st1' next.
Proof. unfold record_step. by intros ->. Qed.

Lemma record_step_stay st t :
  record_step st t st (Some (phase t)).
Proof.
  split; [done|]. split; [done|]. intros j Hj. exists j. split; [done|].
  left. by repeat split.
Qed.

Lemma record_step_end st t :
  live (phase t) = false -> record_step st t st None.
Proof.
  intros Hl. split; [done|]. split; [done|]. intros j Hj. exists j. split; [done|].
  left. by repeat split.
Qed.

Lemma record_step_move st t ph :
  phase_status ph = phase_status (phase t) -> live ph = live (phase t) ->
  record_step st t st (Some ph).
Proof.
  intros Hs Hl. split; [done|]. split; [done|]. intros j Hj. exists j. split; [done|].
  left. by repeat split.
Qed.

Lemma catch_record now t e st :
  record_step st t (catch cfg now (t_id t) e st).1 (catch cfg now (t_id t) e st).2.
Proof.
  unfold catch; simpl. split; [|split].
  - intros id Hid. rewrite ?jobs_emit, ?jobs_with_disk, jobs_setJob. by case_decide.
  - intros Hn. rewrite ?jobs_emit, ?jobs_with_disk, jobs_setJob. case_decide; [by rewrite Hn | done].
  - intros j Hj. rewrite ?jobs_emit, ?jobs_with_disk, jobs_setJob. case_decide; [|done]. rewrite Hj. simpl.
    eexists. split; [done|]. right. eexists. split; [done|].
    unfold writes, follows; simpl. by repeat split.
Qed.

Lemma runDownload_record now t p st :
  phase t = AwaitStart p ->
  record_step st t (runDownload new_URL cfg now (t_id t) (t_url t) st).1
                   (runDownload new_URL cfg now (t_id t) (t_url t) st).2.
Proof.
  intros Hp. unfold runDownload. destruct (classify new_URL (t_url t)).
  - simpl. apply (record_step_jobs' _ _ _ st); [done|].
    apply record_step_move; by rewrite Hp.
  - apply catch_record.
Qed.

Lemma deliver_record now t all sent rest st :
  phase_status (phase t) = Uploading -> live (phase t) = true ->
  record_step st t (deliver cfg now (t_id t) all sent rest st).1
                   (deliver cfg now (t_id t) all sent rest st).2.
Proof.
  intros Hs Hl. unfold deliver. destruct rest as [|fp rest]; simpl.
  - split; [|split].
    + intros id Hid. rewrite ?jobs_emit, ?jobs_with_disk, jobs_setJob. by case_decide.
    + intros Hn. rewrite ?jobs_emit, ?jobs_with_disk, jobs_setJob. case_decide; [by rewrite Hn | done].
    + intros j Hj. rewrite ?jobs_emit, ?jobs_with_disk, jobs_setJob. case_decide; [|done]. rewrite Hj. simpl.
      eexists. split; [done|]. right. eexists. split; [done|].
      unfold writes, follows; simpl. by repeat split.
  - apply (record_step_jobs' _ _ _ st); [done|].
    apply record_step_move; [by rewrite Hs | by rewrite Hl].
Qed.

Lemma on_result_record now t r st :
  phase_status (phase t) = Downloading ->
  record_step st t (on_result cfg now (t_id t) (t_url t) r st).1
                   (on_result cfg now (t_id t) (t_url t) r st).2.
Proof.
  intros Hs. unfold on_result. destruct r as [filePath|result]; simpl.
  - split; [|split].
    + intros id Hid. rewrite ?jobs_emit, ?jobs_with_disk, !jobs_setJob. by case_decide.
    + intros Hn. rewrite ?jobs_emit, ?jobs_with_disk, !jobs_setJob. case_decide; [by rewrite Hn | done].
    + intros j Hj. rewrite ?jobs_emit, ?jobs_with_disk, !jobs_setJob. case_decide; [|done]. rewrite Hj. simpl.
      eexists. split; [done|]. right. eexists. split; [done|].
      unfold writes, follows; simpl. by repeat split.
  - split; [|split].
    + intros id Hid. rewrite ?jobs_emit, ?jobs_with_disk, !jobs_setJob. by case_decide.
    + intros Hn. rewrite ?jobs_emit, ?jobs_with_disk, !jobs_setJob. case_decide; [by rewrite Hn | done].
    + intros j Hj. rewrite ?jobs_emit, ?jobs_with_disk, !jobs_setJob. case_decide; [|done]. rewrite Hj. simpl.
      eexists. split; [done|]. right. eexists. split; [done|].
      unfold writes, follows; simpl. by repeat split.
Qed.

Lemma pushLog_record now t s st ph :
  phase_status ph = phase_status (phase t) -> live ph = live (phase t) ->
  record_step st t (pushLog (t_id t) s now st) (Some ph).
Proof.
  intros Hs Hl. split; [|split].
  - intros id Hid. rewrite jobs_pushLog. by case_decide.
  - intros Hn. rewrite jobs_pushLog. case_decide; [by rewrite Hn | done].
  - intros j Hj. rewrite jobs_pushLog. case_decide; [|done]. rewrite Hj. simpl.
    eexists. split; [done|]. left. by repeat split.
Qed.

(** every resumption touches the record of its own job only, and either
    keeps its status and result fields or writes those of the phase it
    suspends in *)
Lemma task_step_record now st t ev :
  record_step st t (task_step new_URL cfg now st t ev).1
                   (task_step new_URL cfg now st t ev).2.
Proof.
  unfold task_step.
  destruct (phase t) as [p|pr|p all|p all sent fp rest|p all|p fp|p fp|p] eqn:Hp;
    destruct ev as [r|s|s|e|code];
    try (rewrite <- Hp; apply record_step_stay).
  - destruct (settle_message p r); [apply catch_record|].
    by apply (runDownload_record _ _ p).
  - apply pushLog_record; by rewrite Hp.
  - apply pushLog_record; by rewrite Hp.
  - apply catch_record.
  - destruct (on_close cfg (disk st) (t_id t) pr code); [apply on_result_record; by rewrite Hp | apply catch_record].
  - destruct (settle_message p r); [apply catch_record|].
    apply deliver_record; by rewrite Hp.
  - destruct (settle_upload p r); [apply catch_record|].
    eapply record_step_jobs; [|apply deliver_record; by rewrite Hp]. done.
  - destruct (settle_message p r); [apply catch_record|].
    apply record_step_end. by rewrite Hp.
  - destruct (settle_upload p r); [apply catch_record|]. simpl.
    assert (Hs : phase_status (phase t) = Uploading) by (by rewrite Hp).
    split; [|split].
    + intros id Hid. rewrite ?jobs_emit, ?jobs_with_disk, jobs_setJob. by case_decide.
    + intros Hn. rewrite ?jobs_emit, ?jobs_with_disk, jobs_setJob. case_decide; [by rewrite Hn | done].
    + intros j Hj. rewrite ?jobs_emit, ?jobs_with_disk, jobs_setJob. case_decide; [|done]. rewrite Hj. simpl.
      eexists. split; [done|]. right. eexists. split; [done|].
      unfold writes, follows; simpl. by repeat split.
  - destruct (settle_message p r); [apply catch_record|]. simpl.
    apply (record_step_jobs' _ _ _ st); [done|]. apply record_step_end. by rewrite Hp.
  - simpl. apply record_step_end. by rewrite Hp.
Qed.

End StoreFacts.

(** ** Concurrency gate *)

Section Gate.

Context (new_URL : string -> option URL) (cfg : Config).

Lemma record_step_in_flight st t st' next id j' :
  record_step st t st' next ->
  jobs st' !! id = Some j' -> in_flight j' = true ->
  (id = t_id t /\ exists ph, next = Some ph /\ live ph = true) \/
  ((id <> t_id t \/ live (phase t) = false) /\
   exists j, jobs st !! id = Some j /\ in_flight j = true).
Proof.
  intros (Hframe & Hnone & Hown) Hj' Hfl.
  destruct (decide (id = t_id t)) as [->|Hne].
  2:{ right. split; [by left|]. exists j'. by rewrite <- Hframe. }
  destruct (jobs st !! t_id t) as [j|] eqn:Hj.
  2:{ rewrite Hnone in Hj'; done. }
  destruct (Hown j eq_refl) as (j'' & Hj'' & Hcase).
  assert (j'' = j') as -> by congruence.
  destruct Hcase as [[Hk Hnext]|(ph & -> & Hw & _)].
  - destruct Hk as (Hst & _).
    assert (Hflj : in_flight j = true) by (unfold in_flight in *; by rewrite <- Hst).
    destruct next as [ph|].
    + destruct Hnext as [_ Hl]. destruct (live (phase t)) eqn:Hlt.
      * left. split; [done|]. by exists ph.
      * right. split; [by right|]. by exists j.
    + right. split; [by right|]. by exists j.
  - left. split; [done|]. exists ph. split; [done|].
    destruct Hw as (Hst & _ & _ & Hw). unfold in_flight in Hfl. rewrite Hst in Hfl.
    by destruct ph.
Qed.

Lemma jobs_cleanup id st : jobs (cleanup id st) = jobs st.
Proof.
  unfold cleanup. destruct (jobs st !! id) as [cur|]; [|done].
  destruct (file_path cur); [|done]. by destruct (_ && _).
Qed.

Lemma gate_inv_initial d : 0 <= MAX_CONCURRENT cfg -> gate_inv cfg (initial d).
Proof. intros H. split; simpl; try done. Qed.

Lemma gate_inv_processQueue now s :
  gate_inv cfg s -> gate_inv cfg (processQueue cfg now s).
Proof.
  intros [Hrun Hceil Hfresh Hlive]. unfold processQueue.
  destruct (running s >=? MAX_CONCURRENT cfg) eqn:Hgate; [done|].
  destruct (queue s) as [|id q]; [done|].
  destruct (jobs (store s) !! id) as [job|] eqn:Hjob.
  - assert (Hnew : tasks s !! next_task s = None).
    { destruct (tasks s !! next_task s) eqn:E; [|done]. apply Hfresh in E. lia. }
    split; simpl.
    + rewrite map_size_insert_None by done. lia.
    + lia.
    + intros tid t. rewrite lookup_insert. case_decide; [intros _; lia|].
      intros H'. apply Hfresh in H'. lia.
    + intros id' j'. rewrite ?jobs_emit, jobs_setJob. case_decide as Hid.
      * subst id'. intros _ _. exists (next_task s). eexists.
        rewrite lookup_insert_eq. done.
      * intros Hj' Hfl. destruct (Hlive _ _ Hj' Hfl) as (tid & t & Ht & Hid' & Hl).
        exists tid, t. split; [|done]. rewrite lookup_insert_ne; [done|].
        intros <-. congruence.
  - split; simpl; [lia | lia | done | done].
Qed.

Lemma gate_inv_resume now tid ev s :
  gate_inv cfg s -> gate_inv cfg (resume new_URL cfg now tid ev s).
Proof.
  intros [Hrun Hceil Hfresh Hlive]. unfold resume.
  destruct (tasks s !! tid) as [t|] eqn:Ht; [|done].
  pose proof (task_step_record new_URL cfg now (store s) t ev) as Hrec.
  destruct (task_step new_URL cfg now (store s) t ev) as [st' [ph|]]; simpl in Hrec.
  - split; simpl.
    + rewrite map_size_insert_Some by done. done.
    + done.
    + intros tid' t'. rewrite lookup_insert. case_decide; [subst; intros _; eauto|eauto].
    + intros id j' Hj' Hfl.
      destruct (record_step_in_flight _ _ _ _ _ _ Hrec Hj' Hfl)
        as [[-> (ph' & [= <-] & Hl)]|[Hother (j & Hj & Hflj)]].
      * exists tid. eexists. rewrite lookup_insert_eq. done.
      * destruct (Hlive _ _ Hj Hflj) as (tid1 & t1 & Ht1 & Hid1 & Hl1).
        exists tid1, t1. split; [|done]. rewrite lookup_insert_ne; [done|].
        intros <-. assert (t1 = t) as -> by congruence.
        destruct Hother; congruence.
  - assert (Hpos : (0 < size (tasks s))%nat).
    { destruct (decide (size (tasks s) = 0%nat)) as [Hz|]; [|lia].
      apply map_size_empty_inv in Hz. rewrite Hz in Ht. done. }
    split; simpl.
    + rewrite map_size_delete_Some by done. lia.
    + lia.
    + intros tid' t'. rewrite lookup_delete. case_decide; [done|eauto].
    + intros id j' Hj' Hfl.
      destruct (record_step_in_flight _ _ _ _ _ _ Hrec Hj' Hfl)
        as [[-> (ph' & [=] & Hl)]|[Hother (j & Hj & Hflj)]].
      destruct (Hlive _ _ Hj Hflj) as (tid1 & t1 & Ht1 & Hid1 & Hl1).
      exists tid1, t1. split; [|done]. rewrite lookup_delete_ne; [done|].
      intros <-. assert (t1 = t) as -> by congruence.
      destruct Hother; congruence.
Qed.

Lemma gate_inv_step now s ev :
  gate_inv cfg s -> gate_inv cfg (step new_URL cfg now s ev).
Proof.
  intros Hinv. destruct ev as [b id|id|  |tid ev|n|p]; simpl.
  - unfold post_job. destruct (_ || _); [done|]. simpl.
    destruct Hinv as [Hrun Hceil Hfresh Hlive]. split; simpl; try done.
    intros id' j'. rewrite lookup_insert. case_decide; [by intros [= <-]|]. eauto.
  - unfold get_job. by destruct (jobs (store s) !! id).
  - destruct (immediates s) as [|n] eqn:Hi; [done|].
    apply gate_inv_processQueue. by destruct Hinv.
  - by apply gate_inv_resume.
  - destruct (timers (store s) !! n) as [[ms id]|]; [|done].
    destruct Hinv as [Hrun Hceil Hfresh Hlive]. split; simpl; try done.
    intros id' j'. rewrite jobs_cleanup. simpl. eauto.
  - by destruct Hinv.
Qed.

Lemma gate_inv_run s evs :
  gate_inv cfg s -> gate_inv cfg (run new_URL cfg s evs).
Proof.
  revert s; induction evs as [|[now ev] evs IH]; intros s H; simpl; [done|].
  apply IH. by apply gate_inv_step.
Qed.

Lemma size_list_to_set_le (l : list string) :
  (size (list_to_set (C:=gset string) l) <= List.length l)%nat.
Proof.
  induction l as [|x l IH].
  { by rewrite list_to_set_nil, size_empty. }
  rewrite list_to_set_cons, size_union_alt, size_singleton. cbn [List.length].
  assert (Hsub : list_to_set l ∖ {[x]} ⊆ list_to_set (C:=gset string) l)
    by (by apply subseteq_difference_l).
  apply subseteq_size in Hsub. lia.
Qed.

Lemma in_flight_bound s :
  gate_inv cfg s -> Z.of_nat (in_flight_count s) <= running s.
Proof.
  intros [Hrun Hceil Hfresh Hlive].
  enough (in_flight_count s <= size (tasks s))%nat by lia.
  unfold in_flight_count.
  set (m := filter _ (jobs (store s))).
  set (ids := (fun kv : nat * Task => t_id kv.2) <$> map_to_list (tasks s)).
  trans (size (list_to_set (C:=gset string) ids)).
  - rewrite <- (size_dom (D:=gset string) m). apply subseteq_size.
    intros id Hid. apply elem_of_dom in Hid as [j Hj].
    apply map_lookup_filter_Some in Hj as [Hj Hfl]. simpl in Hfl.
    destruct (Hlive _ _ Hj Hfl) as (tid & t & Ht & <- & _).
    apply elem_of_list_to_set. unfold ids. apply list_elem_of_fmap.
    exists (tid, t). split; [done|]. by apply elem_of_map_to_list.
  - etrans; [apply size_list_to_set_le|].
    unfold ids. by rewrite length_fmap, length_map_to_list.
Qed.

End Gate.

(** ** Life cycle of the records *)

Section Life.

Context (new_URL : string -> option URL) (cfg : Config).

Lemma phase_status_not_queued ph : phase_status ph <> Queued.
Proof. by destruct ph. Qed.

Lemma job_ok_keeps j j' : keeps j j' -> job_ok j -> job_ok j'.
Proof.
  intros (Hs & Hp & Hn & He & _). unfold job_ok, single_file, multi_summary, failure.
  by rewrite Hs, Hp, Hn, He.
Qed.

Lemma record_step_life st t st' next j :
  record_step st t st' next ->
  jobs st !! t_id t = Some j -> status j = phase_status (phase t) -> job_ok j ->
  exists j', jobs st' !! t_id t = Some j' /\ job_ok j' /\ job_id j' = job_id j /\
             url j' = url j /\
             match next with
             | Some ph => status j' = phase_status ph
             | None => status j' = status j /\ live (phase t) = false
             end.
Proof.
  intros (_ & _ & Hown) Hj Hst Hok.
  destruct (Hown j Hj) as (j' & Hj' & [[Hk Hnext]|(ph & -> & Hw & Hf)]).
  - exists j'. split; [done|]. split; [by apply (job_ok_keeps j)|].
    destruct Hk as (Hs & _ & _ & _ & Hid & Hurl). split; [done|]. split; [done|].
    destruct next as [ph|]; [|done]. destruct Hnext as [Hps _]. congruence.
  - exists j'. destruct Hw as (Hs & Hid & Hurl & Hw).
    split; [done|]. split; [|done].
    unfold job_ok in *. rewrite Hs. rewrite Hst in Hok.
    destruct ph; simpl in *; try done.
    + rewrite Hf in Hok. destruct Hw as (Hp & Hn & He). split; [by rewrite He; apply Hok|].
      right. split; [done|]. eauto.
    + rewrite Hf in Hok. destruct Hw as (Hp & Hn & He).
      unfold single_file, multi_summary in *. rewrite Hp, Hn, He. done.
    + rewrite Hf in Hok. destruct Hw as (Hp & Hn & He). split; [by rewrite He; apply Hok|].
      left. unfold single_file. rewrite Hp. eauto.
    + rewrite Hf in Hok. destruct Hw as (Hp & Hn & He).
      unfold single_file, multi_summary in *. rewrite Hp, Hn, He. done.
    + by destruct Hw as (_ & _ & He).
Qed.

Lemma life_inv_initial d : life_inv (initial d).
Proof.
  split; simpl; try done.
  - constructor.
  - intros id Hid. by apply elem_of_nil in Hid.
Qed.

Lemma life_inv_jobs s s' :
  jobs (store s') = jobs (store s) -> tasks s' = tasks s -> queue s' = queue s ->
  life_inv s -> life_inv s'.
Proof.
  intros Hj Ht Hq [H1 H2 H3 H4 H5].
  split; rewrite ?Hj, ?Ht, ?Hq; done.
Qed.

Lemma life_inv_post now b id s :
  life_inv s -> jobs (store s) !! id = None ->
  life_inv (post_job new_URL now b id s).1.
Proof.
  intros [Hok Htask Huniq Hnd Hq] Hfresh. unfold post_job.
  destruct (_ || _); [done|]. split; simpl.
  - intros id' j'. rewrite lookup_insert. case_decide.
    + intros [= <-]. subst id'. unfold job_ok. simpl. done.
    + apply Hok.
  - intros tid t Ht. destruct (Htask _ _ Ht) as (j & Hj & Hs).
    exists j. rewrite lookup_insert_ne; [done|]. intros Heq. congruence.
  - done.
  - apply NoDup_app. split; [done|]. split; [|apply NoDup_singleton].
    intros x Hx Hx'. apply list_elem_of_singleton in Hx' as ->.
    destruct (Hq _ Hx) as (j & Hj & _). congruence.
  - intros id' Hin. apply elem_of_app in Hin as [Hin|Hin].
    + destruct (Hq _ Hin) as (j & Hj & Hs). exists j.
      rewrite lookup_insert_ne; [done|]. intros Heq. congruence.
    + apply list_elem_of_singleton in Hin as ->. rewrite lookup_insert_eq. eauto.
Qed.

Lemma life_inv_processQueue now s :
  life_inv s -> life_inv (processQueue cfg now s).
Proof.
  intros Hinv. pose proof Hinv as [Hok Htask Huniq Hnd Hq]. unfold processQueue.
  destruct (running s >=? MAX_CONCURRENT cfg); [done|].
  destruct (queue s) as [|id q] eqn:Hqueue; [done|].
  apply NoDup_cons in Hnd as [Hnotin Hnd].
  assert (Hother : forall tid t, tasks s !! tid = Some t -> t_id t <> id).
  { intros tid t Ht Heq. destruct (Htask _ _ Ht) as (j & Hj & Hs & _).
    destruct (Hq id) as (j0 & Hj0 & Hs0); [left|].
    rewrite Heq in Hj. assert (j0 = j) as -> by congruence.
    rewrite Hs0 in Hs. symmetry in Hs. by apply phase_status_not_queued in Hs. }
  destruct (jobs (store s) !! id) as [job|] eqn:Hjob.
  - destruct (Hq id) as (j0 & Hj0 & Hs0); [left|].
    assert (j0 = job) as -> by congruence.
    destruct (Hok _ _ Hjob) as [Hjok Hjid]. unfold job_ok in Hjok. rewrite Hs0 in Hjok.
    split; simpl.
    + intros id' j'. rewrite jobs_setJob. case_decide as Hid.
      * subst id'. rewrite Hjob. intros [= <-]. unfold job_ok. simpl. done.
      * apply Hok.
    + intros tid t. rewrite lookup_insert. case_decide as Htid.
      * intros [= <-]. simpl. rewrite jobs_setJob, decide_True by done.
        rewrite Hjob. simpl. eauto.
      * intros Ht. destruct (Htask _ _ Ht) as (j & Hj & Hs).
        exists j. rewrite jobs_setJob, decide_False; [done|]. by eapply Hother.
    + intros tid1 tid2 t1 t2. rewrite !lookup_insert.
      repeat case_decide; subst; try done.
      * intros [= <-] Ht2 Heq. simpl in Heq. symmetry in Heq. by apply Hother in Ht2.
      * intros Ht1 [= <-] Heq. simpl in Heq. by apply Hother in Ht1.
      * apply Huniq.
    + done.
    + intros id' Hin. destruct (Hq id') as (j & Hj & Hs); [by right|].
      exists j. rewrite jobs_setJob, decide_False; [done|]. by intros ->.
  - split; simpl; try done. intros id' Hin. apply Hq. by right.
Qed.

Lemma life_inv_resume now tid ev s :
  life_inv s -> life_inv (resume new_URL cfg now tid ev s).
Proof.
  intros Hinv. pose proof Hinv as [Hok Htask Huniq Hnd Hq]. unfold resume.
  destruct (tasks s !! tid) as [t|] eqn:Ht; [|done].
  pose proof (task_step_record new_URL cfg now (store s) t ev) as Hrec.
  destruct (Htask _ _ Ht) as (j & Hj & Hs & Hurl).
  destruct (Hok _ _ Hj) as [Hjok Hjid].
  pose proof (record_step_life _ _ _ _ _ Hrec Hj Hs Hjok) as (j' & Hj' & Hok' & Hid' & Hurl' & Hnext).
  destruct Hrec as (Hframe & _ & _).
  assert (Hqueue : forall id, id ∈ queue s ->
            exists j0, (task_step new_URL cfg now (store s) t ev).1.(jobs) !! id = Some j0
                       /\ status j0 = Queued).
  { intros id Hin. destruct (Hq _ Hin) as (j0 & Hj0 & Hs0). exists j0.
    rewrite Hframe; [done|]. intros ->. assert (j0 = j) as -> by congruence.
    rewrite Hs0 in Hs. symmetry in Hs. by apply phase_status_not_queued in Hs. }
  assert (Hall : forall id j0,
            (task_step new_URL cfg now (store s) t ev).1.(jobs) !! id = Some j0 ->
            job_ok j0 /\ job_id j0 = id).
  { intros id j0. destruct (decide (id = t_id t)) as [->|Hne].
    - rewrite Hj'. intros [= <-]. split; [done|]. congruence.
    - rewrite Hframe by done. apply Hok. }
  assert (Hothers : forall tid' t', tid' <> tid -> tasks s !! tid' = Some t' ->
            exists j0, (task_step new_URL cfg now (store s) t ev).1.(jobs) !! t_id t' = Some j0
                       /\ status j0 = phase_status (phase t') /\ url j0 = t_url t').
  { intros tid' t' Hne Ht'. destruct (Htask _ _ Ht') as (j0 & Hj0 & Hs0).
    exists j0. rewrite Hframe; [done|]. intros Heq. apply Hne.
    by apply (Huniq _ _ _ _ Ht' Ht). }
  destruct (task_step new_URL cfg now (store s) t ev) as [st' [ph|]]; simpl in *.
  - split; simpl; try done.
    + intros tid' t'. rewrite lookup_insert. case_decide as Htid.
      * intros [= <-]. simpl. exists j'. split; [done|]. split; [done|]. congruence.
      * by apply Hothers.
    + intros tid1 tid2 t1 t2. rewrite !lookup_insert.
      repeat case_decide; subst; try done.
      * intros [= <-] Ht2 Heq. simpl in Heq. by apply (Huniq _ _ _ _ Ht Ht2).
      * intros Ht1 [= <-] Heq. simpl in Heq. by apply (Huniq _ _ _ _ Ht1 Ht).
      * apply Huniq.
  - split; simpl; try done.
    + intros tid' t'. rewrite lookup_delete. case_decide as Htid; [done|].
      by apply Hothers.
    + intros tid1 tid2 t1 t2. rewrite !lookup_delete.
      repeat case_decide; subst; try done. apply Huniq.
Qed.

Lemma life_inv_step now s ev :
  life_inv s -> admissible s ev -> life_inv (step new_URL cfg now s ev).
Proof.
  intros Hinv Hadm. destruct ev as [b id|id|  |tid ev|n|p]; simpl.
  - by apply life_inv_post.
  - unfold get_job. by destruct (jobs (store s) !! id).
  - destruct (immediates s) as [|n] eqn:Hi; [done|].
    apply life_inv_processQueue. by apply (life_inv_jobs s).
  - by apply life_inv_resume.
  - destruct (timers (store s) !! n) as [[ms id]|]; [|done].
    apply (life_inv_jobs s); try done. simpl. by rewrite jobs_cleanup.
  - by apply (life_inv_jobs s).
Qed.

Lemma reachable_life d s : reachable new_URL cfg d s -> life_inv s.
Proof.
  induction 1 as [|s now ev Hr IH Hadm]; [apply life_inv_initial|].
  by apply life_inv_step.
Qed.

Lemma reachable_gate d s :
  0 <= MAX_CONCURRENT cfg -> reachable new_URL cfg d s -> gate_inv cfg s.
Proof.
  intros Hmax. induction 1 as [|s now ev Hr IH Hadm]; [by apply gate_inv_initial|].
  by apply gate_inv_step.
Qed.

End Life.

(** ** Scheduler and pipeline *)

(** C3: whatever events the server handles, the number of records whose
    status is [downloading] or [uploading] never exceeds the number of
    running invocations, which never exceeds [MAX_CONCURRENT] (an integer,
    at least 1).  A drive step at the ceiling changes nothing; one that
    admits a job found the counter strictly below the ceiling and adds one
    to it; the end of a pipeline takes one off and schedules a drive
    step. *)
Theorem in_flight_at_most_ceiling (new_URL : string -> option URL) (cfg : Config)
    (d : Disk) (evs : list (string * Event)) :
  1 <= MAX_CONCURRENT cfg ->
  let s := run new_URL cfg (initial d) evs in
  Z.of_nat (in_flight_count s) <= MAX_CONCURRENT cfg /\
  Z.of_nat (in_flight_count s) <= running s <= MAX_CONCURRENT cfg /\
  (forall now, MAX_CONCURRENT cfg <= running s -> processQueue cfg now s = s) /\
  (forall now,
     running (processQueue cfg now s) = running s \/
     (running s < MAX_CONCURRENT cfg /\
      running (processQueue cfg now s) = running s + 1)) /\
  (forall now tid ev t,
     tasks s !! tid = Some t ->
     (task_step new_URL cfg now (store s) t ev).2 = None ->
     running (resume new_URL cfg now tid ev s) = running s - 1 /\
     immediates (resume new_URL cfg now tid ev s) = S (immediates s)).
Proof.
  intros Hmax s.
  assert (Hinv : gate_inv cfg s).
  { apply gate_inv_run, gate_inv_initial. lia. }
  pose proof (in_flight_bound cfg s Hinv) as Hcount.
  pose proof (gate_ceiling _ _ Hinv) as Hceil.
  split; [lia|]. split; [lia|]. split; [|split].
  - intros now Hfull. unfold processQueue.
    destruct (running s >=? MAX_CONCURRENT cfg) eqn:Hgate; [done|]. lia.
  - intros now. unfold processQueue.
    destruct (running s >=? MAX_CONCURRENT cfg) eqn:Hgate; [by left|].
    destruct (queue s) as [|id q]; [by left|].
    destruct (jobs (store s) !! id); simpl; [right; lia | left; lia].
  - intros now tid ev t Ht Hend. unfold resume. rewrite Ht.
    destruct (task_step new_URL cfg now (store s) t ev) as [st' [ph|]]; [done|].
    done.
Qed.

Lemma in_flight_at_most_ceiling_witness :
  1 <= MAX_CONCURRENT Sample.cfg /\
  Z.of_nat (in_flight_count
    (run Sample.new_URL Sample.cfg (initial Sample.empty_disk)
       [("t0", HttpPost (Some "https://example.com/a.mp4") "j1");
        ("t1", HttpPost (Some "https://example.com/b.mp4") "j2");
        ("t2", Immediate); ("t3", Immediate)])) <= 1.
Proof.
  split; [vm_compute; discriminate|].
  apply (in_flight_at_most_ceiling Sample.new_URL Sample.cfg Sample.empty_disk).
  vm_compute; discriminate.
Defined.

Lemma reachable_run new_URL cfg d s evs :
  reachable new_URL cfg d s ->
  (forall pre now ev post, evs = pre ++ (now, ev) :: post ->
     admissible (run new_URL cfg s pre) ev) ->
  reachable new_URL cfg d (run new_URL cfg s evs).
Proof.
  revert s; induction evs as [|[now ev] evs IH]; intros s Hs Hadm; [done|].
  simpl. apply IH.
  - constructor; [done|]. by apply (Hadm [] now ev evs).
  - intros pre now' ev' post ->. by apply (Hadm ((now, ev) :: pre) now' ev' post).
Qed.

Lemma admitted_reachable u :
  reachable Sample.new_URL Sample.cfg Sample.empty_disk (Sample.admitted u).
Proof.
  apply (reachable_step _ _ _ _ "t1" Immediate); [|done].
  apply (reachable_step _ _ _ _ "t0" (HttpPost _ _)); [constructor|done].
Qed.

Lemma downloading_reachable u :
  reachable Sample.new_URL Sample.cfg Sample.empty_disk (Sample.downloading u).
Proof. constructor; [apply admitted_reachable | done]. Qed.

(** C1, as the code has it: the starting notification is awaited inside the
    [try] block.  When it fails after the job entered [downloading], the
    job enters [error] with the notifier's message, waits for the failure
    notification and starts no engine; the failure notification, however it
    ends, leaves the records as they are and ends the invocation.
    [server.js] takes the same step. *)
Theorem start_notification_failure (new_URL : string -> option URL) (cfg : Config)
    (d : Disk) (s : State) (now : string) (tid : nat) (t : Task) (p : Pending)
    (r : Reply) (e : JsError) :
  reachable new_URL cfg d s ->
  tasks s !! tid = Some t -> phase t = AwaitStart p ->
  settle_message p r = Some e ->
  let s' := step new_URL cfg now s (Resume tid (Settles r)) in
  (exists j, jobs (store s) !! t_id t = Some j /\ status j = Downloading) /\
  (exists j', jobs (store s') !! t_id t = Some j' /\ status j' = Failed /\
              error j' = Some (describe e)) /\
  (exists p', tasks s' !! tid = Some (mkTask (t_id t) (t_url t) (AwaitFailure p'))) /\
  spawned (store s') = spawned (store s) /\
  (forall now' r',
     let s'' := step new_URL cfg now' s' (Resume tid (Settles r')) in
     jobs (store s'') = jobs (store s') /\ tasks s'' !! tid = None /\
     spawned (store s'') = spawned (store s)) /\
  ServerJs.task_step cfg now (store s) t (Settles r)
    = ServerJs.lift (catch cfg now (t_id t) e (store s)).
Proof.
  intros Hreach Ht Hp He s'.
  destruct (life_task _ (reachable_life _ _ _ _ Hreach) _ _ Ht) as (j & Hj & Hs & _).
  rewrite Hp in Hs. simpl in Hs.
  split; [by exists j|].
  assert (Hs' : s' = mkState (catch cfg now (t_id t) e (store s)).1
                       (running s) (queue s) (immediates s)
                       (<[tid := mkTask (t_id t) (t_url t)
                                   (AwaitFailure (tgSendMessage cfg
                                      ("Job gagal." +:+ nl +:+ "Job: " +:+ t_id t
                                       +:+ nl +:+ "Error: " +:+ describe e)))]> (tasks s))
                       (next_task s)).
  { subst s'. simpl. unfold resume. rewrite Ht. unfold task_step. by rewrite Hp, He. }
  assert (Hspawn : spawned (catch cfg now (t_id t) e (store s)).1 = spawned (store s)).
  { unfold spawned, catch. simpl. rewrite (proj2 (proj2 (setJob_rest _ _ _ _))).
    rewrite List.filter_app. simpl. by rewrite app_nil_r. }
  split; [|split; [|split; [|split]]].
  - rewrite Hs'. unfold catch. simpl.
    rewrite jobs_setJob, decide_True, Hj by done. simpl. eauto.
  - rewrite Hs'. simpl. rewrite lookup_insert_eq. eauto.
  - by rewrite Hs'.
  - intros now' r' s''. subst s''. rewrite Hs'. simpl. unfold resume. simpl.
    rewrite lookup_insert_eq. simpl. by rewrite lookup_delete_eq.
  - unfold ServerJs.task_step. by rewrite Hp, He.
Qed.

Lemma start_notification_failure_witness :
  exists j', jobs (store (step Sample.new_URL Sample.cfg "t2"
                            (Sample.admitted "https://example.com/a.mp4")
                            (Resume 0 (Settles Sample.refused)))) !! "j1" = Some j' /\
             status j' = Failed /\
             error j' = Some "TG sendMessage failed: 500 boom".
Proof.
  exact (proj1 (proj2 (start_notification_failure Sample.new_URL Sample.cfg
    Sample.empty_disk (Sample.admitted "https://example.com/a.mp4") "t2" 0
    (mkTask "j1" "https://example.com/a.mp4" (AwaitStart Requested)) Requested
    Sample.refused (Error "TG sendMessage failed: 500 boom")
    (admitted_reachable _) eq_refl eq_refl eq_refl))).
Defined.

(** C1 on a run of either version: the job is [downloading], the reply to
    its starting notification is a refusal, and the job is in [error]
    without any engine having been started. *)
Lemma start_notification_aborts :
  let before := Sample.admitted "https://example.com/a.mp4" in
  let after := step Sample.new_URL Sample.cfg "t2" before
                 (Resume 0 (Settles Sample.refused)) in
  status <$> Sample.job_of before "j1" = Some Downloading /\
  status <$> Sample.job_of after "j1" = Some Failed /\
  phase <$> tasks after !! 0%nat = Some (AwaitFailure Requested) /\
  spawned (store after) = [] /\
  (exists st', ServerJs.task_step Sample.cfg "t2" (store before)
                 (mkTask "j1" "https://example.com/a.mp4" (AwaitStart Requested))
                 (Settles Sample.refused)
               = ServerJs.Next st' (Some (AwaitFailure Requested)) /\
               status <$> jobs st' !! "j1" = Some Failed /\ spawned st' = []).
Proof.
  repeat split; try (by vm_compute).
  eexists. split; [reflexivity|]. split; by vm_compute.
Qed.

Lemma uploading_reachable u :
  reachable Sample.new_URL Sample.cfg Sample.empty_disk (Sample.uploading u).
Proof.
  apply reachable_run; [apply downloading_reachable|].
  intros pre now ev post Heq.
  destruct pre as [|? [|? [|? pre]]]; simplify_eq/=; done.
Qed.

(** C2, as the code has it: in every state the server reaches, a record in
    [done] has no error and exactly one of the two success shapes -- its
    [file_path] is set, or its [file_name] is an item-count summary and its
    [file_path] is null --, and a record in [error] has its error set.  The
    [catch] block writes the status and the error and leaves the result
    fields as the failed pipeline left them. *)
Theorem terminal_outcome (new_URL : string -> option URL) (cfg : Config)
    (d : Disk) (s : State) (id : string) (j : Job) :
  reachable new_URL cfg d s ->
  jobs (store s) !! id = Some j -> terminal (status j) ->
  (status j = Done ->
   error j = None /\
   ((single_file j /\ ~ multi_summary j) \/ (~ single_file j /\ multi_summary j))) /\
  (status j = Failed -> failure j) /\
  (forall now e st cur,
     jobs st !! id = Some cur ->
     exists j', jobs (catch cfg now id e st).1 !! id = Some j' /\
                status j' = Failed /\ error j' = Some (describe e) /\
                file_path j' = file_path cur /\ file_name j' = file_name cur).
Proof.
  intros Hreach Hj _.
  destruct (life_ok _ (reachable_life _ _ _ _ Hreach) _ _ Hj) as [Hok _].
  unfold job_ok in Hok. split; [|split].
  - intros Hs; rewrite Hs in Hok.
    destruct Hok as [He [Hsingle|Hmulti]]; (split; [done|]).
    + left. split; [done|].
      intros [Hnone _]. destruct Hsingle as [fp Hfp]. congruence.
    + right. split; [|done].
      intros [fp Hfp]. destruct Hmulti as [Hnone _]. congruence.
  - intros Hs. by rewrite Hs in Hok.
  - intros now e st cur Hcur. unfold catch. cbn [fst].
    rewrite jobs_emit, jobs_setJob, decide_True, Hcur by done. simpl. eauto 10.
Qed.

Lemma terminal_outcome_witness :
  (let j := mkJob "j1" "https://example.com/a.mp4" Done "t0" "t5"
              (Some "/srv/downloads/job_j1/a.mp4") (Some "a.mp4") None "" in
   error j = None /\
   ((single_file j /\ ~ multi_summary j) \/ (~ single_file j /\ multi_summary j))) /\
  failure (mkJob "j1" "https://example.com/a.mp4" Failed "t0" "t5"
             (Some "/srv/downloads/job_j1/a.mp4") (Some "a.mp4")
             (Some "TG upload failed: 500 boom") "").
Proof.
  assert (Hr : reachable Sample.new_URL Sample.cfg Sample.empty_disk
                 (step Sample.new_URL Sample.cfg "t5"
                    (Sample.uploading "https://example.com/a.mp4")
                    (Resume 0 (Settles Sample.refused)))).
  { apply reachable_step; [apply uploading_reachable | exact I]. }
  split.
  - exact (proj1 (terminal_outcome Sample.new_URL Sample.cfg Sample.empty_disk
                    (Sample.delivered "https://example.com/a.mp4") "j1" _
                    (reachable_step _ _ _ _ "t5" (Resume 0 (Settles Sample.ok))
                       (uploading_reachable _) I)
                    eq_refl (or_introl eq_refl)) eq_refl).
  - exact (proj1 (proj2 (terminal_outcome Sample.new_URL Sample.cfg Sample.empty_disk _
                           "j1" _ Hr eq_refl (or_intror eq_refl))) eq_refl).
Defined.

(** C2 on a single-file job whose upload is refused: the record is in
    [error] with both [file_path] and [error] set. *)
Lemma failed_upload_keeps_file_path :
  exists j,
    Sample.job_of (step Sample.new_URL Sample.cfg "t5"
                     (Sample.uploading "https://example.com/a.mp4")
                     (Resume 0 (Settles Sample.refused))) "j1" = Some j /\
    status j = Failed /\ terminal (status j) /\
    file_path j = Some "/srv/downloads/job_j1/a.mp4" /\
    error j = Some "TG upload failed: 500 boom" /\
    ~ exactly_one (single_file j) (multi_summary j) (failure j).
Proof.
  eexists. split; [by vm_compute|]. simpl.
  split; [done|]. split; [by right|]. split; [done|]. split; [done|].
  unfold exactly_one, single_file, multi_summary, failure; simpl.
  intros [(_ & _ & H)|[(H & _)|(H & _)]]; apply H; eauto.
Qed.

(** ** Engine failures *)

Lemma describe_Error (c : ascii) (s r : string) :
  describe (Error (String c s +:+ r)) = String c s +:+ r.
Proof. by rewrite app_cons. Qed.

Lemma includes_tail (a p : string) : Js.includes p (a +:+ p) = true.
Proof. rewrite <- (app_empty_r p) at 2. apply includes_app. Qed.

Lemma is_zero_nonzero (c : Z) : c <> 0 -> is_zero (Some c) = false.
Proof. intros H. simpl. by apply Z.eqb_neq. Qed.

(** a non-zero exit code rejects the promise of every adapter with a
    message that contains the code *)
Lemma on_close_nonzero cfg d id pr c :
  c <> 0 ->
  exists msg, on_close cfg d id pr (Some c) = inr (Error msg) /\
              describe (Error msg) = msg /\
              Js.includes (Js.of_Z c) msg = true.
Proof.
  intros Hc. unfold on_close, runYtDlpSingle_close, runAria2Single_close,
    runFfmpegM3u8Single_close, runSpotdlMulti_close.
  rewrite (is_zero_nonzero c Hc).
  destruct (engine pr); simpl; eexists; (split; [done|]); split;
    try apply describe_Error; try apply includes_app; apply includes_tail.
Qed.

Lemma server_js_on_close_nonzero d pr c :
  c <> 0 ->
  exists msg, ServerJs.runYtDlp_close d pr (Some c) = inr (Error msg) /\
              describe (Error msg) = msg /\
              Js.includes (Js.of_Z c) msg = true.
Proof.
  intros Hc. unfold ServerJs.runYtDlp_close. rewrite (is_zero_nonzero c Hc). simpl.
  eexists. split; [done|]. split; [apply describe_Error | apply includes_app].
Qed.

(** C8: when the subprocess of a job's engine adapter closes with a
    non-zero exit code, the record enters [error] with a message that
    contains the code; the failure notification, however it ends, leaves
    the records as they are and ends the invocation.  The close listener of
    [server.js] does the same. *)
Theorem nonzero_exit_fails (new_URL : string -> option URL) (cfg : Config)
    (d : Disk) (s : State) (now : string) (tid : nat) (t : Task) (pr : Proc)
    (c : Z) :
  reachable new_URL cfg d s ->
  tasks s !! tid = Some t -> phase t = AwaitEngine pr -> c <> 0 ->
  let s' := step new_URL cfg now s (Resume tid (ProcClose (Some c))) in
  (exists msg j',
     Js.includes (Js.of_Z c) msg = true /\
     jobs (store s') !! t_id t = Some j' /\ status j' = Failed /\
     error j' = Some msg) /\
  (forall now' r,
     let s'' := step new_URL cfg now' s' (Resume tid (Settles r)) in
     jobs (store s'') = jobs (store s') /\ tasks s'' !! tid = None) /\
  (exists msg st' p',
     ServerJs.task_step cfg now (store s) t (ProcClose (Some c))
       = ServerJs.Next st' (Some (AwaitFailure p')) /\
     Js.includes (Js.of_Z c) msg = true /\
     (error <$> jobs st' !! t_id t) = Some (Some msg) /\
     (status <$> jobs st' !! t_id t) = Some Failed).
Proof.
  intros Hreach Ht Hp Hc s'.
  destruct (life_task _ (reachable_life _ _ _ _ Hreach) _ _ Ht) as (j & Hj & _).
  destruct (on_close_nonzero cfg (disk (store s)) (t_id t) pr c Hc)
    as (msg & Hclose & Hdesc & Hinc).
  destruct (server_js_on_close_nonzero (disk (store s)) pr c Hc)
    as (msg2 & Hclose2 & Hdesc2 & Hinc2).
  assert (Hs' : s' = mkState (catch cfg now (t_id t) (Error msg) (store s)).1
                       (running s) (queue s) (immediates s)
                       (<[tid := mkTask (t_id t) (t_url t)
                                   (AwaitFailure (tgSendMessage cfg
                                      ("Job gagal." +:+ nl +:+ "Job: " +:+ t_id t
                                       +:+ nl +:+ "Error: " +:+ msg)))]> (tasks s))
                       (next_task s)).
  { subst s'. simpl. unfold resume. rewrite Ht. unfold task_step.
    rewrite Hp, Hclose. unfold catch. simpl. by rewrite Hdesc. }
  split; [|split].
  - exists msg. rewrite Hs'. unfold catch. simpl.
    rewrite jobs_setJob, decide_True, Hj by done. simpl.
    eexists. rewrite Hdesc. done.
  - intros now' r s''. subst s''. rewrite Hs'. simpl. unfold resume. simpl.
    rewrite lookup_insert_eq. simpl. by rewrite lookup_delete_eq.
  - exists msg2. unfold ServerJs.task_step. rewrite Hp, Hclose2.
    unfold ServerJs.lift, catch. simpl. do 2 eexists. split; [done|].
    split; [done|].
    rewrite !jobs_emit, !jobs_setJob, !decide_True, Hj by done. simpl.
    by rewrite Hdesc2.
Qed.

Lemma nonzero_exit_fails_witness :
  exists msg j',
    Js.includes "3" msg = true /\
    jobs (store (step Sample.new_URL Sample.cfg "t3"
                   (Sample.downloading "https://example.com/a.mp4")
                   (Resume 0 (ProcClose (Some 3))))) !! "j1" = Some j' /\
    status j' = Failed /\ error j' = Some msg.
Proof.
  assert (Hne : 3 <> 0) by discriminate.
  exact (proj1 (nonzero_exit_fails Sample.new_URL Sample.cfg Sample.empty_disk
    (Sample.downloading "https://example.com/a.mp4") "t3" 0
    (mkTask "j1" "https://example.com/a.mp4" (AwaitEngine (mkProc Aria2 "" "")))
    (mkProc Aria2 "" "") 3 (downloading_reachable _) eq_refl eq_refl Hne)).
Defined.

(** the streaming-manifest adapter keeps no [stderr]: its [close] listener
    reports the exit code alone *)
Lemma ffmpeg_on_close_nonzero cfg d id fp err (c : Z) :
  c <> 0 ->
  on_close cfg d id (on_stderr (mkProc FfmpegM3u8 fp "") err) (Some c)
  = inr (Error ("ffmpeg exit code " +:+ Js.of_Z c)).
Proof.
  intros Hc. unfold on_close, runFfmpegM3u8Single_close. simpl.
  by rewrite (proj2 (Z.eqb_neq c 0) Hc).
Qed.

(** the other three adapters end their message with the last 400 characters
    of what the subprocess wrote to [stderr] *)
Lemma stderr_tail_reported cfg d id pr (c : Z) :
  c <> 0 -> engine pr <> FfmpegM3u8 ->
  exists tool,
    on_close cfg d id pr (Some c)
    = inr (Error (tool +:+ " exit code " +:+ Js.of_Z c +:+ ". "
                  +:+ Js.slice_last 400 (stderr pr))).
Proof.
  intros Hc Hne. unfold on_close, runYtDlpSingle_close, runAria2Single_close,
    runSpotdlMulti_close.
  rewrite (is_zero_nonzero c Hc).
  destruct (engine pr); simpl; [by exists "yt-dlp" | by exists "aria2c" | done
                               | by exists "spotdl"].
Qed.

(** a spawn failure rejects the promise of every adapter with the error of
    the [error] event, which the [catch] block records *)
Lemma spawn_failure_caught new_URL cfg now st t pr e :
  phase t = AwaitEngine pr ->
  task_step new_URL cfg now st t (ProcError e) = catch cfg now (t_id t) e st.
Proof. intros Hp. unfold task_step. by rewrite Hp. Qed.

(** C6 at a streaming-manifest job whose engine writes to [stderr] and exits
    with code 1: the record's error is the exit code alone, without the text
    the engine wrote, which the generic adapter reports for the same
    events; in [server.js] a spawn failure reaches no listener and the
    non-zero exit is reported without [stderr]. *)
Theorem ffmpeg_failure_without_stderr :
  let events u :=
    [("t0", HttpPost (Some u) "j1"); ("t1", Immediate);
     ("t2", Resume 0 (Settles Sample.ok));
     ("t3", Resume 0 (StderrData "Invalid data found"));
     ("t4", Resume 0 (ProcClose (Some 1)))] in
  let manifest := Sample.exec Sample.empty_disk (events "https://example.com/live.m3u8") in
  let generic := Sample.exec Sample.empty_disk (events "https://example.com/watch") in
  error <$> Sample.job_of manifest "j1" = Some (Some "ffmpeg exit code 1") /\
  log <$> Sample.job_of manifest "j1" = Some "Invalid data found" /\
  error <$> Sample.job_of generic "j1"
    = Some (Some "yt-dlp exit code 1. Invalid data found") /\
  ServerJs.task_step Sample.cfg "t3" (store (Sample.downloading "https://example.com/watch"))
    (mkTask "j1" "https://example.com/watch" (AwaitEngine (mkProc YtDlp "" "")))
    (ProcError (Error "spawn yt-dlp ENOENT"))
  = ServerJs.Uncaught (Error "spawn yt-dlp ENOENT") /\
  ServerJs.runYtDlp_close Sample.empty_disk (mkProc YtDlp "" "") (Some 1)
  = inr (Error "yt-dlp exit code 1. finalPath=(none)").
Proof. by vm_compute. Qed.

(** ** Create-job route *)

Section Trim.

Lemma is_white_spec (c : ascii) : Js.is_white c = Spec.white c.
Proof. by destruct c as [[] [] [] [] [] [] [] []]. Qed.

Lemma rev_app_spec (s t : string) : String.rev_app s t = String.rev s +:+ t.
Proof.
  unfold String.rev. revert t. induction s as [|c s IH]; intros t; simpl; [done|].
  rewrite IH, (IH (String c "")), string_app_assoc. by rewrite app_cons, app_nil.
Qed.

Lemma rev_cons (c : ascii) (s : string) :
  String.rev (String c s) = String.rev s +:+ String c "".
Proof. unfold String.rev at 1. simpl. apply rev_app_spec. Qed.

Lemma rev_app_distr (a b : string) :
  String.rev (a +:+ b) = String.rev b +:+ String.rev a.
Proof.
  induction a as [|c a IH].
  - by rewrite app_nil, app_empty_r.
  - by rewrite app_cons, !rev_cons, IH, string_app_assoc.
Qed.

Lemma rev_involutive (s : string) : String.rev (String.rev s) = s.
Proof.
  induction s as [|c s IH]; [done|].
  by rewrite rev_cons, rev_app_distr, IH.
Qed.

Lemma blank_app (a b : string) : Spec.blank (a +:+ b) = Spec.blank a && Spec.blank b.
Proof.
  induction a as [|c a IH]; [by rewrite app_nil|].
  rewrite app_cons. simpl. by rewrite IH, andb_assoc.
Qed.

Lemma blank_rev (s : string) : Spec.blank (String.rev s) = Spec.blank s.
Proof.
  induction s as [|c s IH]; [done|].
  rewrite rev_cons, blank_app, IH. simpl. by rewrite andb_true_r, andb_comm.
Qed.

Lemma last_char_snoc (s : string) (c : ascii) :
  Spec.last_char (s +:+ String c "") = Some c.
Proof.
  induction s as [|a s IH]; [done|].
  rewrite app_cons. simpl. rewrite IH.
  destruct (s +:+ String c "") eqn:E; [|done].
  destruct s; [by rewrite app_nil in E | by rewrite app_cons in E].
Qed.

Lemma first_char_rev (s : string) :
  Spec.first_char (String.rev s) = Spec.last_char s.
Proof.
  rewrite <- (rev_involutive s) at 2.
  destruct (String.rev s) as [|c r]; [done|].
  by rewrite rev_cons, last_char_snoc.
Qed.

Lemma trimStart_blank (l s : string) :
  Spec.blank l = true -> Js.trimStart (l +:+ s) = Js.trimStart s.
Proof.
  induction l as [|c l IH]; [by rewrite app_nil|].
  rewrite app_cons. simpl. rewrite andb_true_iff. intros [Hc Hl].
  rewrite is_white_spec, Hc. by apply IH.
Qed.

Lemma trimStart_all_blank (s : string) : Spec.blank s = true -> Js.trimStart s = "".
Proof.
  intros H. rewrite <- (app_empty_r s). by rewrite trimStart_blank.
Qed.

Lemma trimStart_tight (s : string) :
  (forall c, Spec.first_char s = Some c -> Spec.white c = false) ->
  Js.trimStart s = s.
Proof.
  destruct s as [|c s]; [done|]. intros H. simpl. by rewrite is_white_spec, (H c).
Qed.

Lemma trimStart_split (s : string) :
  exists l, s = l +:+ Js.trimStart s /\ Spec.blank l = true /\
            forall c, Spec.first_char (Js.trimStart s) = Some c -> Spec.white c = false.
Proof.
  induction s as [|a s (l & Hs & Hl & Hc)]; [by exists ""|].
  simpl. rewrite is_white_spec. destruct (Spec.white a) eqn:Ha.
  - exists (String a l). rewrite app_cons, <- Hs. split; [done|]. simpl.
    by rewrite Ha, Hl.
  - exists "". split; [by rewrite app_nil|]. split; [done|].
    simpl. by intros c [= <-].
Qed.

(** [trim] returns the one string the words of the specification describe *)
Lemma trim_spec (raw u : string) : Spec.trimmed raw u -> Js.trim raw = u.
Proof.
  intros [(l & r & -> & Hl & Hr) [Hfirst Hlast]]. unfold Js.trim.
  rewrite trimStart_blank by done. destruct u as [|a u].
  - rewrite app_nil, (trimStart_all_blank r) by done. reflexivity.
  - rewrite (trimStart_tight (String a u +:+ r)).
    + rewrite rev_app_distr, trimStart_blank by (by rewrite blank_rev).
      rewrite trimStart_tight; [apply rev_involutive|].
      intros c. rewrite first_char_rev. apply Hlast.
    + rewrite app_cons. simpl. intros c [= <-]. by apply Hfirst.
Qed.

Lemma trim_trimmed (raw : string) : Spec.trimmed raw (Js.trim raw).
Proof.
  unfold Js.trim.
  destruct (trimStart_split raw) as (l & Hraw & Hl & Hf).
  destruct (trimStart_split (String.rev (Js.trimStart raw))) as (l2 & Hrev & Hl2 & Hf2).
  set (t := Js.trimStart raw) in *.
  set (t' := Js.trimStart (String.rev t)) in *.
  assert (Ht : t = String.rev t' +:+ String.rev l2).
  { rewrite <- (rev_involutive t) at 1. by rewrite Hrev, rev_app_distr. }
  split; [|split].
  - exists l, (String.rev l2). split; [by rewrite <- Ht | by rewrite blank_rev].
  - intros c Hc. apply Hf. rewrite Ht.
    destruct (String.rev t') as [|a x]; [done|]. by rewrite app_cons.
  - intros c Hc. apply Hf2. by rewrite <- (rev_involutive t'), first_char_rev.
Qed.

Lemma body_url_spec (b : option string) (u : string) :
  Spec.trimmed (default "" b) u -> body_url b = u.
Proof.
  intros Hu. unfold body_url. apply trim_spec.
  replace (Js.or_else (default "" b) "") with (default "" b); [done|].
  unfold Js.or_else, Js.truthy. by destruct (default "" b).
Qed.

End Trim.

(** C7: the URL of a submission is the [url] of the body without the white
    space around it.  When it is empty, does not parse or has a scheme other
    than [http:] and [https:], the submission is answered with 400 and an
    error text and changes nothing -- no record, nothing queued; otherwise
    the route creates the record with that URL and status [queued] under the
    new id, queues the id, and answers with the id and the status text. *)
Theorem create_job_validates (new_URL : string -> option URL) (now : string)
    (b : option string) (id : string) (s : State) :
  let raw := default "" b in
  (exists u, Spec.trimmed raw u) /\
  forall u, Spec.trimmed raw u ->
    let valid :=
      u <> "" /\
      exists parsed, new_URL u = Some parsed /\
                     (protocol parsed = "http:" \/ protocol parsed = "https:") in
    (~ valid -> post_job new_URL now b id s = (s, BadRequest "URL tidak valid.")) /\
    (valid ->
     exists s',
       post_job new_URL now b id s = (s', Created id "queued") /\
       jobs (store s') !! id
         = Some (mkJob id u Queued now now None None None "") /\
       (forall id', id' <> id -> jobs (store s') !! id' = jobs (store s) !! id') /\
       queue s' = queue s ++ [id] /\
       running s' = running s /\ tasks s' = tasks s).
Proof.
  intros raw. split; [exists (Js.trim raw); apply trim_trimmed|].
  intros u Hu valid. pose proof (body_url_spec b u Hu) as Hbody.
  assert (Hvalid : valid <-> negb (Js.truthy u) || negb (isValidUrl new_URL u) = false).
  { unfold valid, isValidUrl, Js.truthy. rewrite orb_false_iff, !negb_false_iff.
    rewrite negb_true_iff, String.eqb_neq. split.
    - intros [Hne (parsed & -> & Hp)]. split; [done|]. simpl.
      destruct Hp as [-> | ->]; done.
    - intros [Hne Hp]. split; [done|]. destruct (new_URL u) as [parsed|]; [|done].
      exists parsed. split; [done|]. simpl in Hp.
      rewrite !orb_true_iff, !String.eqb_eq in Hp.
      destruct Hp as [?|[?|?]]; [by left|by right|done]. }
  unfold post_job. rewrite Hbody. split.
  - intros Hinv. destruct (negb (Js.truthy u) || negb (isValidUrl new_URL u)) eqn:E; [done|].
    exfalso. by apply Hinv, Hvalid.
  - intros Hv. apply Hvalid in Hv. rewrite Hv. eexists. split; [done|]. simpl.
    rewrite lookup_insert_eq. split; [done|]. split; [|done].
    intros id' Hne. by rewrite lookup_insert_ne.
Qed.

Example create_job_examples :
  let s := initial Sample.empty_disk in
  post_job Sample.new_URL "t0" (Some "ftp://example.com/a.mp4") "j1" s
    = (s, BadRequest "URL tidak valid.") /\
  post_job Sample.new_URL "t0" (Some "   ") "j1" s = (s, BadRequest "URL tidak valid.") /\
  post_job Sample.new_URL "t0" (Some "not a url") "j1" s
    = (s, BadRequest "URL tidak valid.") /\
  post_job Sample.new_URL "t0" None "j1" s = (s, BadRequest "URL tidak valid.") /\
  (post_job Sample.new_URL "t0" (Some " https://example.com/a.mp4 ") "j1" s).2
    = Created "j1" "queued" /\
  status <$> Sample.job_of
     (post_job Sample.new_URL "t0" (Some " https://example.com/a.mp4 ") "j1" s).1 "j1"
    = Some Queued /\
  url <$> Sample.job_of
     (post_job Sample.new_URL "t0"
        (Some (String (ascii_of_nat 160) "https://example.com/a.mp4"
               +:+ String (ascii_of_nat 160) "")) "j1" s).1 "j1"
    = Some "https://example.com/a.mp4".
Proof. by vm_compute. Qed.

(** ** Output directory *)

Lemma in_list_spec (x : string) (l : list string) : in_list x l = true <-> x ∈ l.
Proof.
  unfold in_list. rewrite existsb_exists. split.
  - intros (y & Hin & Heq). apply String.eqb_eq in Heq as ->. by apply list_elem_of_In.
  - intros Hin. exists x. split; [by apply list_elem_of_In | apply String.eqb_refl].
Qed.

Lemma in_list_false (x : string) (l : list string) : in_list x l = false <-> x ∉ l.
Proof.
  rewrite <- in_list_spec. destruct (in_list x l); split; try done.
Qed.

Lemma unlinkSync_files d p :
  files (try_unlink d p) = files d \/
  (in_list p (undeletable d) = false /\
   files (try_unlink d p) = filter (fun q => negb (String.eqb q p)) (files d)).
Proof.
  unfold try_unlink, unlinkSync.
  destruct (existsSync d p); simpl; [|by left].
  destruct (in_list p (undeletable d)); simpl; [by left | by right].
Qed.

Lemma try_unlink_undeletable d p : undeletable (try_unlink d p) = undeletable d.
Proof. unfold try_unlink, unlinkSync. by destruct (_ && _). Qed.

(** a deletion that fails leaves the disk as it is *)
Lemma try_unlink_refused d p : in_list p (undeletable d) = true -> try_unlink d p = d.
Proof.
  intros H. unfold try_unlink, unlinkSync. rewrite H.
  by rewrite andb_false_r.
Qed.

Lemma undeletable_directory d p :
  in_list p (undeletable d) = false -> isDirectory d p = false.
Proof.
  unfold undeletable, in_list, isDirectory, in_list. rewrite existsb_app.
  by intros [? _]%orb_false_iff.
Qed.

(** after the attempt, a file that may be removed is gone *)
Lemma try_unlink_gone d p :
  in_list p (undeletable d) = false -> existsSync (try_unlink d p) p = false.
Proof.
  intros H. pose proof (undeletable_directory d p H) as Hdir.
  unfold try_unlink, unlinkSync. rewrite H, andb_true_r.
  destruct (existsSync d p) eqn:E; simpl; [|done].
  unfold existsSync, isDirectory in *. simpl. rewrite Hdir, orb_false_r.
  apply in_list_false. rewrite list_elem_of_filter.
  intros [Hne _]. rewrite String.eqb_refl in Hne. done.
Qed.

Lemma try_unlink_other d p q :
  q <> p -> existsSync (try_unlink d p) q = existsSync d q.
Proof.
  intros Hne. unfold try_unlink, unlinkSync.
  destruct (existsSync d p && negb (in_list p (undeletable d))); simpl; [|done].
  unfold existsSync, isDirectory. simpl. f_equal. apply eq_true_iff_eq.
  rewrite !in_list_spec, list_elem_of_filter. split; [by intros [_ ?]|].
  intros Hin. split; [|done]. apply Is_true_true, negb_true_iff. by apply String.eqb_neq.
Qed.

Lemma try_unlink_shrinks d p q :
  existsSync (try_unlink d p) q = true -> existsSync d q = true.
Proof.
  destruct (decide (q = p)) as [->|Hne]; [|by rewrite try_unlink_other].
  unfold try_unlink, unlinkSync.
  destruct (existsSync d p && negb (in_list p (undeletable d))) eqn:E; simpl; [|done].
  intros _. by apply andb_true_iff in E as [? _].
Qed.

Lemma unlink_all_shrinks l d q :
  existsSync (fold_left try_unlink l d) q = true -> existsSync d q = true.
Proof.
  revert d; induction l as [|p l IH]; intros d; simpl; [done|].
  intros H. apply IH in H. by apply try_unlink_shrinks in H.
Qed.

Lemma unlink_all_undeletable l d :
  undeletable (fold_left try_unlink l d) = undeletable d.
Proof.
  revert d; induction l as [|p l IH]; intros d; simpl; [done|].
  by rewrite IH, try_unlink_undeletable.
Qed.

Lemma unlink_all_gone l d q :
  q ∈ l -> in_list q (undeletable d) = false ->
  existsSync (fold_left try_unlink l d) q = false.
Proof.
  revert d; induction l as [|p l IH]; intros d Hin Hdel; simpl.
  { by apply elem_of_nil in Hin. }
  destruct (decide (q = p)) as [->|Hne].
  - destruct (existsSync (fold_left try_unlink l (try_unlink d p)) p) eqn:E; [|done].
    apply unlink_all_shrinks in E. by rewrite try_unlink_gone in E.
  - apply IH; [|by rewrite try_unlink_undeletable].
    apply elem_of_cons in Hin as [?|?]; done.
Qed.


(** ** Multi-file delivery *)



Section Delivery.

Context (new_URL : string -> option URL) (cfg : Config).

Lemma run_task_cons st t now ev evs :
  run_task new_URL cfg st t ((now, ev) :: evs)
  = continue new_URL cfg (t_id t) (t_url t) (task_step new_URL cfg now st t ev) evs.
Proof. simpl. by destruct (task_step new_URL cfg now st t ev) as [st' [ph|]]. Qed.



Lemma file_events_app tr1 tr2 :
  file_events (tr1 ++ tr2) = file_events tr1 ++ file_events tr2.
Proof. apply omap_app. Qed.



End Delivery.




(** ** Cleanup timer *)

Section Cleanup.

Context (new_URL : string -> option URL) (cfg : Config).

Lemma timers_catch now id e st : timers (catch cfg now id e st).1 = timers st.
Proof. unfold catch. simpl. apply setJob_rest. Qed.

Lemma timers_deliver now id all sent rest st :
  timers (deliver cfg now id all sent rest st).1 = timers st.
Proof. unfold deliver. destruct rest; simpl; [apply setJob_rest | done]. Qed.

Lemma task_step_multi now st t ev :
  multi_phase (phase t) = true ->
  timers (task_step new_URL cfg now st t ev).1 = timers st /\
  forall ph, (task_step new_URL cfg now st t ev).2 = Some ph -> multi_phase ph = true.
Proof.
  intros Hm. unfold task_step.
  destruct (phase t) as [p|pr|p all|p all sent fp rest|p all|p fp|p fp|p] eqn:Hp;
    try done; destruct ev as [r|s|s|e|code]; simpl;
    try (split; [done | by intros ph [= <-]]).
  - destruct (settle_message p r).
    + rewrite timers_catch. split; [done|]. by intros ph [= <-].
    + rewrite timers_deliver. split; [done|]. unfold deliver.
      destruct all; simpl; by intros ph [= <-].
  - destruct (settle_upload p r).
    + rewrite timers_catch. split; [done|]. by intros ph [= <-].
    + rewrite timers_deliver. split; [done|]. unfold deliver.
      destruct rest; simpl; by intros ph [= <-].
  - destruct (settle_message p r); [|by split].
    rewrite timers_catch. split; [done|]. by intros ph [= <-].
Qed.

Lemma run_task_multi evs :
  forall st t, multi_phase (phase t) = true ->
               timers (run_task new_URL cfg st t evs).1 = timers st.
Proof.
  induction evs as [|[now ev] evs IH]; intros st t Hm; [done|].
  simpl. destruct (task_step_multi now st t ev Hm) as [Htm Hph].
  destruct (task_step new_URL cfg now st t ev) as [st' [ph|]]; simpl in *; [|done].
  rewrite IH; [done|]. simpl. by apply Hph.
Qed.

End Cleanup.

Lemma delivered_reachable u :
  reachable Sample.new_URL Sample.cfg Sample.empty_disk (Sample.delivered u).
Proof. constructor; [apply uploading_reachable | done]. Qed.

(** C9: when the completion notification of a single-file job is accepted,
    the job being [done], one timer is set for that job, after
    [max(1, AUTO_CLEANUP_MINUTES)] minutes in milliseconds, and the
    invocation ends.  When a timer fires it is spent; the record is looked
    up then, and the disk changes only by the attempt to delete its
    [file_path] when that is set and exists, an attempt that leaves the disk
    as it is when it fails.  No step of the delivery of a multi-file result
    sets a timer.  [server.js] sets the same timer. *)
Theorem deferred_cleanup (new_URL : string -> option URL) (cfg : Config)
    (d : Disk) (s : State) (now : string) (tid : nat) (t : Task) (p : Pending)
    (fp : string) (r : Reply) :
  reachable new_URL cfg d s ->
  tasks s !! tid = Some t -> phase t = AwaitDone p fp ->
  settle_message p r = None ->
  let s' := step new_URL cfg now s (Resume tid (Settles r)) in
  let delay := Z.max 1 (AUTO_CLEANUP_MINUTES cfg) * 60 * 1000 in
  (exists j, jobs (store s) !! t_id t = Some j /\ status j = Done /\
             jobs (store s') !! t_id t = Some j) /\
  timers (store s') = timers (store s) ++ [(delay, t_id t)] /\
  60000 <= delay /\
  tasks s' !! tid = None /\
  (forall s0 now0 n ms id,
     timers (store s0) !! n = Some (ms, id) ->
     let s1 := step new_URL cfg now0 s0 (TimerFires n) in
     let d0 := disk (store s0) in
     jobs (store s1) = jobs (store s0) /\
     timers (store s1) = delete n (timers (store s0)) /\
     disk (store s1) =
       match jobs (store s0) !! id with
       | Some cur =>
           match file_path cur with
           | Some f => if Js.truthy f && existsSync d0 f then try_unlink d0 f else d0
           | None => d0
           end
       | None => d0
       end /\
     (forall f, in_list f (undeletable d0) = true -> try_unlink d0 f = d0) /\
     (forall f, in_list f (undeletable d0) = false ->
                existsSync (try_unlink d0 f) f = false)) /\
  (forall now0 id u result st,
     exists p0 all, (on_result cfg now0 id u (FileList result) st).2
                    = Some (AwaitCount p0 all) /\
     timers (on_result cfg now0 id u (FileList result) st).1 = timers st /\
     forall evs,
       timers (run_task new_URL cfg (on_result cfg now0 id u (FileList result) st).1
                 (mkTask id u (AwaitCount p0 all)) evs).1 = timers st) /\
  (forall st0, ServerJs.task_step cfg now st0 t (Settles r)
               = ServerJs.Next (setTimeout delay (t_id t) st0) None).
Proof.
  intros Hreach Ht Hp Hr s' delay.
  destruct (life_task _ (reachable_life _ _ _ _ Hreach) _ _ Ht) as (j & Hj & Hs & _).
  rewrite Hp in Hs. simpl in Hs.
  assert (Hs' : s' = finally tid (with_store (setTimeout delay (t_id t) (store s)) s)).
  { subst s'. simpl. unfold resume. rewrite Ht. unfold task_step. by rewrite Hp, Hr. }
  split; [|split; [|split; [|split; [|split; [|split]]]]].
  - exists j. by rewrite Hs'.
  - by rewrite Hs'.
  - subst delay. lia.
  - rewrite Hs'. simpl. apply lookup_delete_eq.
  - intros s0 now0 n ms id Hn s1 d0. subst s1. simpl. rewrite Hn. simpl.
    split; [by rewrite jobs_cleanup|].
    split; [|split; [|split]].
    + unfold cleanup. simpl. destruct (jobs (store s0) !! id) as [cur|]; [|done].
      destruct (file_path cur); [|done]. by destruct (_ && _).
    + unfold cleanup. simpl. destruct (jobs (store s0) !! id) as [cur|]; [|done].
      destruct (file_path cur); [|done]. by destruct (_ && _).
    + intros f. apply try_unlink_refused.
    + intros f. apply try_unlink_gone.
  - intros now0 id u result st. unfold on_result. do 2 eexists. split; [done|].
    cbn [fst emit timers]. split.
    + by rewrite !(proj1 (proj2 (setJob_rest _ _ _ _))).
    + intros evs. rewrite run_task_multi by done. cbn [emit timers].
      by rewrite !(proj1 (proj2 (setJob_rest _ _ _ _))).
  - intros st0. unfold ServerJs.task_step. by rewrite Hp, Hr.
Qed.

Lemma deferred_cleanup_witness :
  timers (store (step Sample.new_URL Sample.cfg "t6"
                   (Sample.delivered "https://example.com/a.mp4")
                   (Resume 0 (Settles Sample.ok))))
  = [] ++ [(Z.max 1 60 * 60 * 1000, "j1")].
Proof.
  exact (proj1 (proj2 (deferred_cleanup Sample.new_URL Sample.cfg Sample.empty_disk
    (Sample.delivered "https://example.com/a.mp4") "t6" 0
    (mkTask "j1" "https://example.com/a.mp4"
       (AwaitDone Requested "/srv/downloads/job_j1/a.mp4"))
    Requested "/srv/downloads/job_j1/a.mp4" Sample.ok
    (delivered_reachable _) eq_refl eq_refl eq_refl))).
Defined.

(** ** Status route *)

Lemma or_else_empty (s : string) : Js.or_else s "" = s.
Proof. unfold Js.or_else, Js.truthy. by destruct s. Qed.

Lemma refs_get_job id r :
  Refs.refs (Refs.get_job id r).1 = Refs.refs r /\
  exists extra, Refs.heap (Refs.get_job id r).1 = Refs.heap r ++ extra.
Proof.
  unfold Refs.get_job.
  destruct (Refs.refs r !! id) as [l|]; [|split; [done|exists []; by rewrite app_nil_r]].
  destruct (Refs.heap r !! l) as [job|]; [|split; [done|exists []; by rewrite app_nil_r]].
  simpl. split; [done|]. by eexists.
Qed.

Lemma refs_reads ids :
  forall r, Refs.refs (Refs.reads ids r) = Refs.refs r /\
            exists extra, Refs.heap (Refs.reads ids r) = Refs.heap r ++ extra.
Proof.
  induction ids as [|id ids IH]; intros r; simpl.
  { split; [done|]. exists []. by rewrite app_nil_r. }
  destruct (IH (Refs.get_job id r).1) as (Hrefs & extra & Hheap).
  destruct (refs_get_job id r) as (Hrefs1 & extra1 & Hheap1).
  split; [congruence|]. exists (extra1 ++ extra).
  unfold Refs.reads in *. simpl. by rewrite Hheap, Hheap1, app_assoc.
Qed.

(** C10: the status route allocates the object it answers with and writes
    to nothing else.  After any number of requests the [jobs] map holds the
    references it held, every object allocated before is as it was, and so
    every id stands for the record it stood for, its log in full; the answer
    is that record with the last 8000 characters of the log.  On the state
    kept by value, a request changes nothing. *)
Theorem status_reads_leave_records (ids : list string) (r : Refs.Registry) :
  let r' := Refs.reads ids r in
  Refs.refs r' = Refs.refs r /\
  (forall l o, Refs.heap r !! l = Some o -> Refs.heap r' !! l = Some o) /\
  (forall id job, Refs.view r id = Some job -> Refs.view r' id = Some job) /\
  (forall id job,
     Refs.view r id = Some job ->
     (Refs.get_job id r).2
       = JobJson (mkJob (job_id job) (url job) (status job) (created_at job)
                    (updated_at job) (file_path job) (file_name job) (error job)
                    (Js.slice_last (Z.to_nat 8000) (log job)))) /\
  (forall new_URL cfg (s : State) now id,
     step new_URL cfg now s (HttpGet id) = s /\
     forall job, jobs (store s) !! id = Some job ->
       (get_job id s).2
         = JobJson (mkJob (job_id job) (url job) (status job) (created_at job)
                      (updated_at job) (file_path job) (file_name job) (error job)
                      (Js.slice_last (Z.to_nat 8000) (log job)))).
Proof.
  intros r'. destruct (refs_reads ids r) as (Hrefs & extra & Hheap). fold r' in Hrefs, Hheap.
  assert (Hkeep : forall l o, Refs.heap r !! l = Some o -> Refs.heap r' !! l = Some o).
  { intros l o Hl. rewrite Hheap. by apply lookup_app_l_Some. }
  split; [done|]. split; [done|]. split; [|split].
  - intros id job. unfold Refs.view. rewrite Hrefs.
    destruct (Refs.refs r !! id) as [l|]; [|done]. apply Hkeep.
  - intros id job. unfold Refs.view, Refs.get_job.
    destruct (Refs.refs r !! id) as [l|]; [|done]. intros Hl. rewrite Hl. simpl.
    rewrite lookup_app_r by done. rewrite Nat.sub_diag. simpl.
    by rewrite or_else_empty.
  - intros new_URL cfg s now id. simpl. unfold get_job.
    destruct (jobs (store s) !! id) as [job0|]; simpl; [|done].
    split; [done|]. intros job [= <-]. by rewrite or_else_empty.
Qed.

(** * Further properties of the code *)

(** ** Records over time *)

Section Growth.

Context (new_URL : string -> option URL) (cfg : Config).

Lemma extends_refl j : extends j j.
Proof. repeat split. exists "". by rewrite app_empty_r. Qed.

Lemma extends_trans j1 j2 j3 : extends j1 j2 -> extends j2 j3 -> extends j1 j3.
Proof.
  intros (Hi & Hu & Hc & m1 & Hl) (Hi' & Hu' & Hc' & m2 & Hl').
  split; [congruence|]. split; [congruence|]. split; [congruence|].
  exists (m1 +:+ m2). by rewrite Hl', Hl, string_app_assoc.
Qed.

Lemma grows_refl st : grows st st.
Proof. intros id j Hj. exists j. split; [done | apply extends_refl]. Qed.

Lemma grows_trans st1 st2 st3 : grows st1 st2 -> grows st2 st3 -> grows st1 st3.
Proof.
  intros H12 H23 id j Hj. destruct (H12 _ _ Hj) as (j2 & Hj2 & He2).
  destruct (H23 _ _ Hj2) as (j3 & Hj3 & He3). exists j3. split; [done|].
  by apply (extends_trans _ j2).
Qed.

Lemma grows_jobs st st' : jobs st' = jobs st -> grows st st'.
Proof. intros H id j Hj. exists j. rewrite H. split; [done | apply extends_refl]. Qed.

Lemma grows_setJob id p now st : grows st (setJob id p now st).
Proof.
  intros id' j Hj. rewrite jobs_setJob. case_decide; rewrite Hj; simpl.
  - eexists. split; [done|]. repeat split. exists "". by rewrite app_empty_r.
  - exists j. split; [done | apply extends_refl].
Qed.

Lemma grows_pushLog id s now st : grows st (pushLog id s now st).
Proof.
  intros id' j Hj. rewrite jobs_pushLog. case_decide; rewrite Hj; simpl.
  - eexists. split; [done|]. repeat split. simpl. exists s. by rewrite or_else_empty.
  - exists j. split; [done | apply extends_refl].
Qed.

Lemma grows_catch now id e st : grows st (catch cfg now id e st).1.
Proof.
  unfold catch. simpl. eapply grows_trans; [apply grows_setJob|]. by apply grows_jobs.
Qed.

Lemma grows_deliver now id all sent rest st :
  grows st (deliver cfg now id all sent rest st).1.
Proof.
  unfold deliver. destruct rest; simpl; [|by apply grows_jobs].
  eapply grows_trans; [apply grows_setJob|]. by apply grows_jobs.
Qed.

Lemma grows_on_result now id u r st : grows st (on_result cfg now id u r st).1.
Proof.
  unfold on_result. destruct r; simpl;
    (eapply grows_trans; [apply grows_setJob|];
     eapply grows_trans; [apply grows_setJob|]; by apply grows_jobs).
Qed.

Lemma grows_task_step now st t ev : grows st (task_step new_URL cfg now st t ev).1.
Proof.
  unfold task_step.
  destruct (phase t) as [p|pr|p all|p all sent fp rest|p all|p fp|p fp|p];
    destruct ev as [r|s|s|e|code]; simpl; try apply grows_refl;
    try apply grows_pushLog; try apply grows_catch.
  - destruct (settle_message p r); [apply grows_catch|].
    unfold runDownload. destruct (classify new_URL (t_url t));
      [by apply grows_jobs | apply grows_catch].
  - destruct (on_close cfg (disk st) (t_id t) pr code);
      [apply grows_on_result | apply grows_catch].
  - destruct (settle_message p r); [apply grows_catch | apply grows_deliver].
  - destruct (settle_upload p r); [apply grows_catch|].
    eapply grows_trans; [|apply grows_deliver]. by apply grows_jobs.
  - destruct (settle_message p r); [apply grows_catch | apply grows_refl].
  - destruct (settle_upload p r); [apply grows_catch|]. simpl.
    eapply grows_trans; [apply grows_setJob|]. by apply grows_jobs.
  - destruct (settle_message p r); [apply grows_catch | by apply grows_jobs].
Qed.

Lemma grows_step now s ev :
  admissible s ev -> grows (store s) (store (step new_URL cfg now s ev)).
Proof.
  intros Hadm. destruct ev as [b id|id|  |tid ev|n|p]; simpl.
  - unfold post_job. destruct (_ || _); [apply grows_refl|]. simpl.
    intros id' j Hj. exists j. split; [|apply extends_refl].
    simpl in Hadm. unfold with_jobs. simpl.
    rewrite lookup_insert_ne; [done|]. intros Heq. congruence.
  - unfold get_job. destruct (jobs (store s) !! id); apply grows_refl.
  - destruct (immediates s); [apply grows_refl|]. unfold processQueue. simpl.
    destruct (running s >=? MAX_CONCURRENT cfg); [apply grows_refl|].
    destruct (queue s) as [|id q]; [apply grows_refl|].
    destruct (jobs (store s) !! id); simpl; [|apply grows_refl].
    eapply grows_trans; [apply grows_setJob|]. by apply grows_jobs.
  - unfold resume. destruct (tasks s !! tid) as [t|]; [|apply grows_refl].
    pose proof (grows_task_step now (store s) t ev) as H.
    by destruct (task_step new_URL cfg now (store s) t ev) as [st' [ph|]].
  - destruct (timers (store s) !! n) as [[ms id]|]; [|apply grows_refl].
    apply grows_jobs. simpl. by rewrite jobs_cleanup.
  - by apply grows_jobs.
Qed.

End Growth.

(** X2: while [nanoid] returns unused ids, a record once created is never
    removed from the registry, keeps its id, its URL and its creation time,
    and its log only grows at the end, whatever events the server handles. *)
Theorem records_persist (new_URL : string -> option URL) (cfg : Config)
    (evs : list (string * Event)) (s : State) (id : string) (j : Job) :
  admissible_run new_URL cfg s evs ->
  jobs (store s) !! id = Some j ->
  exists j' more,
    jobs (store (run new_URL cfg s evs)) !! id = Some j' /\
    job_id j' = job_id j /\ url j' = url j /\ created_at j' = created_at j /\
    log j' = log j +:+ more.
Proof.
  revert s j. induction evs as [|[now ev] evs IH]; intros s j Hadm Hj.
  - exists j, "". simpl. by rewrite app_empty_r.
  - destruct Hadm as [Ha Hadm]. simpl.
    destruct (grows_step new_URL cfg now s ev Ha _ _ Hj) as (j1 & Hj1 & He1).
    destruct (IH _ _ Hadm Hj1) as (j' & more & Hj' & Hi & Hu & Hc & Hl).
    assert (He : extends j j').
    { apply (extends_trans _ j1); [done|]. repeat split; try done. by exists more. }
    destruct He as (? & ? & ? & more' & ?). by exists j', more'.
Qed.

Lemma records_persist_witness :
  exists j' more,
    jobs (store (run Sample.new_URL Sample.cfg
                   (Sample.admitted "https://example.com/a.mp4")
                   [("t2", Resume 0 (Settles Sample.ok));
                    ("t3", Resume 0 (StdoutData "[#1 12%]"))])) !! "j1" = Some j' /\
    job_id j' = "j1" /\ url j' = "https://example.com/a.mp4" /\
    created_at j' = "t0" /\ log j' = "" +:+ more.
Proof.
  exact (records_persist Sample.new_URL Sample.cfg
    [("t2", Resume 0 (Settles Sample.ok)); ("t3", Resume 0 (StdoutData "[#1 12%]"))]
    (Sample.admitted "https://example.com/a.mp4") "j1"
    (mkJob "j1" "https://example.com/a.mp4" Downloading "t0" "t1" None None None "")
    (conj I (conj I I)) eq_refl).
Defined.

(** ** Status graph *)

Lemma transition_refl a : transition a a.
Proof. by left. Qed.

Lemma transition_write (t : Task) (ph : Phase) :
  follows (phase t) ph ->
  (exists p all, ph = AwaitCount p all) \/ (exists p fp, ph = AwaitUpload p fp) \/
  (exists p all, ph = AwaitPlaylistDone p all) \/ (exists p fp, ph = AwaitDone p fp) \/
  (exists p, ph = AwaitFailure p) ->
  transition (phase_status (phase t)) (phase_status ph).
Proof.
  intros Hf Hph. unfold follows in Hf.
  destruct Hph as [(p & all & ->)|[(p & fp & ->)|[(p & all & ->)|[(p & fp & ->)|(p & ->)]]]];
    simpl in *; try (rewrite Hf; by right).
  destruct (phase t); simpl; (by left) || (by right).
Qed.

(** X1: in every state the server reaches, one event moves the status of a
    record along an edge of the graph queued -> downloading -> uploading ->
    done, or from downloading, uploading or done into error, or leaves it; a
    record in error stays in error, and no event removes a record. *)
Theorem status_follows_graph (new_URL : string -> option URL) (cfg : Config)
    (d : Disk) (s : State) (now : string) (ev : Event) (id : string) (j : Job) :
  reachable new_URL cfg d s -> admissible s ev ->
  jobs (store s) !! id = Some j ->
  exists j', jobs (store (step new_URL cfg now s ev)) !! id = Some j' /\
             transition (status j) (status j').
Proof.
  intros Hreach Hadm Hj.
  pose proof (reachable_life _ _ _ _ Hreach) as [Hok Htask Huniq Hnd Hq].
  assert (Hsame : forall s', jobs (store s') = jobs (store s) ->
            exists j', jobs (store s') !! id = Some j' /\ transition (status j) (status j')).
  { intros s' Hs'. exists j. rewrite Hs'. split; [done | apply transition_refl]. }
  destruct ev as [b pid|gid|  |tid tev|n|p]; simpl.
  - unfold post_job. destruct (_ || _); [by apply Hsame|]. simpl.
    exists j. split; [|apply transition_refl]. simpl in Hadm.
    rewrite lookup_insert_ne; [done|]. intros Heq. congruence.
  - unfold get_job. destruct (jobs (store s) !! gid); by apply Hsame.
  - destruct (immediates s); [by apply Hsame|]. unfold processQueue. simpl.
    destruct (running s >=? MAX_CONCURRENT cfg); [by apply Hsame|].
    destruct (queue s) as [|qid q] eqn:Hqueue; [by apply Hsame|].
    destruct (jobs (store s) !! qid) as [job|] eqn:Hjob; simpl; [|by apply Hsame].
    rewrite jobs_setJob. case_decide as Hid.
    + subst qid. rewrite Hj. simpl. eexists. split; [done|]. simpl.
      destruct (Hq id) as (j0 & Hj0 & Hs0); [left|].
      assert (j0 = j) as -> by congruence. rewrite Hs0. by right.
    + exists j. split; [done | apply transition_refl].
  - unfold resume. destruct (tasks s !! tid) as [t|] eqn:Ht; [|by apply Hsame].
    pose proof (task_step_record new_URL cfg now (store s) t tev) as Hrec.
    assert (Hgoal : exists j', (task_step new_URL cfg now (store s) t tev).1.(jobs) !! id
                               = Some j' /\ transition (status j) (status j')).
    { destruct Hrec as (Hframe & _ & Hown).
      destruct (decide (id = t_id t)) as [->|Hne].
      2:{ exists j. rewrite Hframe by done. split; [done | apply transition_refl]. }
      destruct (Hown j Hj) as (j' & Hj' & [[Hk _]|(ph & Hnext & Hw & Hf)]).
      - exists j'. split; [done|]. destruct Hk as (-> & _). apply transition_refl.
      - exists j'. split; [done|].
        destruct (Htask _ _ Ht) as (j0 & Hj0 & Hs0 & _).
        assert (j0 = j) as -> by congruence.
        destruct Hw as (Hs' & _ & _ & Hw). rewrite Hs0, Hs'.
        apply transition_write; [done|].
        destruct ph; try done; eauto 10. }
    by destruct (task_step new_URL cfg now (store s) t tev) as [st' [ph|]].
  - destruct (timers (store s) !! n) as [[ms tid]|]; [|by apply Hsame].
    apply Hsame. simpl. by rewrite jobs_cleanup.
  - by apply Hsame.
Qed.

Lemma status_follows_graph_witness :
  exists j', jobs (store (step Sample.new_URL Sample.cfg "t6"
                            (Sample.delivered "https://example.com/a.mp4")
                            (Resume 0 (Settles Sample.refused)))) !! "j1" = Some j' /\
             transition Done (status j').
Proof.
  exact (status_follows_graph Sample.new_URL Sample.cfg Sample.empty_disk
    (Sample.delivered "https://example.com/a.mp4") "t6"
    (Resume 0 (Settles Sample.refused)) "j1"
    (mkJob "j1" "https://example.com/a.mp4" Done "t0" "t5"
       (Some "/srv/downloads/job_j1/a.mp4") (Some "a.mp4") None "")
    (delivered_reachable _) I eq_refl).
Defined.

(** ** Scheduler bookkeeping *)

Section Sched.

Context (new_URL : string -> option URL) (cfg : Config).

Lemma record_step_origin st t st' next id j' :
  record_step st t st' next -> jobs st' !! id = Some j' ->
  exists j, jobs st !! id = Some j /\ url j' = url j.
Proof.
  intros (Hframe & Hnone & Hown) Hj'.
  destruct (decide (id = t_id t)) as [->|Hne].
  2:{ exists j'. by rewrite <- Hframe. }
  destruct (jobs st !! t_id t) as [j|] eqn:Hj; [|rewrite Hnone in Hj'; done].
  exists j. split; [done|].
  destruct (Hown j eq_refl) as (j'' & Hj'' & Hcase).
  assert (j'' = j') as -> by congruence.
  destruct Hcase as [[Hk _]|(ph & _ & Hw & _)].
  - by destruct Hk as (_ & _ & _ & _ & _ & ?).
  - by destruct Hw as (_ & _ & ? & _).
Qed.

Lemma grows_is_Some st st' id :
  grows st st' -> is_Some (jobs st !! id) -> is_Some (jobs st' !! id).
Proof. intros Hg [j Hj]. destruct (Hg _ _ Hj) as (j' & Hj' & _). eauto. Qed.

Lemma sched_inv_initial d : sched_inv new_URL cfg (initial d).
Proof.
  split; simpl; try done.
  - intros id Hid. by apply elem_of_nil in Hid.
  - lia.
Qed.

Lemma sched_inv_post now b id s :
  sched_inv new_URL cfg s -> sched_inv new_URL cfg (post_job new_URL now b id s).1.
Proof.
  intros Hinv. pose proof Hinv as [Hq Ht Hv Hw]. unfold post_job.
  destruct (negb (Js.truthy (body_url b)) || negb (isValidUrl new_URL (body_url b)))
    eqn:Hcheck; [done|].
  apply orb_false_iff in Hcheck as [_ Hvalid]. apply negb_false_iff in Hvalid.
  split; simpl.
  - intros id' Hin. rewrite lookup_insert. case_decide; [eauto|].
    apply elem_of_app in Hin as [Hin|Hin]; [by apply Hq|].
    apply list_elem_of_singleton in Hin. congruence.
  - intros tid t Htid. destruct (Ht _ _ Htid) as [Hs Hu]. split; [|done].
    rewrite lookup_insert. case_decide; [eauto | done].
  - intros id' j. rewrite lookup_insert. case_decide; [by intros [= <-] | apply Hv].
  - rewrite length_app. simpl. lia.
Qed.

Lemma sched_inv_processQueue now s n :
  sched_inv new_URL cfg s -> immediates s = S n ->
  sched_inv new_URL cfg
    (processQueue cfg now
       (mkState (store s) (running s) (queue s) n (tasks s) (next_task s))).
Proof.
  intros [Hq Ht Hv Hw] Hn. unfold processQueue. simpl.
  destruct (running s >=? MAX_CONCURRENT cfg) eqn:Hgate.
  { split; simpl; try done. lia. }
  destruct (queue s) as [|id q] eqn:Hqueue.
  { split; simpl; try done. lia. }
  destruct (Hq id) as [job Hjob]; [left|]. rewrite Hjob.
  simpl in Hw. split; simpl.
  - intros id' Hin. rewrite jobs_setJob. case_decide; [subst; by rewrite Hjob|].
    apply Hq. by right.
  - intros tid t. rewrite lookup_insert. case_decide.
    + intros [= <-]. simpl. rewrite jobs_setJob, decide_True, Hjob by done.
      split; [eauto | by apply (Hv id)].
    + intros Htid. destruct (Ht _ _ Htid) as [Hs Hu]. split; [|done].
      rewrite jobs_setJob. case_decide as Hid; [|done].
      destruct Hs as [j Hj]. rewrite Hj. eauto.
  - intros id' j'. rewrite jobs_setJob. case_decide; [|apply Hv].
    subst. rewrite Hjob. intros [= <-]. simpl. by apply (Hv id).
  - lia.
Qed.

Lemma sched_inv_resume now tid ev s :
  sched_inv new_URL cfg s -> sched_inv new_URL cfg (resume new_URL cfg now tid ev s).
Proof.
  intros Hinv. pose proof Hinv as [Hq Ht Hv Hw]. unfold resume.
  destruct (tasks s !! tid) as [t|] eqn:Htid; [|done].
  pose proof (task_step_record new_URL cfg now (store s) t ev) as Hrec.
  pose proof (grows_task_step new_URL cfg now (store s) t ev) as Hg.
  assert (Hvalid : forall id j,
            (task_step new_URL cfg now (store s) t ev).1.(jobs) !! id = Some j ->
            isValidUrl new_URL (url j) = true).
  { intros id j Hj. destruct (record_step_origin _ _ _ _ _ _ Hrec Hj) as (j0 & Hj0 & ->).
    by apply (Hv id). }
  destruct (task_step new_URL cfg now (store s) t ev) as [st' [ph|]]; simpl in *.
  - split; simpl; try done.
    + intros id Hin. by apply (grows_is_Some (store s)), Hq.
    + intros tid' t'. rewrite lookup_insert. case_decide.
      * intros [= <-]. simpl. destruct (Ht _ _ Htid) as [Hs Hu].
        split; [by apply (grows_is_Some (store s)) | done].
      * intros Ht'. destruct (Ht _ _ Ht') as [Hs Hu].
        split; [by apply (grows_is_Some (store s)) | done].
  - split; simpl; try done.
    + intros id Hin. by apply (grows_is_Some (store s)), Hq.
    + intros tid' t'. rewrite lookup_delete. case_decide; [done|].
      intros Ht'. destruct (Ht _ _ Ht') as [Hs Hu].
      split; [by apply (grows_is_Some (store s)) | done].
    + lia.
Qed.

Lemma sched_inv_step now s ev :
  sched_inv new_URL cfg s -> sched_inv new_URL cfg (step new_URL cfg now s ev).
Proof.
  intros Hinv. destruct ev as [b id|id|  |tid ev|n|p]; simpl.
  - by apply sched_inv_post.
  - unfold get_job. by destruct (jobs (store s) !! id).
  - destruct (immediates s) as [|n] eqn:Hi; [done|]. by apply sched_inv_processQueue.
  - by apply sched_inv_resume.
  - destruct (timers (store s) !! n) as [[ms id]|]; [|done].
    destruct Hinv as [Hq Ht Hv Hw]. split; simpl; rewrite ?jobs_cleanup; done.
  - by destruct Hinv.
Qed.

Lemma sched_inv_run s evs :
  sched_inv new_URL cfg s -> sched_inv new_URL cfg (run new_URL cfg s evs).
Proof.
  revert s; induction evs as [|[now ev] evs IH]; intros s H; simpl; [done|].
  apply IH. by apply sched_inv_step.
Qed.

Lemma run_snoc s evs now ev :
  run new_URL cfg s (evs ++ [(now, ev)])
  = step new_URL cfg now (run new_URL cfg s evs) ev.
Proof. unfold run. by rewrite fold_left_app. Qed.

End Sched.

(** X4: whatever events the server handles, every queued id has a record,
    and a drive step is pending for each queued job there is a free slot
    for: the smaller of the queue length and [MAX_CONCURRENT - running] never
    exceeds the number of scheduled [setImmediate(processQueue)] callbacks.
    So a job never sits in the queue beside a free slot with nothing
    scheduled to start it. *)
Theorem drive_step_pending (new_URL : string -> option URL) (cfg : Config)
    (d : Disk) (evs : list (string * Event)) :
  let s := run new_URL cfg (initial d) evs in
  Z.min (Z.of_nat (List.length (queue s))) (MAX_CONCURRENT cfg - running s)
    <= Z.of_nat (immediates s) /\
  (queue s <> [] -> running s < MAX_CONCURRENT cfg -> (0 < immediates s)%nat) /\
  (forall id, id ∈ queue s -> is_Some (jobs (store s) !! id)).
Proof.
  intros s.
  pose proof (sched_inv_run new_URL cfg _ evs (sched_inv_initial new_URL cfg d))
    as [Hq _ _ Hw]. fold s in Hq, Hw.
  split; [done|]. split; [|done].
  intros Hne Hfree. destruct (queue s); [done|]. simpl in Hw. lia.
Qed.

Lemma drop_cons_inv (k : nat) (l : list string) (x : string) (q : list string) :
  drop k l = x :: q -> l !! k = Some x /\ drop (S k) l = q.
Proof.
  intros H. assert (Hk : l !! k = Some x).
  { rewrite <- (Nat.add_0_r k), <- lookup_drop, H. done. }
  split; [done|]. rewrite (drop_S _ _ _ Hk) in H. congruence.
Qed.

(** X3: the queue is first-in first-out.  After any events the queue holds
    the ids of the accepted submissions, in the order they were accepted,
    without those already admitted; the n-th invocation that was started is
    the one for the n-th accepted submission. *)
Theorem queue_is_fifo (new_URL : string -> option URL) (cfg : Config)
    (d : Disk) (evs : list (string * Event)) :
  let s := run new_URL cfg (initial d) evs in
  queue s = drop (next_task s) (submitted new_URL evs) /\
  (next_task s <= List.length (submitted new_URL evs))%nat /\
  (forall tid t, tasks s !! tid = Some t ->
                 submitted new_URL evs !! tid = Some (t_id t)).
Proof.
  induction evs as [|[now ev] evs IH] using rev_ind; [done|].
  pose proof (sched_inv_run new_URL cfg _ evs (sched_inv_initial new_URL cfg d))
    as [Hrec _ _ _].
  rewrite run_snoc. unfold submitted. rewrite omap_app. fold (submitted new_URL evs).
  set (s := run new_URL cfg (initial d) evs) in *.
  set (sub := submitted new_URL evs) in *.
  simpl in IH. destruct IH as (Hq & Hk & Htasks).
  assert (Hkeep : forall s', queue s' = queue s -> next_task s' = next_task s ->
            (forall tid t', tasks s' !! tid = Some t' ->
               exists t, tasks s !! tid = Some t /\ t_id t' = t_id t) ->
            queue s' = drop (next_task s') (sub ++ []) /\
            (next_task s' <= List.length (sub ++ []))%nat /\
            (forall tid t, tasks s' !! tid = Some t -> (sub ++ []) !! tid = Some (t_id t))).
  { intros s' Hq' Hn' Ht'. rewrite app_nil_r, Hq', Hn'. split; [done|]. split; [done|].
    intros tid t' H. destruct (Ht' _ _ H) as (t & Ht & ->). by apply Htasks. }
  destruct ev as [b id|id|  |tid tev|n|p]; simpl.
  - unfold post_job, accepts.
    destruct (Js.truthy (body_url b) && isValidUrl new_URL (body_url b)) eqn:Hacc.
    + apply andb_true_iff in Hacc as [-> ->]. simpl.
      split; [|split].
      * rewrite Hq. by rewrite drop_app_le.
      * rewrite length_app. simpl. lia.
      * intros tid t Ht. apply lookup_app_l_Some. by apply Htasks.
    + replace (negb (Js.truthy (body_url b)) || negb (isValidUrl new_URL (body_url b)))
        with true; [apply Hkeep; eauto|].
      symmetry. rewrite <- negb_andb. by rewrite Hacc.
  - unfold get_job. destruct (jobs (store s) !! id); apply Hkeep; eauto.
  - destruct (immediates s) as [|n]; [apply Hkeep; eauto|].
    unfold processQueue. simpl.
    destruct (running s >=? MAX_CONCURRENT cfg); [apply Hkeep; eauto|].
    destruct (queue s) as [|id q] eqn:Hqueue; [apply Hkeep; simpl; eauto|].
    destruct (Hrec id) as [job Hjob]; [left|]. rewrite Hjob.
    symmetry in Hq. apply drop_cons_inv in Hq as [Hid Hdrop].
    rewrite app_nil_r. simpl. split; [done|]. split.
    { apply lookup_lt_Some in Hid. lia. }
    intros tid t. rewrite lookup_insert. case_decide; [|apply Htasks].
    intros [= <-]. simpl. by subst.
  - unfold resume. destruct (tasks s !! tid) as [t|] eqn:Ht; [|apply Hkeep; eauto].
    destruct (task_step new_URL cfg now (store s) t tev) as [st' [ph|]]; apply Hkeep;
      simpl; try done.
    + intros tid' t'. rewrite lookup_insert. case_decide; [|eauto].
      intros [= <-]. subst. eauto.
    + intros tid' t'. rewrite lookup_delete. case_decide; [done | eauto].
  - destruct (timers (store s) !! n) as [[ms id]|]; apply Hkeep; eauto.
  - apply Hkeep; eauto.
Qed.

(** X5: every stored URL passed [isValidUrl], so [classify] never throws on
    it: when the starting notification of an admitted job settles
    successfully, the invocation spawns exactly one engine, the one the
    router chooses for the job's URL, with that URL among its arguments,
    and waits for it; the records and the counter stay as they are. *)
Theorem start_spawns_engine (new_URL : string -> option URL) (cfg : Config)
    (d : Disk) (evs : list (string * Event)) (now : string) (tid : nat)
    (t : Task) (p : Pending) (r : Reply) :
  let s := run new_URL cfg (initial d) evs in
  tasks s !! tid = Some t -> phase t = AwaitStart p ->
  settle_message p r = None ->
  let s' := step new_URL cfg now s (Resume tid (Settles r)) in
  exists c,
    classify new_URL (t_url t) = Some c /\
    tasks s' !! tid
      = Some (mkTask (t_id t) (t_url t) (AwaitEngine (mkProc (route c) "" ""))) /\
    trace (store s')
      = trace (store s)
        ++ [Spawn (binary cfg (route c)) (spawn_args cfg (route c) (t_id t) (t_url t))] /\
    In (t_url t) (spawn_args cfg (route c) (t_id t) (t_url t)) /\
    jobs (store s') = jobs (store s) /\ running s' = running s.
Proof.
  intros s Ht Hp Hr s'.
  pose proof (sched_inv_run new_URL cfg _ evs (sched_inv_initial new_URL cfg d))
    as [_ Htask _ _]. fold s in Htask.
  destruct (Htask _ _ Ht) as [_ Hvalid].
  assert (Hc : exists c, classify new_URL (t_url t) = Some c).
  { unfold isValidUrl in Hvalid. unfold classify.
    destruct (new_URL (t_url t)); [eauto | done]. }
  destruct Hc as [c Hc]. exists c. split; [done|].
  subst s'. simpl. unfold resume. rewrite Ht. unfold task_step. rewrite Hp, Hr.
  unfold runDownload. rewrite Hc. simpl. rewrite lookup_insert_eq.
  split; [done|]. split; [done|]. split; [|done].
  destruct (route c); simpl; tauto.
Qed.

Lemma start_spawns_engine_witness :
  exists c,
    classify Sample.new_URL "https://example.com/a.mp4" = Some c /\
    tasks (step Sample.new_URL Sample.cfg "t2"
             (Sample.admitted "https://example.com/a.mp4")
             (Resume 0 (Settles Sample.ok))) !! 0%nat
      = Some (mkTask "j1" "https://example.com/a.mp4"
                (AwaitEngine (mkProc (route c) "" ""))).
Proof.
  destruct (start_spawns_engine Sample.new_URL Sample.cfg Sample.empty_disk
              [("t0", HttpPost (Some "https://example.com/a.mp4") "j1"); ("t1", Immediate)]
              "t2" 0
              (mkTask "j1" "https://example.com/a.mp4" (AwaitStart Requested))
              Requested Sample.ok eq_refl eq_refl eq_refl)
    as (c & Hc & Ht & _).
  exists c. split; [exact Hc | exact Ht].
Defined.

(** ** Engine adapters *)

Lemma regular_files_entry d dir p :
  p ∈ regular_files d dir -> entry_of dir p = true /\ isFile d p = true.
Proof.
  unfold regular_files. rewrite list_elem_of_filter. intros [H _].
  apply Is_true_true in H. by apply andb_true_iff in H.
Qed.

(** X6: an adapter's promise is fulfilled only after exit code 0: by the
    generic adapter with the non-empty path it read from the output, which
    exists; by the direct-file adapter with the first regular file among the
    entries of the job's directory; by the streaming-manifest adapter with
    its fixed output path, which exists; by the music-service adapter with
    all the regular files among the entries of the job's directory, of which
    there is at least one.  A signal (code [null]), a non-zero code or
    missing output rejects it.  The two adapters that test their path with
    [fs.existsSync] do not ask whether it is a regular file. *)
Theorem adapter_success (cfg : Config) (d : Disk) (id : string) (pr : Proc)
    (code : option Z) (r : Result) :
  on_close cfg d id pr code = inl r ->
  code = Some 0 /\
  match r with
  | SingleFile f =>
      match engine pr with
      | YtDlp => f = finalPath pr /\ f <> "" /\ existsSync d f = true
      | Aria2 => head (regular_files d (job_dir cfg id)) = Some f /\
                 isFile d f = true /\ entry_of (job_dir cfg id) f = true
      | FfmpegM3u8 => f = ffmpeg_out cfg id /\ existsSync d f = true
      | Spotdl => False
      end
  | FileList fs =>
      engine pr = Spotdl /\ fs <> [] /\ fs = regular_files d (job_dir cfg id) /\
      forall f, f ∈ fs -> isFile d f = true /\ entry_of (job_dir cfg id) f = true
  end.
Proof.
  assert (Hzero : forall c, is_zero c = true -> c = Some 0).
  { intros [c|]; simpl; [|done]. intros H. apply Z.eqb_eq in H. by subst. }
  unfold on_close, runYtDlpSingle_close, runAria2Single_close,
    runFfmpegM3u8Single_close, runSpotdlMulti_close.
  destruct (engine pr) eqn:He.
  - destruct (is_zero code) eqn:Hz; simpl; [|done].
    destruct (Js.truthy (finalPath pr)) eqn:Ht; simpl; [|done].
    destruct (existsSync d (finalPath pr)) eqn:Hex; [|done].
    intros [= <-]. split; [by apply Hzero|]. split; [done|]. split; [|done].
    intros Heq. rewrite Heq in Ht. done.
  - destruct (is_zero code) eqn:Hz; simpl; [|done].
    destruct (regular_files d (job_dir cfg id)) as [|f fs] eqn:Hfs; [done|].
    intros [= <-]. split; [by apply Hzero|].
    assert (Hin : f ∈ regular_files d (job_dir cfg id)) by (rewrite Hfs; left).
    apply regular_files_entry in Hin as [? ?]. done.
  - destruct (is_zero code) eqn:Hz; simpl; [|done].
    destruct (existsSync d (ffmpeg_out cfg id)) eqn:Hex; [|done].
    intros [= <-]. split; [by apply Hzero | done].
  - destruct (is_zero code) eqn:Hz; simpl; [|done].
    destruct (regular_files d (job_dir cfg id)) as [|f fs] eqn:Hfs; [done|].
    intros [= <-]. split; [by apply Hzero|]. split; [done|]. split; [done|].
    split; [done|]. intros f' Hin. rewrite <- Hfs in Hin.
    apply regular_files_entry in Hin as [? ?]. done.
Qed.

Lemma adapter_success_witness :
  Some 0 = Some 0 /\
  head (regular_files Sample.one_file (job_dir Sample.cfg "j1"))
    = Some "/srv/downloads/job_j1/a.mp4" /\
  isFile Sample.one_file "/srv/downloads/job_j1/a.mp4" = true /\
  entry_of (job_dir Sample.cfg "j1") "/srv/downloads/job_j1/a.mp4" = true.
Proof.
  exact (adapter_success Sample.cfg Sample.one_file "j1" (mkProc Aria2 "" "")
           (Some 0) (SingleFile "/srv/downloads/job_j1/a.mp4") eq_refl).
Defined.

Section Scan.

Context (P : string -> bool).

Lemma pick_last_none (ls : list string) (a : string) :
  Forall (fun l => P l = false) ls ->
  fold_left (fun acc l => if P l then l else acc) ls a = a.
Proof.
  intros H. revert a. induction H as [|l ls Hl _ IH]; intros a; simpl; [done|].
  by rewrite Hl.
Qed.

Lemma pick_last_some (l1 : list string) (l : string) (l2 : list string) (a : string) :
  P l = true -> Forall (fun x => P x = false) l2 ->
  fold_left (fun acc l => if P l then l else acc) (l1 ++ l :: l2) a = l.
Proof.
  intros Hl H2. rewrite fold_left_app. simpl. rewrite Hl. by apply pick_last_none.
Qed.

Lemma pick_last_cases (ls : list string) (a : string) :
  let r := fold_left (fun acc l => if P l then l else acc) ls a in
  r = a \/ (r ∈ ls /\ P r = true).
Proof.
  revert a. induction ls as [|l ls IH]; intros a; simpl; [by left|].
  destruct (P l) eqn:Hl.
  - destruct (IH l) as [->|[Hin HP]]; right; [split; [left | done]|].
    split; [by right | done].
  - destruct (IH a) as [->|[Hin HP]]; [by left | right]. split; [by right | done].
Qed.

End Scan.

Lemma scan_final_path_cases (cfg : Config) (fp s : string) :
  scan_final_path cfg fp s = fp \/
  (Js.includes (OUT_DIR cfg) (scan_final_path cfg fp s) = true /\
   scan_final_path cfg fp s <> "").
Proof.
  unfold scan_final_path. fold (lines_of s).
  destruct (pick_last_cases (Js.includes (OUT_DIR cfg)) (lines_of s) fp)
    as [->|[Hin HP]]; [by left|].
  right. split; [done|]. intros Heq. rewrite Heq in Hin.
  unfold lines_of in Hin. apply list_elem_of_filter in Hin as [Ht _]. done.
Qed.

(** X7: how the generic adapter finds its output path.  A chunk of output
    none of whose trimmed, non-empty lines contains the output directory
    leaves [finalPath] as it was; otherwise [finalPath] becomes the last such
    line of the chunk.  So, from the start of the subprocess, [finalPath] is
    empty or a non-empty line that contains the output directory, and a
    fulfilled promise of this adapter always names a path that exists and
    contains the output directory.  Nothing more is asked of the path: after
    exit code 0 the promise is fulfilled with any non-empty [finalPath] that
    exists, a directory included, and the upload of a directory then fails
    on reading it, before any request. *)
Theorem final_path_scan (cfg : Config) (fp s : string) :
  (Forall (fun l => Js.includes (OUT_DIR cfg) l = false) (lines_of s) ->
   scan_final_path cfg fp s = fp) /\
  (forall l1 l l2,
     lines_of s = l1 ++ l :: l2 -> Js.includes (OUT_DIR cfg) l = true ->
     Forall (fun x => Js.includes (OUT_DIR cfg) x = false) l2 ->
     scan_final_path cfg fp s = l) /\
  (forall chunks,
     let pr := fold_left (on_stdout cfg) chunks (mkProc YtDlp "" "") in
     engine pr = YtDlp /\
     (finalPath pr = "" \/
      (Js.includes (OUT_DIR cfg) (finalPath pr) = true /\ finalPath pr <> "")) /\
     forall d id err code f,
       on_close cfg d id (mkProc YtDlp (finalPath pr) err) code = inl (SingleFile f) ->
       Js.includes (OUT_DIR cfg) f = true /\ existsSync d f = true) /\
  (forall d id f err,
     f <> "" -> existsSync d f = true ->
     on_close cfg d id (mkProc YtDlp f err) (Some 0) = inl (SingleFile f) /\
     (tg_configured cfg = true -> isDirectory d f = true ->
      forall caption r,
        settle_upload (tgSendFileChecked cfg d f caption) r = Some EISDIR)).
Proof.
  split; [|split; [|split]].
  - intros H. by apply pick_last_none.
  - intros l1 l l2 Heq Hl H2. unfold scan_final_path. fold (lines_of s).
    rewrite Heq. by apply pick_last_some.
  - intros chunks pr.
    assert (Hinv : engine pr = YtDlp /\
              (finalPath pr = "" \/
               (Js.includes (OUT_DIR cfg) (finalPath pr) = true /\ finalPath pr <> ""))).
    { subst pr. induction chunks as [|c chunks IH] using rev_ind; [split; [done | by left]|].
      rewrite fold_left_app. simpl. destruct IH as [He Hfp].
      set (pr0 := fold_left (on_stdout cfg) chunks (mkProc YtDlp "" "")) in *.
      assert (Hstep : on_stdout cfg pr0 c
                      = mkProc YtDlp (scan_final_path cfg (finalPath pr0) c) (stderr pr0)).
      { unfold on_stdout. by rewrite He. }
      rewrite Hstep. cbn [engine finalPath]. split; [done|].
      destruct (scan_final_path_cases cfg (finalPath pr0) c) as [->|H]; [done | by right]. }
    destruct Hinv as [He Hfp]. split; [done|]. split; [done|].
    intros d id err code f Hclose.
    unfold on_close, runYtDlpSingle_close in Hclose. simpl in Hclose.
    destruct (is_zero code && Js.truthy (finalPath pr) && existsSync d (finalPath pr))
      eqn:Hc; [|done].
    injection Hclose as <-. apply andb_true_iff in Hc as [Hc Hex].
    apply andb_true_iff in Hc as [_ Ht]. split; [|done].
    destruct Hfp as [Hempty|[Hinc _]]; [|done]. rewrite Hempty in Ht. done.
  - intros d id f err Hf Hex. split.
    + unfold on_close, runYtDlpSingle_close. simpl. rewrite Hex.
      unfold Js.truthy. apply String.eqb_neq in Hf. by rewrite Hf.
    + intros Hon Hdir caption r.
      unfold settle_upload, settle, tgSendFileChecked, readFileSync.
      by rewrite Hon, Hex, Hdir.
Qed.

(** the generic adapter prints the output directory itself; a file of
    2 GiB is to be uploaded *)
Example unreadable_results :
  let d := mkDisk [] ["/srv/downloads"] [] [] in
  let big := "/srv/downloads/job_j1.mp4" in
  let too_large := mkError "RangeError" "File size (2147483648) is greater than 2 GiB" in
  on_close Sample.cfg d "j1"
    (on_stdout Sample.cfg (mkProc YtDlp "" "") ("[download] 100%" +:+ nl +:+ "/srv/downloads" +:+ nl))
    (Some 0) = inl (SingleFile "/srv/downloads") /\
  tgSendFileChecked Sample.cfg d "/srv/downloads" "" = Settled (Some EISDIR) /\
  tgSendFileChecked Sample.cfg (mkDisk [big] [] [] [(big, too_large)]) big ""
    = Settled (Some too_large) /\
  tgSendFileChecked Sample.cfg (mkDisk [big] [] [] []) big "" = Requested /\
  tgSendFileChecked Sample.cfg (mkDisk [] [] [] []) big "" = Settled (Some (ENOENT big)).
Proof. by vm_compute. Qed.

(** ** Log window *)

Section Window.

Local Open Scope nat_scope.

Lemma string_length_app (a b : string) :
  String.length (a +:+ b) = String.length a + String.length b.
Proof. induction a as [|c a IH]; [done|]. rewrite app_cons. simpl. by rewrite IH. Qed.

Lemma drop_drop (i k : nat) (s : string) : Js.drop i (Js.drop k s) = Js.drop (k + i) s.
Proof.
  revert s; induction k as [|k IH]; intros s; [done|].
  destruct s as [|c s]; simpl; [by destruct i | apply IH].
Qed.

Lemma drop_app_length (a b : string) : Js.drop (String.length a) (a +:+ b) = b.
Proof. induction a as [|c a IH]; [done|]. rewrite app_cons. simpl. apply IH. Qed.

Lemma slice_last_length (n : nat) (s : string) : String.length (Js.slice_last n s) <= n.
Proof. unfold Js.slice_last. rewrite length_drop. lia. Qed.

Lemma slice_last_short (n : nat) (s : string) :
  String.length s <= n -> Js.slice_last n s = s.
Proof. intros H. unfold Js.slice_last. by replace (String.length s - n) with 0 by lia. Qed.

Lemma slice_last_ends (n : nat) (a c : string) :
  String.length c <= n -> Js.endsWith c (Js.slice_last n (a +:+ c)) = true.
Proof.
  intros Hc. apply endsWith_spec. unfold Js.slice_last.
  exists (String.length a - (String.length (a +:+ c) - n)).
  rewrite drop_drop, string_length_app.
  replace (String.length a + String.length c - n
           + (String.length a - (String.length a + String.length c - n)))
    with (String.length a) by lia.
  apply drop_app_length.
Qed.

End Window.

(** X8: progress is observable while the engine runs.  Each chunk the
    subprocess writes to its standard output or standard error is appended
    to the job's log when it arrives, the status staying as it is; a status
    request made then answers with the last 8000 characters of the log so
    far, which end with that chunk when the chunk is no longer than the
    window. *)
Theorem progress_is_observable (new_URL : string -> option URL) (cfg : Config)
    (d : Disk) (evs : list (string * Event)) (now : string) (tid : nat)
    (t : Task) (pr : Proc) (chunk : string) (to_stdout : bool) :
  let s := run new_URL cfg (initial d) evs in
  tasks s !! tid = Some t -> phase t = AwaitEngine pr ->
  let s' := step new_URL cfg now s
              (Resume tid (if to_stdout then StdoutData chunk else StderrData chunk)) in
  exists j j',
    jobs (store s) !! t_id t = Some j /\
    log <$> jobs (store s') !! t_id t = Some (log j +:+ chunk) /\
    status <$> jobs (store s') !! t_id t = Some (status j) /\
    (get_job (t_id t) s').2 = JobJson j' /\
    log j' = Js.slice_last (Z.to_nat 8000) (log j +:+ chunk) /\
    (String.length (log j') <= Z.to_nat 8000)%nat /\
    ((String.length chunk <= Z.to_nat 8000)%nat -> Js.endsWith chunk (log j') = true).
Proof.
  intros s Ht Hp s'.
  pose proof (sched_inv_run new_URL cfg _ evs (sched_inv_initial new_URL cfg d))
    as [_ Htask _ _]. fold s in Htask.
  destruct (Htask _ _ Ht) as [[j Hj] _].
  assert (Hjobs : jobs (store s') = jobs (pushLog (t_id t) chunk now (store s))).
  { subst s'. simpl. unfold resume. rewrite Ht. unfold task_step. rewrite Hp.
    by destruct to_stdout. }
  assert (Hlook : jobs (store s') !! t_id t
                  = Some (mkJob (job_id j) (url j) (status j) (created_at j) now
                            (file_path j) (file_name j) (error j) (log j +:+ chunk))).
  { rewrite Hjobs, jobs_pushLog, decide_True, Hj by done. simpl.
    by rewrite or_else_empty. }
  exists j. eexists. split; [done|]. rewrite Hlook. simpl.
  split; [done|]. split; [done|].
  unfold get_job. rewrite Hlook. simpl. split; [done|]. rewrite or_else_empty.
  split; [done|]. split; [apply slice_last_length | apply slice_last_ends].
Qed.

Lemma progress_is_observable_witness :
  exists j j',
    jobs (store (Sample.downloading "https://example.com/a.mp4")) !! "j1" = Some j /\
    log <$> jobs (store (step Sample.new_URL Sample.cfg "t3"
                           (Sample.downloading "https://example.com/a.mp4")
                           (Resume 0 (StdoutData "[#1 12%]")))) !! "j1"
      = Some (log j +:+ "[#1 12%]") /\
    (get_job "j1" (step Sample.new_URL Sample.cfg "t3"
                     (Sample.downloading "https://example.com/a.mp4")
                     (Resume 0 (StdoutData "[#1 12%]")))).2 = JobJson j'.
Proof.
  destruct (progress_is_observable Sample.new_URL Sample.cfg Sample.empty_disk
              [("t0", HttpPost (Some "https://example.com/a.mp4") "j1");
               ("t1", Immediate); ("t2", Resume 0 (Settles Sample.ok))]
              "t3" 0
              (mkTask "j1" "https://example.com/a.mp4" (AwaitEngine (mkProc Aria2 "" "")))
              (mkProc Aria2 "" "") "[#1 12%]" true eq_refl eq_refl)
    as (j & j' & Hj & Hlog & _ & Hget & _).
  exists j, j'. split; [exact Hj|]. split; [exact Hlog | exact Hget].
Defined.

(** ** One invocation from start to end *)

Section Invocation.

Context (new_URL : string -> option URL) (cfg : Config).

Lemma task_step_patience now st t r :
  engine_done (phase t) = true ->
  match (task_step new_URL cfg now st t (Settles r)).2 with
  | None => True
  | Some ph => engine_done ph = true /\ (patience ph < patience (phase t))%nat
  end.
Proof.
  intros Hd. unfold task_step.
  destruct (phase t) as [p|pr|p all|p all sent fp rest|p all|p fp|p fp|p]; try done.
  - destruct (settle_message p r); simpl; [split; [done|lia]|].
    unfold deliver. destruct all; simpl; split; try done; lia.
  - destruct (settle_upload p r); simpl; [split; [done|lia]|].
    unfold deliver. destruct rest; simpl; split; try done; lia.
  - destruct (settle_message p r); simpl; [split; [done|lia] | done].
  - destruct (settle_upload p r); simpl; split; try done; lia.
  - destruct (settle_message p r); simpl; [split; [done|lia] | done].
Qed.

Lemma spawned_setJob id p now st : spawned (setJob id p now st) = spawned st.
Proof. unfold spawned. by rewrite (proj2 (proj2 (setJob_rest id p now st))). Qed.

Lemma spawned_pushLog id s now st : spawned (pushLog id s now st) = spawned st.
Proof. unfold spawned. by rewrite (proj2 (proj2 (pushLog_rest id s now st))). Qed.

Lemma spawned_emit e st :
  spawned (emit e st) = spawned st ++ (if is_spawn e then [e] else []).
Proof. unfold spawned, emit. simpl. rewrite List.filter_app. simpl. by destruct (is_spawn e). Qed.

Lemma spawned_catch now id e st : spawned (catch cfg now id e st).1 = spawned st.
Proof. unfold catch. simpl. by rewrite spawned_emit, spawned_setJob, app_nil_r. Qed.

Lemma spawned_deliver now id all sent rest st :
  spawned (deliver cfg now id all sent rest st).1 = spawned st.
Proof.
  unfold deliver. destruct rest; simpl;
    by rewrite spawned_emit, ?spawned_setJob, app_nil_r.
Qed.

Lemma spawned_on_result now id u r st :
  spawned (on_result cfg now id u r st).1 = spawned st.
Proof.
  unfold on_result. destruct r; simpl;
    by rewrite spawned_emit, !spawned_setJob, app_nil_r.
Qed.

Lemma spawned_task_step now st t ev :
  exists extra,
    spawned (task_step new_URL cfg now st t ev).1 = spawned st ++ extra /\
    (List.length extra
     + match (task_step new_URL cfg now st t ev).2 with
       | Some ph => if before_start ph then 1 else 0
       | None => 0
       end
     <= if before_start (phase t) then 1 else 0)%nat.
Proof.
  assert (Hsame : forall x : Store * option Phase,
            spawned x.1 = spawned st ->
            match x.2 with Some ph => before_start ph = false | None => True end ->
            exists extra, spawned x.1 = spawned st ++ extra /\
              (List.length extra
               + match x.2 with Some ph => if before_start ph then 1 else 0 | None => 0 end
               <= if before_start (phase t) then 1 else 0)%nat).
  { intros [st' next] Hs Hn. simpl in *. exists []. rewrite app_nil_r. split; [done|].
    destruct next as [ph|]; [rewrite Hn|]; simpl; lia. }
  unfold task_step.
  destruct (phase t) as [p|pr|p all|p all sent fp rest|p all|p fp|p fp|p] eqn:Hp;
    destruct ev as [r|s|s|e|code];
    try (exists []; rewrite app_nil_r; split; [done | simpl; lia]);
    try (apply Hsame; [apply spawned_catch | done]);
    try (apply Hsame; [apply spawned_pushLog | done]).
  - destruct (settle_message p r); [apply Hsame; [apply spawned_catch | done]|].
    unfold runDownload. destruct (classify new_URL (t_url t));
      [|apply Hsame; [apply spawned_catch | done]].
    simpl. rewrite spawned_emit. simpl. eexists. split; [done|]. simpl. lia.
  - destruct (on_close cfg (disk st) (t_id t) pr code);
      apply Hsame; try apply spawned_on_result; try apply spawned_catch.
    + unfold on_result. by destruct r.
    + done.
  - destruct (settle_message p r); apply Hsame;
      try apply spawned_catch; try apply spawned_deliver; try done.
    unfold deliver. by destruct all.
  - destruct (settle_upload p r); apply Hsame; try apply spawned_catch; try done.
    + rewrite spawned_deliver. unfold spawned. simpl.
      rewrite List.filter_app. simpl. apply app_nil_r.
    + unfold deliver. by destruct rest.
  - destruct (settle_message p r); apply Hsame; try apply spawned_catch; done.
  - destruct (settle_upload p r); apply Hsame; try apply spawned_catch; try done.
    simpl. by rewrite spawned_emit, spawned_setJob, app_nil_r.
  - destruct (settle_message p r); apply Hsame; try apply spawned_catch; done.
Qed.

End Invocation.

(** X9: once its engine has closed, an invocation ends after a bounded
    number of notifier settlements, whatever they are: three for a single
    file, the number of items plus three for a multi-file result; no
    sequence of replies keeps it waiting or makes it repeat a step. *)
Theorem invocation_ends (new_URL : string -> option URL) (cfg : Config)
    (evs : list (string * TaskEvent)) (st : Store) (id u : string) (ph : Phase) :
  engine_done ph = true -> Forall is_settlement evs ->
  (patience ph <= List.length evs)%nat ->
  (run_task new_URL cfg st (mkTask id u ph) evs).2 = None.
Proof.
  intros Hd Hev. revert st ph Hd.
  induction Hev as [|[now ev] evs Hs _ IH]; intros st ph Hd Hlen.
  { destruct ph; simpl in *; try done; lia. }
  destruct ev as [r| | | |]; try done.
  pose proof (task_step_patience new_URL cfg now st (mkTask id u ph) r Hd) as Hstep.
  simpl. destruct (task_step new_URL cfg now st (mkTask id u ph) (Settles r))
    as [st' [ph'|]]; [|done].
  simpl in Hstep. destruct Hstep as [Hd' Hlt]. apply IH; [done|]. simpl in Hlen. lia.
Qed.

Lemma invocation_ends_witness :
  (run_task Sample.new_URL Sample.cfg
     (store (Sample.uploading "https://example.com/a.mp4"))
     (mkTask "j1" "https://example.com/a.mp4"
        (AwaitUpload Requested "/srv/downloads/job_j1/a.mp4"))
     (replies [("t5", Sample.ok); ("t6", Sample.refused); ("t7", Sample.refused)])).2
  = None.
Proof.
  refine (invocation_ends Sample.new_URL Sample.cfg
    (replies [("t5", Sample.ok); ("t6", Sample.refused); ("t7", Sample.refused)])
    (store (Sample.uploading "https://example.com/a.mp4")) "j1"
    "https://example.com/a.mp4"
    (AwaitUpload Requested "/srv/downloads/job_j1/a.mp4") eq_refl _ _).
  - repeat constructor.
  - simpl. lia.
Defined.

(** X14: an invocation starts at most one engine, and none once it is past
    its starting notification: whatever events it receives, a failed or
    finished pipeline is never run again and no engine is spawned twice. *)
Theorem one_engine_per_invocation (new_URL : string -> option URL) (cfg : Config)
    (evs : list (string * TaskEvent)) (st : Store) (t : Task) :
  exists extra,
    spawned (run_task new_URL cfg st t evs).1 = spawned st ++ extra /\
    (List.length extra <= if before_start (phase t) then 1 else 0)%nat.
Proof.
  revert st t. induction evs as [|[now ev] evs IH]; intros st t.
  { exists []. simpl. rewrite app_nil_r. split; [done | lia]. }
  destruct (spawned_task_step new_URL cfg now st t ev) as (extra & Hs & Hlen).
  simpl. destruct (task_step new_URL cfg now st t ev) as [st' [ph|]]; simpl in *.
  - destruct (IH st' (mkTask (t_id t) (t_url t) ph)) as (extra' & Hs' & Hlen').
    exists (extra ++ extra'). rewrite Hs', Hs, app_assoc. split; [done|].
    rewrite length_app. simpl in Hlen'. lia.
  - exists extra. split; [done | lia].
Qed.

(** ** Notifier without credentials *)

Section Unconfigured.

Context (new_URL : string -> option URL) (cfg : Config).
Hypothesis Hoff : tg_configured cfg = false.

Lemma message_unsent text r : settle_message (tgSendMessage cfg text) r = None.
Proof. unfold settle_message, settle, tgSendMessage. by rewrite Hoff. Qed.

Lemma upload_unsent d fp caption r :
  settle_upload (tgSendFileChecked cfg d fp caption) r = None.
Proof. unfold settle_upload, settle, tgSendFileChecked. by rewrite Hoff. Qed.

Lemma deliver_loop_unsent id u all rest :
  forall sent now st rs,
    List.length rs = List.length rest ->
    exists st',
      continue new_URL cfg id u (deliver cfg now id all sent rest st) (replies rs)
        = (st', Some (AwaitPlaylistDone (Settled None) all)) /\
      file_events (trace st')
        = file_events (trace st) ++ (rest ≫= fun fp => [Upload fp; UnlinkCall fp]) /\
      disk st' = fold_left try_unlink rest (disk st) /\
      (forall j, jobs st !! id = Some j ->
         exists j', jobs st' !! id = Some j' /\ status j' = Done /\
                    file_path j' = file_path j /\ file_name j' = file_name j).
Proof.
  induction rest as [|fp rest IH]; intros sent now st rs Hlen.
  - destruct rs; [|done]. unfold deliver, tgSendMessage. rewrite Hoff. simpl.
    destruct (setJob_rest id (patch_status Done) now st) as (Hd & Ht & Htr).
    eexists. split; [done|]. simpl. rewrite Htr, Hd.
    rewrite file_events_app. simpl. split; [done|]. split; [done|].
    intros j Hj. rewrite jobs_setJob, decide_True, Hj by done. simpl. eauto 10.
  - destruct rs as [|[now1 r] rs]; [done|].
    unfold deliver at 1. cbn [continue replies fmap list_fmap].
    rewrite run_task_cons. cbn [t_id t_url].
    unfold task_step at 1. cbn [phase t_id t_url]. rewrite upload_unsent.
    set (st2 := with_disk _ _).
    destruct (IH (S sent) now1 st2 rs) as (st' & Hrun & Htr & Hdisk & Hown);
      [by injection Hlen|].
    exists st'. split; [exact Hrun|]. split; [|split; [done|]].
    + rewrite Htr. subst st2. cbn [trace with_disk emit].
      rewrite !file_events_app. simpl. by rewrite <- !app_assoc.
    + intros j Hj. by apply Hown.
Qed.

End Unconfigured.

(** X10: when [TG_BOT_TOKEN] or [TG_CHAT_ID] is empty the notifier calls
    return without a request and never fail, whatever the network would
    answer and whether or not the file exists.  A multi-file job then runs
    to [done]: every item is passed to the notifier, which sends nothing,
    and is then deleted from the disk as after an upload. *)
Theorem unconfigured_notifier (new_URL : string -> option URL) (cfg : Config)
    (st : Store) (id u fp0 err now : string) (rs : list (string * Reply)) :
  let result := regular_files (disk st) (job_dir cfg id) in
  let all := sort result in
  tg_configured cfg = false -> result <> [] ->
  List.length rs = S (List.length result) ->
  (forall text r, settle_message (tgSendMessage cfg text) r = None) /\
  (forall d fp caption r, settle_upload (tgSendFileChecked cfg d fp caption) r = None) /\
  (forall text d fp caption,
     tgSendMessage cfg text = Settled None /\
     tgSendFileChecked cfg d fp caption = Settled None) /\
  exists st',
    run_task new_URL cfg st (mkTask id u (AwaitEngine (mkProc Spotdl fp0 err)))
      ((now, ProcClose (Some 0)) :: replies rs)
      = (st', Some (AwaitPlaylistDone (Settled None) all)) /\
    file_events (trace st')
      = file_events (trace st) ++ (all ≫= fun fp => [Upload fp; UnlinkCall fp]) /\
    disk st' = fold_left try_unlink all (disk st) /\
    (forall fp, fp ∈ all -> in_list fp (undeletable (disk st)) = false ->
                existsSync (disk st') fp = false) /\
    (forall j, jobs st !! id = Some j ->
       exists j', jobs st' !! id = Some j' /\ status j' = Done).
Proof.
  intros result all Hoff Hne Hlen.
  split; [intros; by apply message_unsent|].
  split; [intros; by apply upload_unsent|].
  split; [intros; unfold tgSendMessage, tgSendFileChecked; by rewrite Hoff|].
  assert (Hperm : all ≡ₚ result) by apply merge_sort_Permutation.
  destruct rs as [|[now0 r0] rs]; [done|].
  assert (Hclose : on_close cfg (disk st) id (mkProc Spotdl fp0 err) (Some 0)
                   = inl (FileList result)).
  { unfold on_close, runSpotdlMulti_close. simpl. fold result. by destruct result. }
  rewrite run_task_cons. cbn [t_id t_url].
  unfold task_step at 1. cbn [phase t_id t_url]. rewrite Hclose.
  unfold on_result. fold all. cbn [continue replies fmap list_fmap].
  rewrite run_task_cons. cbn [t_id t_url fst snd].
  unfold task_step at 1. cbn [phase t_id t_url].
  rewrite message_unsent by done.
  set (st1 := emit _ _).
  assert (Hdisk1 : disk st1 = disk st).
  { subst st1. cbn [disk emit]. by rewrite !(proj1 (setJob_rest _ _ _ _)). }
  assert (Htrace1 : file_events (trace st1) = file_events (trace st)).
  { subst st1. cbn [trace emit]. rewrite file_events_app. simpl.
    rewrite !(proj2 (proj2 (setJob_rest _ _ _ _))). by rewrite app_nil_r. }
  destruct (deliver_loop_unsent new_URL cfg Hoff id u all all 0%nat now0 st1 rs)
    as (st' & Hrun & Htr & Hd & Hown).
  { rewrite Hperm. by injection Hlen. }
  exists st'. split; [exact Hrun|]. split; [by rewrite Htr, Htrace1|].
  split; [by rewrite Hd, Hdisk1|]. split.
  - intros fp Hin Hdel. rewrite Hd, Hdisk1. by apply unlink_all_gone.
  - intros j Hj.
    destruct (Hown (spread (spread j (patch_status Uploading) now)
                      (patch_files None (Some (Js.of_nat (List.length all) +:+ " files")))
                      now)) as (j' & Hj' & Hs & _).
    { subst st1. rewrite jobs_emit, !jobs_setJob, !decide_True, Hj by done. done. }
    by exists j'.
Qed.

Lemma unconfigured_notifier_witness :
  exists st',
    run_task Sample.new_URL Sample.cfg_off (store (Sample.playlist []))
      (mkTask "j1" Sample.playlist_url (AwaitEngine (mkProc Spotdl "" "")))
      (("t3", ProcClose (Some 0))
       :: replies [("t4", Sample.refused); ("t5", Sample.refused); ("t6", Sample.refused)])
      = (st', Some (AwaitPlaylistDone (Settled None) [Sample.track_a; Sample.track_b])) /\
    file_events (trace st')
      = [Upload Sample.track_a; UnlinkCall Sample.track_a;
         Upload Sample.track_b; UnlinkCall Sample.track_b] /\
    disk st' = mkDisk [] [] [] [].
Proof.
  assert (Hne : regular_files (disk (store (Sample.playlist [])))
                  (job_dir Sample.cfg_off "j1") <> []) by (by vm_compute).
  destruct (unconfigured_notifier Sample.new_URL Sample.cfg_off
              (store (Sample.playlist [])) "j1" Sample.playlist_url "" "" "t3"
              [("t4", Sample.refused); ("t5", Sample.refused); ("t6", Sample.refused)]
              eq_refl Hne eq_refl)
    as (_ & _ & _ & st' & Hrun & Htr & Hd & _).
  exists st'. split; [exact Hrun|]. split; [exact Htr | exact Hd].
Defined.

(** ** Store operations *)

Lemma spread_spread cur p1 p2 n1 n2 :
  spread (spread cur p1 n1) p2 n2 = spread cur (merge_patch p1 p2) n2.
Proof.
  unfold spread, merge_patch. simpl.
  destruct (p_status p2), (p_file_path p2), (p_file_name p2), (p_error p2); done.
Qed.

(** X11: how the two store operations compose.  On an id the registry does
    not hold, both do nothing.  Two log appends are one append of the
    concatenation; two patches are one patch in which the later one wins
    field by field; a patch and a log append made at the same time commute,
    since a patch never touches the log and an append touches nothing
    else. *)
Theorem store_operations_compose (id : string) (st : Store) :
  (jobs st !! id = None ->
   forall p s now, setJob id p now st = st /\ pushLog id s now st = st) /\
  (forall s1 s2 n1 n2,
     pushLog id s2 n2 (pushLog id s1 n1 st) = pushLog id (s1 +:+ s2) n2 st) /\
  (forall p1 p2 n1 n2,
     setJob id p2 n2 (setJob id p1 n1 st) = setJob id (merge_patch p1 p2) n2 st) /\
  (forall p s now,
     setJob id p now (pushLog id s now st) = pushLog id s now (setJob id p now st)) /\
  (forall p s now id',
     log <$> jobs (setJob id p now st) !! id' = log <$> jobs st !! id' /\
     status <$> jobs (pushLog id s now st) !! id' = status <$> jobs st !! id').
Proof.
  split; [|split; [|split; [|split]]].
  - intros Hn p s now. unfold setJob, pushLog. by rewrite Hn.
  - intros s1 s2 n1 n2. unfold pushLog.
    destruct (jobs st !! id) as [cur|] eqn:Hcur; simpl; [|by rewrite Hcur].
    rewrite lookup_insert_eq. unfold with_jobs. simpl.
    rewrite insert_insert_eq, !or_else_empty. by rewrite string_app_assoc.
  - intros p1 p2 n1 n2. unfold setJob.
    destruct (jobs st !! id) as [cur|] eqn:Hcur; simpl; [|by rewrite Hcur].
    rewrite lookup_insert_eq. unfold with_jobs. simpl.
    by rewrite insert_insert_eq, spread_spread.
  - intros p s now. unfold setJob, pushLog.
    destruct (jobs st !! id) as [cur|] eqn:Hcur; simpl; [|by rewrite Hcur].
    rewrite !lookup_insert_eq. unfold with_jobs. simpl.
    by rewrite !insert_insert_eq.
  - intros p s now id'. rewrite jobs_setJob, jobs_pushLog.
    case_decide; [|done]. by destruct (jobs st !! id').
Qed.

(** ** Job directories *)

Example path_examples :
  path_join "/srv/downloads" "job_a" = "/srv/downloads/job_a" /\
  path_join "/srv/downloads" "job_a.%(ext)s" = "/srv/downloads/job_a.%(ext)s" /\
  path_join "/srv/downloads/" "job_a" = "/srv/downloads/job_a" /\
  path_join "/srv/downloads" "job_x/../job_y" = "/srv/downloads/job_y" /\
  path_join "/srv/downloads" "job_../.." = "/srv/downloads" /\
  path_join "downloads" "../../etc" = "../etc" /\
  path_join "" "" = "." /\
  normalize "/a//b/./c/.." = "/a/b" /\
  normalize "a/../../b/" = "../b/" /\
  normalize "/.." = "/" /\
  normalize "./" = "./" /\
  basename "/srv/downloads/job_a/b.mp3" = "b.mp3" /\
  basename "/srv/downloads/" = "downloads" /\
  basename "/" = "" /\
  basename "b.mp3" = "b.mp3".
Proof. by vm_compute. Qed.

Section Paths.

Lemma has_slash_spec (s : string) : Js.includes "/" s = has_slash s.
Proof.
  induction s as [|c s IH]; [done|].
  cbn [Js.includes Js.startsWith has_slash]. rewrite IH, (Ascii.eqb_sym c).
  by destruct (Ascii.eqb "/" c).
Qed.

Lemma has_slash_app (a b : string) : has_slash (a +:+ b) = has_slash a || has_slash b.
Proof.
  induction a as [|c a IH]; [by rewrite app_nil|].
  rewrite app_cons. simpl. by rewrite IH, orb_assoc.
Qed.

Lemma has_slash_rev (s : string) : has_slash (String.rev s) = has_slash s.
Proof.
  induction s as [|c s IH]; [done|].
  rewrite rev_cons, has_slash_app, IH. simpl. by rewrite orb_false_r, orb_comm.
Qed.

Lemma app_inv_tail (x y f : string) : x +:+ f = y +:+ f -> x = y.
Proof.
  intros H. apply (f_equal String.rev) in H. rewrite !rev_app_distr in H.
  apply (inj (String.app (String.rev f))) in H.
  by rewrite <- (rev_involutive x), H, rev_involutive.
Qed.

Lemma app_nonempty (x n : string) : n <> "" -> x +:+ n <> "".
Proof.
  intros Hn H. destruct x; [by rewrite app_nil in H | by rewrite app_cons in H].
Qed.

Lemma eqb_app_false (x n : string) : n <> "" -> String.eqb (x +:+ n) "" = false.
Proof. intros Hn. by apply String.eqb_neq, app_nonempty. Qed.

Lemma last_char_app (x n : string) :
  n <> "" -> Spec.last_char (x +:+ n) = Spec.last_char n.
Proof.
  intros Hn. induction x as [|c x IH]; [by rewrite app_nil|].
  rewrite app_cons. simpl. rewrite IH.
  destruct (x +:+ n) eqn:E; [|done]. by apply app_nonempty in E.
Qed.

Lemma last_char_drop (i : nat) (s : string) :
  Js.drop i s <> "" -> Spec.last_char (Js.drop i s) = Spec.last_char s.
Proof.
  revert s. induction i as [|i IH]; intros s H; [done|].
  destruct s as [|c s]; [done|]. simpl in *. rewrite IH by done.
  destruct s; [|done]. by destruct i.
Qed.

Lemma last_char_slash (s : string) :
  Spec.last_char s = Some "/"%char -> has_slash s = true.
Proof.
  induction s as [|c s IH]; [done|]. simpl. destruct s as [|c' s].
  - intros [= ->]. done.
  - intros H. rewrite IH by done. apply orb_true_r.
Qed.

Lemma endsWith_slash (x n : string) :
  n <> "" -> has_slash n = false -> Js.endsWith "/" (x +:+ n) = false.
Proof.
  intros Hn Hs. destruct (Js.endsWith "/" (x +:+ n)) eqn:E; [|done].
  apply endsWith_spec in E as [i Hi].
  assert (H : Spec.last_char (x +:+ n) = Some "/"%char).
  { rewrite <- (last_char_drop i); [by rewrite Hi | by rewrite Hi]. }
  rewrite last_char_app in H by done. apply last_char_slash in H. congruence.
Qed.

Lemma startsWith_slash (s x : string) :
  s <> "" -> has_slash s = false -> Js.startsWith "/" (s +:+ x) = false.
Proof.
  destruct s as [|c s]; [done|]. intros _. rewrite app_cons.
  cbn [Js.startsWith has_slash]. intros H. apply orb_false_iff in H as [Hc _].
  rewrite Ascii.eqb_sym. by rewrite Hc.
Qed.

(** *** Segments *)

Lemma split_go_app (sep : ascii) (cur a b : string) :
  Js.split_go sep cur (a +:+ String sep b)
  = Js.split_go sep cur a ++ Js.split_go sep "" b.
Proof.
  revert cur. induction a as [|c a IH]; intros cur.
  - rewrite app_nil. simpl. by rewrite Ascii.eqb_refl.
  - rewrite app_cons. simpl. destruct (Ascii.eqb c sep); [by rewrite IH | apply IH].
Qed.

Lemma segments_app (a b : string) :
  segments (a +:+ "/" +:+ b) = segments a ++ segments b.
Proof. unfold segments, Js.split. rewrite app_cons, app_nil. apply split_go_app. Qed.

Lemma split_go_plain (cur s : string) :
  has_slash s = false -> Js.split_go "/" cur s = [String.rev cur +:+ s].
Proof.
  revert cur. induction s as [|c s IH]; intros cur H; simpl.
  - by rewrite app_empty_r.
  - simpl in H. apply orb_false_iff in H as [Hc Hs]. rewrite Hc, IH by done.
    by rewrite rev_cons, string_app_assoc, app_cons, app_nil.
Qed.

Lemma segments_plain (s : string) : has_slash s = false -> segments s = [s].
Proof.
  intros H. unfold segments, Js.split. rewrite split_go_plain by done.
  by rewrite app_nil.
Qed.

Lemma split_go_no_slash (cur s : string) :
  has_slash cur = false ->
  Forall (fun seg => has_slash seg = false) (Js.split_go "/" cur s).
Proof.
  revert cur. induction s as [|c s IH]; intros cur H; simpl.
  - constructor; [by rewrite has_slash_rev | done].
  - destruct (Ascii.eqb c "/") eqn:Hc.
    + constructor; [by rewrite has_slash_rev | by apply IH].
    + apply IH. simpl. by rewrite Hc.
Qed.

Lemma segments_no_slash (p : string) :
  Forall (fun seg => has_slash seg = false) (segments p).
Proof. by apply split_go_no_slash. Qed.

Lemma basename_no_slash (p : string) : has_slash (basename p) = false.
Proof.
  unfold basename.
  destruct (last (filter (fun seg => Js.truthy seg) (segments p))) as [x|] eqn:E; [|done].
  apply last_Some_elem_of in E. apply list_elem_of_filter in E as [_ E].
  pose proof (segments_no_slash p) as H. rewrite Forall_forall in H. by apply H.
Qed.

Lemma unsegments_snoc (l : list string) (b : string) :
  unsegments (l ++ [b]) = directory_prefix l +:+ b.
Proof.
  induction l as [|s l IH]; [by rewrite app_nil|].
  cbn [app directory_prefix]. rewrite !string_app_assoc, <- IH.
  simpl. by destruct (l ++ [b]) eqn:E; [destruct l|].
Qed.

Lemma directory_prefix_snoc (l : list string) (b : string) :
  directory_prefix (l ++ [b]) = directory_prefix l +:+ b +:+ "/".
Proof.
  induction l as [|s l IH]; simpl.
  - by rewrite app_nil, app_empty_r.
  - by rewrite IH, !string_app_assoc.
Qed.

Lemma segments_prefix (l : list string) (n : string) :
  Forall (fun seg => has_slash seg = false) l -> has_slash n = false ->
  segments (directory_prefix l +:+ n) = l ++ [n].
Proof.
  intros Hl Hn. induction Hl as [|s l Hs _ IH]; simpl.
  - rewrite app_nil. by apply segments_plain.
  - rewrite !string_app_assoc, segments_app, IH. by rewrite segments_plain.
Qed.

(** *** Normalisation *)

Lemma plain_facts (n : string) :
  plain n ->
  n <> "" /\ has_slash n = false /\
  String.eqb n "" = false /\ String.eqb n "." = false /\ String.eqb n ".." = false.
Proof.
  intros [He Hs]. rewrite has_slash_spec in Hs. unfold entry_name, Js.truthy in He.
  apply andb_true_iff in He as [He H2]. apply andb_true_iff in He as [H0 H1].
  apply negb_true_iff in H0, H1, H2. split; [by apply String.eqb_neq|]. done.
Qed.

Lemma keep_plain (allow : bool) (kept : list string) (n : string) :
  plain n -> keep allow kept n = n :: kept.
Proof.
  intros Hn. apply plain_facts in Hn as (_ & _ & H0 & H1 & H2).
  unfold keep. by rewrite H0, H1, H2.
Qed.

Lemma dots_canonical (allow : bool) (l : list string) :
  allow = true -> Forall (fun s => s = "..") l -> canonical allow l.
Proof.
  intros Ha H. induction H as [|s l -> Hl IH]; [done|].
  split; [done|]. by left.
Qed.

Lemma keep_canonical (allow : bool) (kept : list string) (seg : string) :
  canonical allow kept -> has_slash seg = false -> canonical allow (keep allow kept seg).
Proof.
  intros Hc Hs. unfold keep.
  destruct (String.eqb seg "") eqn:H0; [done|].
  destruct (String.eqb seg ".") eqn:H1; [done|]. simpl.
  destruct (String.eqb seg "..") eqn:H2.
  - apply String.eqb_eq in H2 as ->. destruct kept as [|top below].
    + destruct allow; [|done]. split; [done|]. by left.
    + destruct Hc as [Ht Hc]. destruct (String.eqb top "..") eqn:Htop.
      * apply String.eqb_eq in Htop as ->. destruct allow; [|by split].
        split; [done|]. left. split; [done|]. split; [done|].
        constructor; [done|]. by destruct Hc as [(_ & _ & ?)|[? _]].
      * destruct Hc as [(-> & _)|[_ ?]]; done.
  - split; [done|]. right. split; [|done].
    unfold entry_name, Js.truthy. by rewrite H0, H1, H2.
Qed.

Lemma fold_canonical (allow : bool) (segs kept : list string) :
  canonical allow kept -> Forall (fun seg => has_slash seg = false) segs ->
  canonical allow (fold_left (keep allow) segs kept).
Proof.
  intros Hc Hs. revert kept Hc. induction Hs as [|s segs Hs _ IH]; intros kept Hc; [done|].
  simpl. apply IH. by apply keep_canonical.
Qed.

Lemma canonical_no_slash (allow : bool) (kept : list string) :
  canonical allow kept -> Forall (fun seg => has_slash seg = false) kept.
Proof.
  induction kept as [|top below IH]; [done|]. intros [Ht Hc].
  constructor; [done|]. destruct Hc as [(_ & Ha & Hd)|[_ Hc]]; [|by apply IH].
  eapply Forall_impl; [exact Hd|]. by intros ? ->.
Qed.

Lemma canonical_head (allow : bool) (top : string) (below : list string) :
  canonical allow (top :: below) -> top <> "".
Proof.
  intros [_ [(-> & _)|[He _]]]; [done|]. by intros ->.
Qed.

Lemma canonical_nonempty (allow : bool) (kept : list string) (s : string) :
  canonical allow kept -> s ∈ kept -> s <> "".
Proof.
  induction kept as [|t b IH]; intros Hc Hin; [by apply elem_of_nil in Hin|].
  apply elem_of_cons in Hin as [->|Hin]; [by apply (canonical_head allow t b)|].
  apply IH; [|done]. destruct Hc as [_ [(_ & Ha & Hd)|[_ ?]]]; [|done].
  by apply dots_canonical.
Qed.

(** the segments kept are left as they are when they are met again *)
Lemma refold (allow : bool) (kept : list string) :
  canonical allow kept -> fold_left (keep allow) (rev kept) [] = kept.
Proof.
  induction kept as [|top below IH]; [done|]. intros [Hs Hc].
  cbn [rev]. rewrite fold_left_app. cbn [fold_left].
  destruct Hc as [(-> & Ha & Hd)|[He Hc]].
  - rewrite IH by (by apply dots_canonical). unfold keep. simpl.
    destruct Hd as [|t b -> _]; by rewrite Ha.
  - rewrite IH by done. apply keep_plain. split; [done|]. by rewrite has_slash_spec.
Qed.

Lemma kept_canonical (a : string) :
  canonical (negb (Js.startsWith "/" a))
    (fold_left (keep (negb (Js.startsWith "/" a))) (segments a) []).
Proof. apply fold_canonical; [done | apply segments_no_slash]. Qed.

(** [path.join(a, n)] for an entry name [n]: the normalised [a], a
    separator, and [n] *)
Lemma path_join_entry (a n : string) :
  plain n -> path_join a n = normal_prefix a +:+ n.
Proof.
  intros Hn. pose proof (plain_facts n Hn) as (Hne & Hs & H0 & _).
  assert (Hsw : Js.startsWith "/" n = false).
  { rewrite <- (app_empty_r n). by apply startsWith_slash. }
  assert (Hew : Js.endsWith "/" n = false).
  { rewrite <- (app_nil n). by apply endsWith_slash. }
  unfold path_join, normal_prefix. rewrite H0.
  destruct (String.eqb a "") eqn:Ha.
  - apply String.eqb_eq in Ha as ->. simpl. rewrite !app_nil.
    unfold normalize, normalizeString. rewrite H0, Hsw, Hew.
    rewrite segments_plain by done. simpl. rewrite keep_plain by done. simpl.
    by rewrite H0, app_nil, app_empty_r.
  - apply String.eqb_neq in Ha. unfold normalize, normalizeString.
    assert (Hstart : Js.startsWith "/" (a +:+ "/" +:+ n) = Js.startsWith "/" a).
    { destruct a; [done|]. by rewrite app_cons. }
    rewrite Hstart, <- string_app_assoc, endsWith_slash, eqb_app_false by done.
    rewrite string_app_assoc, segments_app, (segments_plain n), fold_left_app by done.
    cbn [fold_left]. rewrite keep_plain by done. cbn [rev].
    rewrite unsegments_snoc, eqb_app_false by done.
    by rewrite app_empty_r, string_app_assoc.
Qed.

(** ... and what it returns is normalised: joined with an entry name it is
    itself, a separator, and the name *)
Lemma path_join_twice (a n f : string) :
  plain n -> plain f ->
  path_join (path_join a n) f = path_join a n +:+ "/" +:+ f.
Proof.
  intros Hn Hf. pose proof (plain_facts n Hn) as (Hne & Hs & _).
  rewrite (path_join_entry _ f) by done. rewrite <- string_app_assoc. f_equal.
  rewrite path_join_entry by done. unfold normal_prefix.
  set (abs := Js.startsWith "/" a).
  set (kept := fold_left (keep (negb abs)) (segments a) []).
  pose proof (kept_canonical a) as Hc. fold abs in Hc. fold kept in Hc.
  assert (Hl : Forall (fun seg => has_slash seg = false) (rev kept)).
  { apply Forall_rev. by apply (canonical_no_slash (negb abs)). }
  assert (Hcr : canonical (negb abs) (fold_left (keep (negb abs)) (rev kept) [])).
  { by rewrite refold. }
  assert (Hstart : Js.startsWith "/"
            (((if abs then "/" else "") +:+ directory_prefix (rev kept)) +:+ n) = abs).
  { destruct abs; [by rewrite string_app_assoc, app_cons|].
    rewrite app_nil. destruct (rev kept) as [|s l] eqn:E.
    - simpl. rewrite app_nil, <- (app_empty_r n). by apply startsWith_slash.
    - simpl. rewrite !string_app_assoc. apply startsWith_slash.
      + apply (canonical_nonempty _ kept s Hc).
        apply list_elem_of_In, in_rev. rewrite E. by left.
      + by apply Forall_cons in Hl as [? _]. }
  rewrite Hstart.
  assert (Hsegs : fold_left (keep (negb abs))
            (segments (((if abs then "/" else "") +:+ directory_prefix (rev kept)) +:+ n)) []
            = n :: kept).
  { destruct abs.
    - rewrite string_app_assoc.
      change ("/" +:+ directory_prefix (rev kept) +:+ n)
        with ("" +:+ "/" +:+ directory_prefix (rev kept) +:+ n).
      rewrite segments_app, segments_prefix by done.
      change (segments "") with [""]. cbn [app fold_left]. unfold keep at 2. simpl.
      rewrite fold_left_app, refold by done. cbn [fold_left]. by apply keep_plain.
    - rewrite app_nil, segments_prefix by done.
      rewrite fold_left_app, refold by done. cbn [fold_left]. by apply keep_plain. }
  rewrite Hsegs. cbn [rev]. rewrite directory_prefix_snoc.
  by rewrite !string_app_assoc.
Qed.

Lemma job_name_plain (id ext : string) :
  Js.includes "/" id = false -> Js.includes "/" ext = false ->
  plain ("job_" +:+ id +:+ ext).
Proof.
  intros Hid Hext. rewrite has_slash_spec in Hid, Hext. split.
  - by rewrite !app_cons.
  - rewrite has_slash_spec, !has_slash_app, Hid, Hext. done.
Qed.

End Paths.

(** X12: the directories of two jobs never share a file, as long as the ids
    contain no separator -- as the ids [nanoid] returns.  For such an id the
    directory of the job is a normalised path: joined with the name of an
    entry it gives the directory, a separator and the name.  A path that is
    an entry of the directory of one job is then an entry of the directory of
    no other job, so the regular files an adapter collects for one job are
    never those of another; and distinct ids give distinct directories and
    distinct output files of the streaming-manifest adapter.  For ids with
    separators this fails, since [path.join] resolves [..]. *)
Theorem job_directories_disjoint (cfg : Config) :
  (forall id f,
     Js.includes "/" id = false -> plain f ->
     path_join (job_dir cfg id) f = job_dir cfg id +:+ "/" +:+ f) /\
  (forall d id1 id2 p,
     Js.includes "/" id1 = false -> Js.includes "/" id2 = false ->
     p ∈ regular_files d (job_dir cfg id1) -> p ∈ regular_files d (job_dir cfg id2) ->
     id1 = id2) /\
  (forall a b,
     Js.includes "/" a = false -> Js.includes "/" b = false ->
     job_dir cfg a = job_dir cfg b -> a = b) /\
  (forall a b,
     Js.includes "/" a = false -> Js.includes "/" b = false ->
     ffmpeg_out cfg a = ffmpeg_out cfg b -> a = b) /\
  job_dir Sample.cfg "x/../job_y" = job_dir Sample.cfg "y".
Proof.
  assert (Hname : forall id, Js.includes "/" id = false -> plain ("job_" +:+ id)).
  { intros id Hid. rewrite <- (app_empty_r id). by apply job_name_plain. }
  assert (Hinj : forall a b,
            Js.includes "/" a = false -> Js.includes "/" b = false ->
            job_dir cfg a = job_dir cfg b -> a = b).
  { intros a b Ha Hb Heq. unfold job_dir in Heq.
    rewrite !path_join_entry in Heq by (by apply Hname).
    apply (inj (String.app _)) in Heq. by apply (inj (String.app "job_")) in Heq. }
  split; [|split; [|split; [done|split]]].
  - intros id f Hid Hf. unfold job_dir. apply path_join_twice; [by apply Hname | done].
  - intros d id1 id2 p H1 H2 Hp1 Hp2.
    apply regular_files_entry in Hp1 as [Hp1 _].
    apply regular_files_entry in Hp2 as [Hp2 _].
    unfold entry_of in Hp1, Hp2.
    apply andb_true_iff in Hp1 as [Hf Hp1]. apply andb_true_iff in Hp2 as [_ Hp2].
    apply String.eqb_eq in Hp1, Hp2.
    assert (Hplain : plain (basename p)).
    { split; [done|]. rewrite has_slash_spec. apply basename_no_slash. }
    unfold job_dir in Hp1, Hp2.
    rewrite path_join_twice in Hp1, Hp2 by (try apply Hname; done).
    pose proof (eq_trans Hp1 (eq_sym Hp2)) as Heq.
    rewrite <- !string_app_assoc in Heq.
    apply app_inv_tail, app_inv_tail in Heq. by apply Hinj.
  - intros a b Ha Hb Heq. unfold ffmpeg_out in Heq.
    rewrite !path_join_entry in Heq by (by apply job_name_plain).
    apply (inj (String.app _)) in Heq. apply (inj (String.app "job_")) in Heq.
    by apply app_inv_tail in Heq.
  - by vm_compute.
Qed.

(** ** The pipeline of [server.js] *)

(** X13: a resumption of the [server.js] pipeline touches the record of its
    own job only, never removes it, and either keeps its status and result
    fields or writes those of the phase it suspends in (uploading with the
    file's path and name, done, or error); the one event it has no
    listener for, and which therefore ends the process, is the [error] event
    of its subprocess. *)
Theorem server_js_pipeline (cfg : Config) (now : string) (st : Store) (t : Task)
    (ev : TaskEvent) :
  match ServerJs.task_step cfg now st t ev with
  | ServerJs.Next st' next => record_step st t st' next /\ grows st st'
  | ServerJs.Uncaught e => (exists pr, phase t = AwaitEngine pr) /\ ev = ProcError e
  end.
Proof.
  assert (Hcatch : forall e,
            record_step st t (catch cfg now (t_id t) e st).1 (catch cfg now (t_id t) e st).2
            /\ grows st (catch cfg now (t_id t) e st).1).
  { intros e. split; [apply catch_record | apply grows_catch]. }
  unfold ServerJs.task_step, ServerJs.lift.
  destruct (phase t) as [p|pr|p all|p all sent fp rest|p all|p fp|p fp|p] eqn:Hp;
    destruct ev as [r|s|s|e|code];
    try (split; [rewrite <- Hp; apply record_step_stay | apply grows_refl]).
  - destruct (settle_message p r); [apply Hcatch|]. split; [|by apply grows_jobs].
    apply (record_step_jobs' _ _ _ st); [done|]. apply record_step_move; by rewrite Hp.
  - split; [apply pushLog_record; by rewrite Hp | apply grows_pushLog].
  - split; [apply pushLog_record; by rewrite Hp | apply grows_pushLog].
  - split; [by exists pr | done].
  - destruct (ServerJs.runYtDlp_close (disk st) pr code) as [filePath|e]; [|apply Hcatch].
    split.
    + split; [|split].
      * intros id Hid. rewrite jobs_emit, jobs_setJob. by case_decide.
      * intros Hn. rewrite jobs_emit, jobs_setJob. case_decide; [by rewrite Hn | done].
      * intros j Hj. rewrite jobs_emit, jobs_setJob. case_decide; [|done].
        rewrite Hj. simpl. eexists. split; [done|]. right. eexists. split; [done|].
        unfold writes, follows; simpl. rewrite Hp. by repeat split.
    + eapply grows_trans; [apply grows_setJob|]. by apply grows_jobs.
  - destruct (ServerJs.settle_document p r); [apply Hcatch|]. split.
    + split; [|split].
      * intros id Hid. rewrite jobs_emit, jobs_setJob. by case_decide.
      * intros Hn. rewrite jobs_emit, jobs_setJob. case_decide; [by rewrite Hn | done].
      * intros j Hj. rewrite jobs_emit, jobs_setJob. case_decide; [|done].
        rewrite Hj. simpl. eexists. split; [done|]. right. eexists. split; [done|].
        unfold writes, follows; simpl. rewrite Hp. by repeat split.
    + eapply grows_trans; [apply grows_setJob|]. by apply grows_jobs.
  - destruct (settle_message p r); [apply Hcatch|]. split; [|by apply grows_jobs].
    apply (record_step_jobs' _ _ _ st); [done|]. apply record_step_end. by rewrite Hp.
  - split; [apply record_step_end; by rewrite Hp | apply grows_refl].
Qed.

(** ** Timestamps *)

Section Stamps.

Context (new_URL : string -> option URL) (cfg : Config) (now : string).

Lemma stamps_refl st : stamps now st st.
Proof. intros id j Hj. by left. Qed.

Lemma stamps_trans st1 st2 st3 :
  stamps now st1 st2 -> stamps now st2 st3 -> stamps now st1 st3.
Proof.
  intros H12 H23 id j Hj. destruct (H23 _ _ Hj) as [Hj2|Hu]; [|by right].
  by apply H12.
Qed.

Lemma stamps_jobs st st' : jobs st' = jobs st -> stamps now st st'.
Proof. intros H id j Hj. left. by rewrite <- H. Qed.

Lemma stamps_setJob id p st : stamps now st (setJob id p now st).
Proof.
  intros id' j'. rewrite jobs_setJob. case_decide; [|by left].
  destruct (jobs st !! id'); simpl; [|done]. intros [= <-]. by right.
Qed.

Lemma stamps_pushLog id s st : stamps now st (pushLog id s now st).
Proof.
  intros id' j'. rewrite jobs_pushLog. case_decide; [|by left].
  destruct (jobs st !! id'); simpl; [|done]. intros [= <-]. by right.
Qed.

Lemma stamps_catch id e st : stamps now st (catch cfg now id e st).1.
Proof.
  unfold catch. simpl. eapply stamps_trans; [apply stamps_setJob|]. by apply stamps_jobs.
Qed.

Lemma stamps_deliver id all sent rest st :
  stamps now st (deliver cfg now id all sent rest st).1.
Proof.
  unfold deliver. destruct rest; simpl; [|by apply stamps_jobs].
  eapply stamps_trans; [apply stamps_setJob|]. by apply stamps_jobs.
Qed.

Lemma stamps_on_result id u r st : stamps now st (on_result cfg now id u r st).1.
Proof.
  unfold on_result. destruct r; simpl;
    (eapply stamps_trans; [apply stamps_setJob|];
     eapply stamps_trans; [apply stamps_setJob|]; by apply stamps_jobs).
Qed.

Lemma stamps_task_step st t ev : stamps now st (task_step new_URL cfg now st t ev).1.
Proof.
  unfold task_step.
  destruct (phase t) as [p|pr|p all|p all sent fp rest|p all|p fp|p fp|p];
    destruct ev as [r|s|s|e|code]; simpl; try apply stamps_refl;
    try apply stamps_pushLog; try apply stamps_catch.
  - destruct (settle_message p r); [apply stamps_catch|].
    unfold runDownload. destruct (classify new_URL (t_url t));
      [by apply stamps_jobs | apply stamps_catch].
  - destruct (on_close cfg (disk st) (t_id t) pr code);
      [apply stamps_on_result | apply stamps_catch].
  - destruct (settle_message p r); [apply stamps_catch | apply stamps_deliver].
  - destruct (settle_upload p r); [apply stamps_catch|].
    eapply stamps_trans; [|apply stamps_deliver]. by apply stamps_jobs.
  - destruct (settle_message p r); [apply stamps_catch | apply stamps_refl].
  - destruct (settle_upload p r); [apply stamps_catch|]. simpl.
    eapply stamps_trans; [apply stamps_setJob|]. by apply stamps_jobs.
  - destruct (settle_message p r); [apply stamps_catch | by apply stamps_jobs].
Qed.

End Stamps.

(** X15: every write is stamped.  After the server has handled an event at
    time [now], each record of the registry is exactly as it was before the
    event, or its [updated_at] is [now]; a new record has [created_at] and
    [updated_at] both equal to [now].  The clock is read once per event: the
    calls of [nowISO] made while one event is handled are taken to return the
    same instant. *)
Theorem writes_are_stamped (new_URL : string -> option URL) (cfg : Config)
    (now : string) (s : State) (ev : Event) :
  stamps now (store s) (store (step new_URL cfg now s ev)) /\
  (forall b id,
     accepts new_URL b = true ->
     exists j, jobs (store (step new_URL cfg now s (HttpPost b id))) !! id = Some j /\
               created_at j = now /\ updated_at j = now).
Proof.
  split.
  - destruct ev as [b id|id|  |tid ev|n|p]; simpl.
    + unfold post_job. destruct (_ || _); [apply stamps_refl|]. simpl.
      intros id' j'. unfold with_jobs. simpl. rewrite lookup_insert.
      case_decide; [intros [= <-]; by right | by left].
    + unfold get_job. destruct (jobs (store s) !! id); apply stamps_refl.
    + destruct (immediates s); [apply stamps_refl|]. unfold processQueue. simpl.
      destruct (running s >=? MAX_CONCURRENT cfg); [apply stamps_refl|].
      destruct (queue s) as [|id q]; [apply stamps_refl|].
      destruct (jobs (store s) !! id); simpl; [|apply stamps_refl].
      eapply stamps_trans; [apply stamps_setJob|]. by apply stamps_jobs.
    + unfold resume. destruct (tasks s !! tid) as [t|]; [|apply stamps_refl].
      pose proof (stamps_task_step new_URL cfg now (store s) t ev) as H.
      by destruct (task_step new_URL cfg now (store s) t ev) as [st' [ph|]].
    + destruct (timers (store s) !! n) as [[ms id]|]; [|apply stamps_refl].
      apply stamps_jobs. simpl. by rewrite jobs_cleanup.
    + by apply stamps_jobs.
  - intros b id Hacc. simpl. unfold post_job. unfold accepts in Hacc.
    apply andb_true_iff in Hacc as [-> ->]. simpl.
    rewrite lookup_insert_eq. eauto.
Qed.

(** ** Status route over time *)

Lemma grows_run new_URL cfg evs :
  forall s, admissible_run new_URL cfg s evs ->
            grows (store s) (store (run new_URL cfg s evs)).
Proof.
  induction evs as [|[now ev] evs IH]; intros s Hadm; [apply grows_refl|].
  destruct Hadm as [Ha Hadm]. simpl.
  eapply grows_trans; [by apply grows_step | by apply IH].
Qed.

(** X16: a submission whose URL -- the [url] of the body without the white
    space around it -- is not empty and valid is answered with its id, and
    from then on, while [nanoid] returns unused ids, no event makes the
    status route answer 404 for that id: whatever has happened since, the
    route returns a record with this id, this URL and the time of the
    submission as its creation time.  The route answers 404 exactly for the
    ids the registry does not hold. *)
Theorem submitted_job_is_queryable (new_URL : string -> option URL) (cfg : Config)
    (now : string) (b : option string) (u id : string) (s : State)
    (evs : list (string * Event)) :
  Spec.trimmed (default "" b) u ->
  u <> "" -> isValidUrl new_URL u = true ->
  let s1 := (post_job new_URL now b id s).1 in
  admissible_run new_URL cfg s1 evs ->
  (post_job new_URL now b id s).2 = Created id "queued" /\
  (exists j', (get_job id (run new_URL cfg s1 evs)).2 = JobJson j' /\
              job_id j' = id /\ url j' = u /\ created_at j' = now) /\
  (forall s' id', (get_job id' s').2 = NotFound "Job tidak ditemukan."
                  <-> jobs (store s') !! id' = None).
Proof.
  intros Hu Hne Hv s1 Hadm. pose proof (body_url_spec b u Hu) as Hbody.
  assert (Ht : Js.truthy u = true).
  { unfold Js.truthy. apply negb_true_iff. by apply String.eqb_neq. }
  assert (Hs1 : jobs (store s1) !! id
                = Some (mkJob id u Queued now now None None None "")).
  { subst s1. unfold post_job. rewrite Hbody, Ht, Hv. simpl.
    by rewrite lookup_insert_eq. }
  split; [unfold post_job; by rewrite Hbody, Ht, Hv|]. split.
  - destruct (grows_run new_URL cfg evs s1 Hadm _ _ Hs1) as (j' & Hj' & Hi & Hu' & Hc & _).
    unfold get_job. rewrite Hj'. simpl. eexists. split; [done|]. simpl. done.
  - intros s' id'. unfold get_job. destruct (jobs (store s') !! id'); simpl; split; done.
Qed.

Lemma submitted_job_is_queryable_witness :
  exists j',
    (get_job "j1"
       (run Sample.new_URL Sample.cfg
          (post_job Sample.new_URL "t0" (Some " https://example.com/a.mp4 ") "j1"
             (initial Sample.empty_disk)).1
          [("t1", Immediate); ("t2", Resume 0 (Settles Sample.ok))])).2 = JobJson j' /\
    job_id j' = "j1" /\ url j' = "https://example.com/a.mp4" /\ created_at j' = "t0".
Proof.
  assert (Hu : Spec.trimmed (default "" (Some " https://example.com/a.mp4 "))
                 "https://example.com/a.mp4").
  { split; [|split].
    - exists " ", " ". by split.
    - by intros c [= <-].
    - by intros c [= <-]. }
  exact (proj1 (proj2 (submitted_job_is_queryable Sample.new_URL Sample.cfg "t0"
    (Some " https://example.com/a.mp4 ") "https://example.com/a.mp4" "j1"
    (initial Sample.empty_disk)
    [("t1", Immediate); ("t2", Resume 0 (Settles Sample.ok))]
    Hu ltac:(discriminate) eq_refl (conj I (conj I I))))).
Defined.

(** ** Notifier outcomes *)

(** X17: how a notifier call ends.  A text message is delivered without
    error exactly when the credentials are missing (nothing is sent) or the
    response status is between 200 and 299.  A file upload succeeds exactly
    when the credentials are missing, or the file can be read and the
    response is such a status; with credentials and a file that cannot be
    read -- it is missing, it is a directory, or reading it fails --, the
    call fails with the exception of the read, before any request and
    whatever the network would answer.  A response outside 200-299 makes the
    call fail with a message that gives the status and the response body. *)
Theorem notifier_outcomes (cfg : Config) :
  (forall r, accepted r <-> exists c body, r = Responded c body /\ 200 <= c <= 299) /\
  (forall text r,
     settle_message (tgSendMessage cfg text) r = None
     <-> tg_configured cfg = false \/ accepted r) /\
  (forall d fp caption r,
     settle_upload (tgSendFileChecked cfg d fp caption) r = None
     <-> tg_configured cfg = false \/ (readFileSync d fp = None /\ accepted r)) /\
  (forall d fp caption r e,
     tg_configured cfg = true -> readFileSync d fp = Some e ->
     tgSendFileChecked cfg d fp caption = Settled (Some e) /\
     settle_upload (tgSendFileChecked cfg d fp caption) r = Some e) /\
  (forall d fp,
     (existsSync d fp = false -> readFileSync d fp = Some (ENOENT fp)) /\
     (existsSync d fp = true -> isDirectory d fp = true ->
      readFileSync d fp = Some EISDIR) /\
     (readFileSync d fp = None -> isFile d fp = true)) /\
  (forall text c body,
     tg_configured cfg = true -> ~ (200 <= c <= 299) ->
     describe <$> settle_message (tgSendMessage cfg text) (Responded c body)
     = Some ("TG sendMessage failed: " +:+ Js.of_Z c +:+ " " +:+ body)) /\
  (forall d fp caption c body,
     tg_configured cfg = true -> readFileSync d fp = None -> ~ (200 <= c <= 299) ->
     describe <$> settle_upload (tgSendFileChecked cfg d fp caption) (Responded c body)
     = Some ("TG upload failed: " +:+ Js.of_Z c +:+ " " +:+ body)).
Proof.
  assert (Hok : forall c, reply_ok c = true <-> 200 <= c <= 299).
  { intros c. unfold reply_ok. rewrite andb_true_iff, !Z.leb_le. done. }
  assert (Hno : forall c, ~ (200 <= c <= 299) -> reply_ok c = false).
  { intros c Hc. destruct (reply_ok c) eqn:E; [|done]. by apply Hok in E. }
  unfold settle_message, settle_upload, settle, tgSendMessage, tgSendFileChecked.
  split; [|split; [|split; [|split; [|split; [|split]]]]].
  - intros [c body|e]; simpl.
    + rewrite Hok. split; [by eauto|]. by intros (c' & body' & [= -> ->] & H).
    + split; [done|]. by intros (c' & body' & ? & _).
  - intros text r. destruct (tg_configured cfg); [|split; [by left | done]].
    destruct r as [c body|e]; simpl.
    + destruct (reply_ok c); split; try done; [by right | by intros [|]].
    + split; [done | by intros [|]].
  - intros d fp caption r. destruct (tg_configured cfg); [|split; [by left | done]].
    destruct (readFileSync d fp).
    + split; [done | by intros [|[? _]]].
    + destruct r as [c body|e]; simpl.
      * destruct (reply_ok c); split; try done; [by right | by intros [|[_ ?]]].
      * split; [done | by intros [|[_ ?]]].
  - intros d fp caption r e -> ->. done.
  - intros d fp. unfold readFileSync, isFile. split; [by intros ->|]. split.
    + by intros -> ->.
    + unfold existsSync. by destruct (in_list fp (files d)), (isDirectory d fp).
  - intros text c body -> Hc. rewrite (Hno c Hc). simpl. by rewrite describe_Error.
  - intros d fp caption c body -> -> Hc. rewrite (Hno c Hc). simpl.
    by rewrite describe_Error.
Qed.

(** ** Captured standard error *)

Lemma joined_snoc (chunks : list string) (c : string) :
  joined (chunks ++ [c]) = joined chunks +:+ c.
Proof.
  unfold joined. induction chunks as [|x chunks IH]; simpl.
  - by rewrite app_empty_r.
  - change (String.append x ?y) with (x +:+ y).
    rewrite IH. by rewrite string_app_assoc.
Qed.

(** X18: what the adapters keep of standard error.  The generic, direct-file
    and music-service adapters hold everything the subprocess wrote to
    standard error, in the order it arrived, and output on standard output
    does not change it; the streaming-manifest adapter holds none of it.  So
    after a non-zero exit the first three report the last 400 characters of
    the whole of standard error. *)
Theorem stderr_is_accumulated (cfg : Config) (e : Engine) (fp err0 : string)
    (chunks : list string) :
  let pr := fold_left on_stderr chunks (mkProc e fp err0) in
  pr = mkProc e fp (match e with
                    | FfmpegM3u8 => err0
                    | _ => err0 +:+ joined chunks
                    end) /\
  (forall s, stderr (on_stdout cfg pr s) = stderr pr /\
             engine (on_stdout cfg pr s) = engine pr) /\
  (forall d id c,
     c <> 0 -> e <> FfmpegM3u8 ->
     exists tool,
       on_close cfg d id pr (Some c)
       = inr (Error (tool +:+ " exit code " +:+ Js.of_Z c +:+ ". "
                     +:+ Js.slice_last 400 (err0 +:+ joined chunks)))).
Proof.
  intros pr.
  assert (Hpr : pr = mkProc e fp (match e with
                                  | FfmpegM3u8 => err0
                                  | _ => err0 +:+ joined chunks
                                  end)).
  { subst pr. induction chunks as [|c chunks IH] using rev_ind.
    - simpl. unfold joined. simpl. rewrite app_empty_r. by destruct e.
    - rewrite fold_left_app. simpl. rewrite IH. unfold on_stderr. simpl.
      rewrite joined_snoc. destruct e; simpl; by rewrite ?string_app_assoc. }
  split; [done|]. split.
  - intros s. unfold on_stdout. destruct (engine pr) eqn:He'; simpl; by rewrite ?He'.
  - intros d id c Hc He.
    destruct (stderr_tail_reported cfg d id pr c Hc) as [tool Htool].
    { rewrite Hpr. done. }
    exists tool. rewrite Htool. rewrite Hpr. simpl. by destruct e.
Qed.
